(** * Roland SP-404 MKII file automation: name normalisation, audio
    conversion and the recursive directory mirror.

    The development follows [roland_sp404_local_automation.py]
    (class [RolandSP404LocalAutomation]); the macOS and GUI scripts carry
    the same three methods, and [roland_sp404_automation.py] (the SMB
    script) carries an older variant of [normalize_name] and of
    [convert_audio_file], embedded below under the suffix [_smb].

    Modelling choices.
    - A Python [str] is a list of Unicode code points ([ustring]).
    - [unicodedata.normalize('NFKD', _)] and [str.lower] consult CPython's
      Unicode tables, which are not part of the repository: they are the
      two fields of the class [UnicodeData], and every general theorem
      holds for all tables.  [UcdSample] gives the rows needed to run the
      examples.
    - Audio samples are finite binary64 numbers, held as rationals
      ([Q]); the result of every floating-point operation of the
      conversion is rounded to binary64 ([Binary64.round64]: to nearest,
      ties to even, subnormal numbers included).  A file that holds a
      NaN or an infinity is outside the model.
    - [scipy.signal.resample], [sf.read], [sf.write] and [mkdir] belong
      to the environment: the first is a parameter with its documented
      output shape, the others succeed or raise as the environment says.
    - [process_directory] returns the list of its effects (directories
      created, files written, log lines) and tells whether it was left
      by an exception.
    - [pathlib] is the POSIX flavour, with [suffix] and [stem] computed
      from [name.rfind('.')] as in Python 3.7 (the version the scripts
      ask for) to 3.12. *)

From Stdlib Require Import List Bool Arith ZArith NArith QArith Qabs Qminmax Qround Qpower.
From Stdlib Require Import Lia Lqa.
From Stdlib Require Import Ascii String DecimalString DecimalN.
Import ListNotations.

Close Scope Q_scope.
Open Scope nat_scope.

Set Implicit Arguments.
Set Warnings "-register-all".

(* ------------------------------------------------------------------ *)
(** * Unicode strings *)

Module Text.

Definition uchar := N.
Definition ustring := list uchar.

Definition ueqb (a b : ustring) : bool :=
  if list_eq_dec N.eq_dec a b then true else false.

(** Decoder used to write [ustring] literals: the bytes of a Rocq string
    literal are read as UTF-8. *)
Fixpoint utf8 (bs : list N) (need : nat) (acc : N) : ustring :=
  match bs with
  | [] => []
  | b :: r =>
      match need with
      | O => if (b <? 128)%N then b :: utf8 r 0 0%N
             else if (b <? 224)%N then utf8 r 1 (b - 192)%N
             else if (b <? 240)%N then utf8 r 2 (b - 224)%N
             else utf8 r 3 (b - 240)%N
      | S O => (acc * 64 + (b - 128))%N :: utf8 r 0 0%N
      | S k => utf8 r k (acc * 64 + (b - 128))%N
      end
  end.

Definition u (s : string) : ustring :=
  utf8 (map N_of_ascii (list_ascii_of_string s)) 0 0%N.

Definition c_space : uchar := 32%N.
Definition c_minus : uchar := 45%N.
Definition c_dot : uchar := 46%N.
Definition c_slash : uchar := 47%N.
Definition c_zero : uchar := 48%N.
Definition c_underscore : uchar := 95%N.

Definition in_range (lo hi c : uchar) : bool := ((lo <=? c) && (c <=? hi))%N.

Definition is_digit (c : uchar) : bool := in_range 48%N 57%N c.
Definition is_upper (c : uchar) : bool := in_range 65%N 90%N c.
Definition is_lower (c : uchar) : bool := in_range 97%N 122%N c.

(** The character class [[a-zA-Z0-9_]]. *)
Definition is_word (c : uchar) : bool :=
  is_lower c || is_upper c || is_digit c || (c =? c_underscore)%N.

(** The character class [[a-zA-Z0-9]]. *)
Definition is_alnum (c : uchar) : bool :=
  is_lower c || is_upper c || is_digit c.

(** The character class [[a-z0-9]]. *)
Definition is_lower_alnum (c : uchar) : bool := is_lower c || is_digit c.

(** The tables of CPython's [unicodedata] and [str.lower]. *)
Class UnicodeData := {
  nfkd : ustring -> ustring;
  lower : ustring -> ustring
}.

(** [str.split(sep)] for a one-character separator. *)
Fixpoint split_on (sep : uchar) (s : ustring) : list ustring :=
  match s with
  | [] => [[]]
  | c :: r =>
      if (c =? sep)%N then [] :: split_on sep r
      else match split_on sep r with
           | [] => [[c]]
           | w :: ws => (c :: w) :: ws
           end
  end.

(** [str.rfind(c)]: [None] stands for Python's [-1]. *)
Fixpoint rfind (c : uchar) (s : ustring) : option nat :=
  match s with
  | [] => None
  | x :: r =>
      match rfind c r with
      | Some i => Some (S i)
      | None => if (x =? c)%N then Some O else None
      end
  end.

(** [str.lstrip(c)], [str.rstrip(c)], [str.strip(c)]. *)
Fixpoint lstrip (c : uchar) (s : ustring) : ustring :=
  match s with
  | [] => []
  | x :: r => if (x =? c)%N then lstrip c r else s
  end.

Definition rstrip (c : uchar) (s : ustring) : ustring :=
  rev (lstrip c (rev s)).

Definition strip (c : uchar) (s : ustring) : ustring :=
  rstrip c (lstrip c s).

(** [format(n, 'd')] for a natural number. *)
Definition decimal (n : N) : ustring :=
  map N_of_ascii (list_ascii_of_string (NilZero.string_of_uint (N.to_uint n))).

(** [format(z, '03d')]: sign-aware zero padding to a total width of 3. *)
Definition pad0 (width : nat) (s : ustring) : ustring :=
  repeat c_zero (width - List.length s) ++ s.

Definition fmt03d (z : Z) : ustring :=
  if (z <? 0)%Z then c_minus :: pad0 2 (decimal (Z.abs_N z))
  else pad0 3 (decimal (Z.abs_N z)).

End Text.

(* ------------------------------------------------------------------ *)
(** * pathlib: the final component of a path, its suffix and its stem *)

Module PathLib.
Import Text.

(** [PurePosixPath(s).name]: the last component that is neither empty nor
    [.], or the empty string when there is none. *)
Definition is_component (w : ustring) : bool :=
  negb (ueqb w []) && negb (ueqb w [c_dot]).

Definition name (s : ustring) : ustring :=
  last (filter is_component (split_on c_slash s)) [].

(** [i = name.rfind('.')]; the suffix is [name[i:]] when
    [0 < i < len(name) - 1], the empty string otherwise. *)
Definition suffix_index (n : ustring) : option nat :=
  match rfind c_dot n with
  | Some i => if (0 <? i) && (i <? List.length n - 1) then Some i else None
  | None => None
  end.

Definition suffix (s : ustring) : ustring :=
  let n := name s in
  match suffix_index n with
  | Some i => skipn i n
  | None => []
  end.

Definition stem (s : ustring) : ustring :=
  let n := name s in
  match suffix_index n with
  | Some i => firstn i n
  | None => n
  end.

End PathLib.

(* ------------------------------------------------------------------ *)
(** * normalize_name *)

Module NameNormalizer.
Import Text.

(** [s.replace(' ', '_')] *)
Definition replace_spaces (s : ustring) : ustring :=
  map (fun c => if (c =? c_space)%N then c_underscore else c) s.

(** [re.sub(r'[^a-zA-Z0-9_]', '', s)] *)
Definition remove_non_word (s : ustring) : ustring := filter is_word s.

(** [re.sub(r'_+', '_', s)] *)
Fixpoint collapse_underscores (s : ustring) : ustring :=
  match s with
  | [] => []
  | c :: r =>
      if (c =? c_underscore)%N then
        match r with
        | d :: _ => if (d =? c_underscore)%N then collapse_underscores r
                    else c :: collapse_underscores r
        | [] => [c]
        end
      else c :: collapse_underscores r
  end.

(** The four rewriting steps applied to the NFKD form of the stem. *)
Definition sanitize (s : ustring) : ustring :=
  strip c_underscore (collapse_underscores (remove_non_word (replace_spaces s))).

Section WithTables.
Context {U : UnicodeData}.

Definition clean_stem (raw : ustring) : ustring :=
  sanitize (nfkd (PathLib.stem raw)).

(** [RolandSP404LocalAutomation.normalize_name] (also the macOS and GUI
    classes). *)
Definition normalize_name (raw : ustring) (counter : Z) : ustring :=
  let name_without_ext := PathLib.stem raw in
  let extension := lower (PathLib.suffix raw) in
  let normalized := nfkd name_without_ext in
  let normalized := replace_spaces normalized in
  let normalized := remove_non_word normalized in
  let normalized := collapse_underscores normalized in
  let normalized := strip c_underscore normalized in
  let normalized :=
    match normalized with
    | [] => u "unnamed_" ++ fmt03d counter
    | _ :: _ =>
        if (counter >? 0)%Z then normalized ++ u "_" ++ fmt03d counter
        else normalized
    end in
  normalized ++ extension.

(** The stem part of the result, before the extension is appended. *)
Definition numbered_stem (raw : ustring) (counter : Z) : ustring :=
  match clean_stem raw with
  | [] => u "unnamed_" ++ fmt03d counter
  | _ :: _ =>
      if (counter >? 0)%Z then clean_stem raw ++ u "_" ++ fmt03d counter
      else clean_stem raw
  end.

(** [RolandSP404Automation.normalize_name], the SMB script: no counter. *)
Definition normalize_name_smb (raw : ustring) : ustring :=
  let name_without_ext := PathLib.stem raw in
  let extension := lower (PathLib.suffix raw) in
  let normalized := sanitize (nfkd name_without_ext) in
  let normalized :=
    match normalized with
    | [] => u "unnamed"
    | _ :: _ => normalized
    end in
  normalized ++ extension.

End WithTables.

(** ** The destination naming pattern [^[a-zA-Z0-9_]+(\.[a-z0-9]+)?$] *)

(** Following the spec's words: a non-empty run of [[a-zA-Z0-9_]],
    optionally followed by a dot and a non-empty run of [[a-z0-9]]. *)
Definition NameRe (s : ustring) : Prop :=
  exists w e,
    s = w ++ e /\ w <> [] /\ forallb is_word w = true /\
    (e = [] \/ exists x, e = c_dot :: x /\ x <> [] /\
                         forallb is_lower_alnum x = true).

(** The optional group [(\.[a-z0-9]+)?] alone. *)
Definition ext_ok (e : ustring) : bool :=
  match e with
  | [] => true
  | c :: x =>
      (c =? c_dot)%N &&
      match x with [] => false | _ :: _ => forallb is_lower_alnum x end
  end.

Fixpoint span_word (s : ustring) : ustring * ustring :=
  match s with
  | [] => ([], [])
  | c :: r =>
      if is_word c then let (w, e) := span_word r in (c :: w, e)
      else ([], s)
  end.

(** Executable matcher for the pattern. *)
Definition matches_name_re (s : ustring) : bool :=
  let (w, e) := span_word s in
  match w with [] => false | _ :: _ => ext_ok e end.

End NameNormalizer.

(** Sample rows of the Unicode tables, enough to run the examples:
    Basic Latin is fixed by NFKD; the no-break space decomposes to a
    space; the listed Latin-1 and Cyrillic letters decompose to a base
    letter and a combining mark.  Code points without a row are left
    unchanged. *)
Module UcdSample.
Import Text.

Definition nfkd_char (c : uchar) : ustring :=
  match c with
  | 160 => [32]            (* NO-BREAK SPACE *)
  | 201 => [69; 769]       (* E acute *)
  | 233 => [101; 769]      (* e acute *)
  | 252 => [117; 776]      (* u diaeresis *)
  | 1025 => [1045; 776]    (* CYRILLIC IO *)
  | 1049 => [1048; 774]    (* CYRILLIC SHORT I *)
  | 1081 => [1080; 774]    (* cyrillic short i *)
  | 1105 => [1077; 776]    (* cyrillic io *)
  | _ => [c]
  end%N.

Definition lower_char (c : uchar) : uchar :=
  if is_upper c then (c + 32)%N
  else if in_range 1040%N 1071%N c then (c + 32)%N
  else if in_range 1024%N 1039%N c then (c + 80)%N
  else c.

Definition tables : UnicodeData :=
  {| nfkd := flat_map nfkd_char; lower := map lower_char |}.

End UcdSample.

(* ------------------------------------------------------------------ *)
(** * binary64 arithmetic *)

(** numpy computes on [float64] arrays: the exact result of each
    operation is rounded to the nearest binary64 number, ties going to
    the even significand.  Overflow to infinity is not part of the
    model.  Peak normalisation and quantisation cannot overflow (their
    results are at most 1 and 32767 in magnitude); the channel sum of
    the SMB script could, for samples of magnitude [2 ** 1023] and more,
    which are left out like the infinities. *)
Module Binary64.

(** [2 ** e] *)
Definition pow2 (e : Z) : Q := Qpower 2 e.

(** [floor(log2 |q|)] for a non-zero [q]. *)
Definition ilog2 (q : Q) : Z :=
  let t := (Z.log2 (Z.abs (Qnum q)) - Z.log2 (Zpos (Qden q)))%Z in
  if Qle_bool (pow2 t) (Qabs q) then t else (t - 1)%Z.

(** The exponent of the last place of the binary64 numbers around [q]:
    53 significant bits, and [2 ** -1074] for the subnormal ones. *)
Definition exponent64 (q : Q) : Z := Z.max (ilog2 q - 52) (-1074).

(** To the nearest integer, ties to the even one. *)
Definition nearest_even (q : Q) : Z :=
  let f := Qfloor q in
  match ((q - inject_Z f) ?= 1 # 2)%Q with
  | Lt => f
  | Gt => (f + 1)%Z
  | Eq => if Z.even f then f else (f + 1)%Z
  end.

(** The binary64 number nearest to [q], ties to the even significand. *)
Definition round64 (q : Q) : Q :=
  if (Qnum q =? 0)%Z then 0%Q
  else let e := exponent64 q in
       (inject_Z (nearest_even (q / pow2 e)) * pow2 e)%Q.

End Binary64.

(* ------------------------------------------------------------------ *)
(** * convert_audio_file *)

Module Audio.
Import Text Binary64.

(** A destination path, as the list of its components. *)
Definition path := list ustring.

(** What [sf.read] returns for [data]: a one-dimensional array of [n]
    samples for a mono file, a two-dimensional array of shape
    [(n, channels)] otherwise. *)
Inductive ndarray (A : Type) : Type :=
| Arr1 (xs : list A)
| Arr2 (nch : nat) (rows : list (list A)).

Arguments Arr1 {A} xs.
Arguments Arr2 {A} nch rows.

(** [len(data)] *)
Definition len {A} (a : ndarray A) : nat :=
  match a with
  | Arr1 xs => List.length xs
  | Arr2 _ rows => List.length rows
  end.

(** [1 if data.ndim == 1 else data.shape[1]] *)
Definition channels {A} (a : ndarray A) : nat :=
  match a with
  | Arr1 _ => 1
  | Arr2 nch _ => nch
  end.

(** All the elements, in storage order. *)
Definition elements {A} (a : ndarray A) : list A :=
  match a with
  | Arr1 xs => xs
  | Arr2 _ rows => List.concat rows
  end.

(** Element-wise operations keep the shape. *)
Definition amap {A B} (f : A -> B) (a : ndarray A) : ndarray B :=
  match a with
  | Arr1 xs => Arr1 (map f xs)
  | Arr2 nch rows => Arr2 nch (map (map f) rows)
  end.

(** Both arrays are one-dimensional, or both have the same number of
    columns. *)
Definition same_layout {A B} (a : ndarray A) (b : ndarray B) : Prop :=
  match a, b with
  | Arr1 _, Arr1 _ => True
  | Arr2 n _, Arr2 m _ => n = m
  | _, _ => False
  end.

(** The two library calls that the conversion does not implement itself:
    [scipy.signal.resample(data, num, axis=0)], with its documented shape
    (the first axis gets length [num], the others are kept), and
    [sf.write], which succeeds or raises.  [None] stands for a raised
    exception. *)
Class AudioLib := {
  signal_resample : ndarray Q -> Z -> option (ndarray Q);
  sf_write_ok : path -> bool
}.

(** The documented shape of the result of [scipy.signal.resample]. *)
Definition ResampleShape (L : AudioLib) : Prop :=
  forall a num b,
    signal_resample a num = Some b ->
    len b = Z.to_nat num /\ same_layout a b.

Definition supported_sample_rates : list Z := [44100; 48000]%Z.

(** [min(xs, key=key)]: the first element whose key is minimal; raises on
    an empty list. *)
Fixpoint min_from (key : Z -> Z) (best : Z) (xs : list Z) : Z :=
  match xs with
  | [] => best
  | x :: r => if (key x <? key best)%Z then min_from key x r
              else min_from key best r
  end.

Definition py_min (key : Z -> Z) (xs : list Z) : option Z :=
  match xs with
  | [] => None
  | x :: r => Some (min_from key x r)
  end.

Definition select_rate (current_sample_rate : Z) : option Z :=
  py_min (fun x => Z.abs (x - current_sample_rate)) supported_sample_rates.

(** [int(len(data) * target_sample_rate / current_sample_rate)]: the
    product is an exact integer, [/] is true division and [int] truncates
    toward zero.  Division by zero raises.  The quotient is taken
    exactly; the binary64 quotient that Python computes has the same
    integer part for every stream an audio file can hold (see
    [num_samples_binary64]). *)
Definition num_samples (n : nat) (target current : Z) : option Z :=
  if (current =? 0)%Z then None
  else Some (Z.quot (Z.of_nat n * target) current).

(** [np.max(np.abs(data))]; raises on an array without elements. *)
Definition np_max_abs (a : ndarray Q) : option Q :=
  match elements a with
  | [] => None
  | x :: r => Some (fold_left Qmax (map Qabs r) (Qabs x))
  end.

Definition Qpositive (q : Q) : bool := (0 <? Qnum q)%Z.

(** The Python literal [0.95]: the binary64 number nearest to 95/100. *)
Definition headroom : Q := round64 (95 # 100).

(** [data / peak * 0.95] when the peak is positive: a division and a
    multiplication, each rounded to binary64. *)
Definition peak_normalize (peak : Q) (a : ndarray Q) : ndarray Q :=
  if Qpositive peak
  then amap (fun x => round64 (round64 (x / peak) * headroom)) a
  else a.

(** Conversion of a float to an integer type truncates toward zero. *)
Definition Qtrunc (q : Q) : Z := Z.quot (Qnum q) (Zpos (Qden q)).

(** Two's-complement reduction to 16 bits; it is the identity on
    [-32768 .. 32767], the only values that reach it (see
    [quantize_unit]). *)
Definition wrap16 (z : Z) : Z := ((z + 32768) mod 65536 - 32768)%Z.

(** [(x * 32767).astype(np.int16)] for one element: the product is a
    binary64 number, the conversion drops its fractional part. *)
Definition quantize (x : Q) : Z :=
  wrap16 (Qtrunc (round64 (x * (32767 # 1)))%Q).

(** The resampling block of [convert_audio_file]. *)
Definition resample_step `{AudioLib} (data : ndarray Q)
           (current target : Z) : option (ndarray Q) :=
  if (current =? target)%Z then Some data
  else match num_samples (len data) target current with
       | None => None
       | Some num => signal_resample data num
       end.

(** What [sf.write] receives. *)
Record wav_output := {
  pcm : ndarray Z;
  out_rate : Z
}.

(** The value of [sf.read(input_path)]: samples and sample rate.  The
    samples are finite numbers; a file that holds a NaN or an infinity is
    not described. *)
Definition decoded := (ndarray Q * Z)%type.

Section Convert.
Context `{AudioLib}.

(** [RolandSP404LocalAutomation.convert_audio_file] (also the macOS and
    GUI classes).  [input] is the outcome of [sf.read] ([None] when it
    raises).  [Some w] means that [w] was written to [output_path] and
    [True] returned; [None] means that an exception was caught and
    [False] returned. *)
Definition convert_audio_file (input : option decoded)
           (output_path : path) : option wav_output :=
  match input with
  | None => None
  | Some (data, sample_rate) =>
      match select_rate sample_rate with
      | None => None
      | Some target_sample_rate =>
          match resample_step data sample_rate target_sample_rate with
          | None => None
          | Some data =>
              match np_max_abs data with
              | None => None
              | Some peak =>
                  let data := peak_normalize peak data in
                  let data_16bit := amap quantize data in
                  if sf_write_ok output_path
                  then Some {| pcm := data_16bit;
                               out_rate := target_sample_rate |}
                  else None
              end
          end
      end
  end.

(** [np.mean(data, axis=1)]: the sum of each frame divided by the number
    of channels.  numpy starts from the first channel and adds to it the
    running sum of the others (taken one after the other for the up to
    eight channels of an audio file); every addition and the division
    are rounded.  It raises on a one-dimensional array. *)
Definition Qsum (xs : list Q) : Q :=
  match xs with
  | [] => 0%Q
  | x :: r => round64 (x + fold_left (fun s y => round64 (s + y)) r 0%Q)
  end.

Definition mean_rows (a : ndarray Q) : option (ndarray Q) :=
  match a with
  | Arr1 _ => None
  | Arr2 nch rows =>
      Some (Arr1 (map (fun r => round64 (Qsum r / inject_Z (Z.of_nat nch)))
                      rows))
  end.

(** [RolandSP404Automation.convert_audio_file], the SMB script: as above,
    with a down-mix to mono between resampling and peak normalisation. *)
Definition convert_audio_file_smb (input : option decoded)
           (output_path : path) : option wav_output :=
  match input with
  | None => None
  | Some (data, sample_rate) =>
      let current_channels := channels data in
      match select_rate sample_rate with
      | None => None
      | Some target_sample_rate =>
          match resample_step data sample_rate target_sample_rate with
          | None => None
          | Some data =>
              match (if 1 <? current_channels then mean_rows data
                     else Some data) with
              | None => None
              | Some data =>
                  match np_max_abs data with
                  | None => None
                  | Some peak =>
                      let data := peak_normalize peak data in
                      let data_16bit := amap quantize data in
                      if sf_write_ok output_path
                      then Some {| pcm := data_16bit;
                                   out_rate := target_sample_rate |}
                      else None
                  end
              end
          end
      end
  end.

End Convert.

(** ** The quantisation rule of the specification *)

(** Following the spec's words: [round(sample * 32767)], to the nearest
    integer with ties to even as Python's [round] does, clamped to the
    signed 16-bit range. *)
Definition round_half_even (q : Q) : Z :=
  let f := Qfloor q in
  let r := (q - inject_Z f)%Q in
  match (r ?= 1 # 2)%Q with
  | Lt => f
  | Gt => (f + 1)%Z
  | Eq => if Z.even f then f else (f + 1)%Z
  end.

Definition clamp16 (z : Z) : Z := Z.max (-32768) (Z.min 32767 z).

Definition spec_quantize (s : Q) : Z :=
  clamp16 (round_half_even (s * (32767 # 1))%Q).

(** Following the spec's words: [round(n * r_t / r_in)]. *)
Definition spec_num_samples (n : nat) (target current : Z) : Z :=
  round_half_even (inject_Z (Z.of_nat n * target) / inject_Z current)%Q.

(** A resampler with the shape of [scipy.signal.resample], used to run
    the examples: sample-and-hold on the first axis.  It raises when
    asked for no sample or given none. *)
Module SampleLib.

Definition hold {A} (d : A) (xs : list A) (num : nat) : list A :=
  map (fun i => nth (i * List.length xs / num) xs d) (seq 0 num).

Definition resample_hold (a : ndarray Q) (num : Z) : option (ndarray Q) :=
  if ((num <=? 0)%Z || (len a =? 0))%bool then None
  else match a with
       | Arr1 xs => Some (Arr1 (hold 0%Q xs (Z.to_nat num)))
       | Arr2 nch rows => Some (Arr2 nch (hold [] rows (Z.to_nat num)))
       end.

Definition lib (writable : path -> bool) : AudioLib :=
  {| signal_resample := resample_hold; sf_write_ok := writable |}.

End SampleLib.

End Audio.

(* ------------------------------------------------------------------ *)
(** * process_directory *)

Module TreeMirror.
Import Text NameNormalizer Audio.

(** An entry of the source tree, as [Path.iterdir] yields it: a regular
    file with the outcome of decoding it, a directory with the outcome of
    listing it ([None]: [iterdir] raises, for instance [PermissionError]),
    an entry that is neither, or an entry on which [is_file()] or
    [is_dir()] itself raises (an entry that may not be examined, for
    instance in a directory that can be listed but not searched). *)
Inductive node : Type :=
| File (name : ustring) (content : option decoded)
| Dir (name : ustring) (listing : option (list node))
| Special (name : ustring)
| Inaccessible (name : ustring).

(** The observable effects, in program order.  [Mkdir target] is a call
    [target.mkdir(parents=True, exist_ok=True)] that returned: the
    directory [target] exists afterwards, together with those of its
    ancestors that were missing. *)
Inductive event : Type :=
| Mkdir (target : path)
| Written (output_file : path) (w : wav_output)
| LogProcessed (name normalized_name : ustring)
| LogConvertError (name : ustring)
| LogSkipped (name : ustring)
| LogDirectoryError (target : path).

(** Control leaves a call normally or by an exception. *)
Inductive flow : Type := Normal | Raised.

(** [target_path.mkdir(parents=True, exist_ok=True)] succeeds or raises. *)
Class TargetFs := { mkdir_ok : path -> bool }.

Section Mirror.
Context {U : UnicodeData} `{AudioLib} {F : TargetFs}.

(** [item.suffix.lower() == '.wav'] *)
Definition is_wav (name : ustring) : bool :=
  ueqb (lower (PathLib.suffix name)) (u ".wav").

(** The [item.is_file()] branch of the loop body. *)
Definition process_file (target_path : path) (file_counter : Z)
           (name : ustring) (content : option decoded) : Z * list event :=
  if is_wav name then
    let normalized_name := normalize_name name file_counter in
    let output_file := target_path ++ [normalized_name] in
    match convert_audio_file content output_file with
    | Some w =>
        ((file_counter + 1)%Z,
         [Written output_file w; LogProcessed name normalized_name])
    | None => (file_counter, [LogConvertError name])
    end
  else (file_counter, [LogSkipped name]).

(** The body of [process_directory] after the recursive calls have been
    given a meaning: [loop] runs the [for] statement from a counter. *)
Definition directory_body (target_path : path)
           (listing : option (list node))
           (loop : Z -> list node -> Z * list event * flow)
  : list event * flow :=
  if mkdir_ok target_path then
    match listing with
    | None => ([Mkdir target_path; LogDirectoryError target_path], Normal)
    | Some items =>
        let file_counter := 0%Z in
        match loop file_counter items with
        | (_, evs, Normal) => (Mkdir target_path :: evs, Normal)
        | (_, evs, Raised) =>
            (Mkdir target_path :: evs ++ [LogDirectoryError target_path],
             Normal)
        end
    end
  else ([], Raised).

(** One iteration of the [for] statement, given the meaning [body] of the
    loop body; an exception ends the loop. *)
Definition loop_step (body : Z -> node -> Z * list event * flow)
           (rest : Z -> Z * list event * flow)
           (file_counter : Z) (item : node) : Z * list event * flow :=
  match body file_counter item with
  | (c, evs, Normal) =>
      match rest c with
      | (c', evs', fl) => (c', evs ++ evs', fl)
      end
  | (c, evs, Raised) => (c, evs, Raised)
  end.

(** One entry of a listing, processed with the current counter: the new
    counter, the effects and how control leaves. *)
Fixpoint process_item (target_path : path) (file_counter : Z)
         (item : node) {struct item} : Z * list event * flow :=
  match item with
  | File name content =>
      let (c, evs) := process_file target_path file_counter name content in
      (c, evs, Normal)
  | Dir name listing =>
      let normalized_folder_name := normalize_name name 0 in
      let normalized_folder := target_path ++ [normalized_folder_name] in
      let (evs, fl) :=
        directory_body normalized_folder listing
          (fix loop (c : Z) (items : list node) {struct items} :=
             match items with
             | [] => (c, [], Normal)
             | i :: r =>
                 loop_step (process_item normalized_folder)
                           (fun c' => loop c' r) c i
             end) in
      (file_counter, evs, fl)
  | Special _ => (file_counter, [], Normal)
  | Inaccessible _ => (file_counter, [], Raised)
  end.

(** The [for item in items] statement of [process_directory]. *)
Fixpoint process_items (target_path : path) (file_counter : Z)
         (items : list node) : Z * list event * flow :=
  match items with
  | [] => (file_counter, [], Normal)
  | i :: r =>
      loop_step (process_item target_path)
                (fun c' => process_items target_path c' r) file_counter i
  end.

(** [RolandSP404LocalAutomation.process_directory] on a directory whose
    listing is [listing]. *)
Definition process_directory (target_path : path)
           (listing : option (list node)) : list event * flow :=
  directory_body target_path listing (process_items target_path).

(** The paths written by a run, in order. *)
Definition written_paths (evs : list event) : list path :=
  flat_map (fun e => match e with Written p _ => [p] | _ => [] end) evs.

(** How many files a run wrote directly into [target_path]. *)
Definition in_directory (target_path : path) (p : path) : bool :=
  if list_eq_dec (list_eq_dec N.eq_dec) (removelast p) target_path
  then true else false.

Definition direct_writes (target_path : path) (evs : list event) : nat :=
  List.length (filter (in_directory target_path) (written_paths evs)).

End Mirror.

End TreeMirror.

(* ------------------------------------------------------------------ *)
(** * Shapes of normalised names *)

Module NameShape.
Import Text.

(** No two underscores in a row. *)
Fixpoint no_double_underscore (s : ustring) : bool :=
  match s with
  | [] => true
  | c :: r =>
      negb ((c =? c_underscore)%N && (hd 0%N r =? c_underscore)%N)
      && no_double_underscore r
  end.

(** Neither the first nor the last character is an underscore. *)
Definition trimmed (s : ustring) : bool :=
  negb (hd 0%N s =? c_underscore)%N && negb (last s 0%N =? c_underscore)%N.

(** The number written by a run of decimal digits. *)
Definition digit_step (acc c : N) : N := (acc * 10 + (c - c_zero))%N.

Definition digits_value (s : ustring) : N := fold_left digit_step s 0%N.

(** A stem as [normalize_name] leaves it: non-empty, made of word
    characters, trimmed, without doubled underscores. *)
Definition clean_form (w : ustring) : bool :=
  match w with [] => false | _ :: _ => true end
  && forallb is_word w && trimmed w && no_double_underscore w.

End NameShape.

(* ------------------------------------------------------------------ *)
(** * run_automation *)

Module Runner.
Import Text Audio TreeMirror.

(** What [Path(source_path)] is found to be: [exists()] answers
    [False]; [exists()] answers [True] and [is_dir()] [False]; both
    answer [True]; or one of the two calls raises (for instance
    [PermissionError] under a directory that may not be searched). *)
Inductive source : Type :=
| Missing
| NotADirectory
| Directory (listing : option (list node))
| Unreachable.

Section Run.
Context {U : UnicodeData} `{AudioLib} {F : TargetFs}.

(** [RolandSP404LocalAutomation.run_automation]: the returned flag and
    the effects on the destination. *)
Definition run_automation (src : source) (sd_card_path : path)
  : bool * list event :=
  match src with
  | Missing => (false, [])
  | NotADirectory => (false, [])
  | Directory listing =>
      if mkdir_ok sd_card_path then
        match process_directory sd_card_path listing with
        | (evs, Normal) => (true, Mkdir sd_card_path :: evs)
        | (evs, Raised) => (false, Mkdir sd_card_path :: evs)
        end
      else (false, [])
  | Unreachable => (false, [])
  end.

End Run.

End Runner.

(* ------------------------------------------------------------------ *)
(** * The SMB script: listing, traversal and run *)

Module SmbMirror.
Import Text NameNormalizer Audio TreeMirror.

(** An entry of [conn.listPath]: a file with the outcome of downloading
    it ([None]: [download_smb_file] returns [False]) and then of decoding
    the temporary copy, or a directory with the outcome of listing it
    ([None]: [listPath] raises). *)
Inductive smb_entry : Type :=
| SmbFile (filename : ustring) (download : option (option decoded))
| SmbDir (filename : ustring) (listing : option (list smb_entry)).

Definition filename_of (e : smb_entry) : ustring :=
  match e with
  | SmbFile n _ => n
  | SmbDir n _ => n
  end.

(** The observable effects of the SMB script, in program order. *)
Inductive smb_event : Type :=
| SmbConnected
| SmbDisconnected
| SmbTempCleared
| SmbMkdir (target : path)
| SmbWritten (output_file : path) (w : wav_output)
| SmbLogProcessed (name normalized_name : ustring)
| SmbLogConvertError (name : ustring)
| SmbLogDownloadError (name : ustring)
| SmbLogSkipped (name : ustring)
| SmbLogListError.

(** [file_info.filename not in ['.', '..']] *)
Definition is_pseudo (n : ustring) : bool :=
  ueqb n [c_dot] || ueqb n [c_dot; c_dot].

(** [get_smb_file_list]: the entries other than [.] and [..]; an empty
    list and an error in the log when the listing raises. *)
Definition get_smb_file_list (listing : option (list smb_entry))
  : list smb_entry * list smb_event :=
  match listing with
  | None => ([], [SmbLogListError])
  | Some l => (filter (fun e => negb (is_pseudo (filename_of e))) l, [])
  end.

(** [s.endswith(suffix)] *)
Definition ends_with (s suffix : ustring) : bool :=
  (List.length suffix <=? List.length s)
  && ueqb (skipn (List.length s - List.length suffix) s) suffix.

Section Smb.
Context {U : UnicodeData} `{AudioLib} {F : TargetFs}.

(** [name.lower().endswith('.wav')] *)
Definition is_wav_smb (name : ustring) : bool :=
  ends_with (lower name) (u ".wav").

(** The [is_file] branch of the loop body. *)
Definition smb_process_file (sd_card_path : path) (name : ustring)
           (download : option (option decoded)) : list smb_event :=
  let normalized_name := normalize_name_smb name in
  if is_wav_smb name then
    match download with
    | Some content =>
        let output_file := sd_card_path ++ [normalized_name] in
        match convert_audio_file_smb content output_file with
        | Some w => [SmbWritten output_file w;
                     SmbLogProcessed name normalized_name]
        | None => [SmbLogConvertError name]
        end
    | None => [SmbLogDownloadError name]
    end
  else [SmbLogSkipped name].

(** One iteration of the [for] statement; nothing catches an exception
    here, so it ends the loop and leaves the call. *)
Definition smb_loop_step (body : smb_entry -> list smb_event * flow)
           (rest : list smb_event * flow) (item : smb_entry)
  : list smb_event * flow :=
  match body item with
  | (evs, Normal) => let (evs', fl) := rest in (evs ++ evs', fl)
  | (evs, Raised) => (evs, Raised)
  end.

(** One entry of a listing.  For a directory the loop of the recursive
    call is written over the raw listing and passes over [.] and [..],
    which is what iterating over [get_smb_file_list] does (see
    [smb_process_entry_dir]). *)
Fixpoint smb_process_entry (sd_card_path : path) (item : smb_entry)
         {struct item} : list smb_event * flow :=
  match item with
  | SmbFile name download =>
      (smb_process_file sd_card_path name download, Normal)
  | SmbDir name listing =>
      let normalized_folder := sd_card_path ++ [normalize_name_smb name] in
      if mkdir_ok normalized_folder then
        let (evs, fl) :=
          match listing with
          | None => ([SmbLogListError], Normal)
          | Some l =>
              (fix loop (items : list smb_entry) {struct items} :=
                 match items with
                 | [] => ([], Normal)
                 | i :: r =>
                     if is_pseudo (filename_of i) then loop r
                     else smb_loop_step (smb_process_entry normalized_folder)
                                        (loop r) i
                 end) l
          end in
        (SmbMkdir normalized_folder :: evs, fl)
      else ([], Raised)
  end.

(** The [for name, is_file in items] statement. *)
Fixpoint smb_process_items (sd_card_path : path) (items : list smb_entry)
  : list smb_event * flow :=
  match items with
  | [] => ([], Normal)
  | i :: r =>
      smb_loop_step (smb_process_entry sd_card_path)
                    (smb_process_items sd_card_path r) i
  end.

(** [RolandSP404Automation.process_directory] on a remote directory whose
    listing is [listing]. *)
Definition process_directory_smb (sd_card_path : path)
           (listing : option (list smb_entry)) : list smb_event * flow :=
  let (items, log) := get_smb_file_list listing in
  let (evs, fl) := smb_process_items sd_card_path items in
  (log ++ evs, fl).

(** [RolandSP404Automation.run_automation].  [connect_ok] is the outcome
    of [connect_smb]; [temp_exists] tells whether the temporary directory
    was there before the run. *)
Definition run_automation_smb (connect_ok temp_exists : bool)
           (listing : option (list smb_entry)) (sd_card_path : path)
  : bool * list smb_event :=
  if connect_ok then
    if mkdir_ok sd_card_path then
      let (evs, fl) := process_directory_smb sd_card_path listing in
      (match fl with Normal => true | Raised => false end,
       SmbConnected :: SmbMkdir sd_card_path :: evs
         ++ [SmbDisconnected; SmbTempCleared])
    else
      (false,
       SmbConnected :: SmbDisconnected
         :: (if temp_exists then [SmbTempCleared] else []))
  else (false, []).

(** The output files of a run, in order. *)
Definition smb_written_paths (evs : list smb_event) : list path :=
  flat_map (fun e => match e with SmbWritten p _ => [p] | _ => [] end) evs.

End Smb.

End SmbMirror.

(* ------------------------------------------------------------------ *)
(** * Paths touched by a run *)

Module MirrorShape.
Import Text Audio TreeMirror SmbMirror.

(** The paths handed to [mkdir] and the files written, in order. *)
Definition touched_paths (evs : list event) : list path :=
  flat_map (fun e => match e with
                     | Mkdir p => [p]
                     | Written p _ => [p]
                     | _ => []
                     end) evs.

(** [p] lies at or below [root]. *)
Definition below (root p : path) : Prop := exists rest, p = root ++ rest.

(** A file name of the destination: a name of the pattern that ends in
    [.wav]. *)
Definition wav_name (n : ustring) : Prop :=
  NameNormalizer.NameRe n /\ exists s, n = s ++ u ".wav".

(** The events of the SMB script that concern the session and the
    temporary directory. *)
Definition is_session_event (e : smb_event) : bool :=
  match e with
  | SmbConnected | SmbDisconnected | SmbTempCleared => true
  | _ => false
  end.

End MirrorShape.

(* ------------------------------------------------------------------ *)
(** * Concrete environments and inputs for the examples *)

Module Fixtures.
Import Text Audio TreeMirror.

Definition tables : UnicodeData := UcdSample.tables.

(** Every write succeeds, every directory can be created. *)
Definition lib : AudioLib := SampleLib.lib (fun _ => true).
Definition fs : TargetFs := {| mkdir_ok := fun _ => true |}.

(** [a<TAB>b] *)
Definition a_tab_b : ustring := [97; 9; 98]%N.

(** One full-scale sample, mono, 44.1 kHz. *)
Definition full_scale : decoded := (Arr1 [1%Q], 44100%Z).

(** Three mono samples at 50 kHz, to be resampled to 48 kHz. *)
Definition three_at_50k : decoded := (Arr1 [1%Q; 0%Q; (-1 # 2)%Q], 50000%Z).

(** Two stereo frames at 48 kHz. *)
Definition stereo : decoded :=
  (Arr2 2 [[1%Q; 0%Q]; [0%Q; (-1 # 2)%Q]], 48000%Z).

(** Silence: two mono samples at 44.1 kHz, four stereo frames at 96 kHz,
    and a stream without any frame. *)
Definition silence : decoded := (Arr1 [0%Q; 0%Q], 44100%Z).
Definition silence_96k : decoded :=
  (Arr2 2 [[0%Q; 0%Q]; [0%Q; 0%Q]; [0%Q; 0%Q]; [0%Q; 0%Q]], 96000%Z).
Definition no_frames : decoded := (Arr1 [], 44100%Z).

(** A short mono file at 44.1 kHz and what its conversion writes. *)
Definition tone : decoded := (Arr1 [1%Q; (-1 # 2)%Q], 44100%Z).
Definition tone_out : wav_output :=
  {| pcm := Arr1 [31128%Z; (-15564)%Z]; out_rate := 44100%Z |}.

(** The destination root and a few file names. *)
Definition import : path := [u "IMPORT"].
Definition kick : ustring := u "kick.wav".
Definition snare : ustring := u "snare.wav".
Definition broken : ustring := u "broken.wav".

(** What the conversion of [three_at_50k] writes with [lib]. *)
Definition two_at_48k : wav_output :=
  {| pcm := Arr1 [31128%Z; 0%Z]; out_rate := 48000%Z |}.

(** A destination where the directory [IMPORT/Locked] cannot be
    created. *)
Definition fs_locked : TargetFs :=
  {| mkdir_ok := fun p => negb (if list_eq_dec (list_eq_dec N.eq_dec) p
                                      [u "IMPORT"; u "Locked"]
                                then true else false) |}.

End Fixtures.

(* ================================================================== *)
(** * Properties of name normalisation *)

Module NameFacts.
Import Text NameNormalizer.

Lemma forallb_repeat {A} (P : A -> bool) (x : A) (n : nat) :
  P x = true -> forallb P (repeat x n) = true.
Proof. intros Hx. induction n; simpl; [reflexivity | now rewrite Hx]. Qed.

Lemma is_digit_word c : is_digit c = true -> is_word c = true.
Proof.
  unfold is_word. intros ->. now rewrite !orb_true_r.
Qed.

(** ** Decimal formatting *)

Lemma uint_digits (d : Decimal.uint) :
  forallb is_digit
    (map N_of_ascii (list_ascii_of_string (NilEmpty.string_of_uint d))) = true.
Proof. induction d; simpl; auto. Qed.

Lemma decimal_digits (n : N) : forallb is_digit (decimal n) = true.
Proof.
  unfold decimal, NilZero.string_of_uint.
  destruct (N.to_uint n) eqn:E; try reflexivity;
    rewrite <- E; apply uint_digits.
Qed.

Lemma fmt03d_word (z : Z) :
  (0 <= z)%Z -> forallb is_word (fmt03d z) = true.
Proof.
  intros Hz. unfold fmt03d.
  destruct (Z.ltb_spec z 0); [lia|].
  unfold pad0. rewrite forallb_app.
  rewrite forallb_repeat by reflexivity. simpl.
  apply forallb_forall. intros x Hx.
  apply is_digit_word.
  pose proof (decimal_digits (Z.abs_N z)) as Hd.
  rewrite forallb_forall in Hd. auto.
Qed.

(** ** The rewriting steps only ever produce word characters *)

Lemma lstrip_incl c s x : In x (lstrip c s) -> In x s.
Proof.
  induction s as [|y r IH]; simpl; auto.
  destruct (y =? c)%N; simpl; auto.
Qed.

Lemma strip_incl c s x : In x (strip c s) -> In x s.
Proof.
  unfold strip, rstrip. intros Hx.
  apply in_rev in Hx. apply lstrip_incl in Hx.
  apply in_rev in Hx. now apply lstrip_incl in Hx.
Qed.

Lemma collapse_cons c r :
  collapse_underscores (c :: r) =
  if (c =? c_underscore)%N then
    match r with
    | d :: _ => if (d =? c_underscore)%N then collapse_underscores r
                else c :: collapse_underscores r
    | [] => [c]
    end
  else c :: collapse_underscores r.
Proof. reflexivity. Qed.

Lemma collapse_incl s x : In x (collapse_underscores s) -> In x s.
Proof.
  induction s as [|c r IH]; [auto|].
  rewrite collapse_cons. intros Hx.
  assert (Hstep : In x (c :: collapse_underscores r) -> In x (c :: r)).
  { intros Hi. apply in_inv in Hi as [->|Hi]; [now left | right; auto]. }
  destruct (c =? c_underscore)%N; [|auto].
  destruct r as [|d r']; [exact Hx|].
  destruct (d =? c_underscore)%N; [right|]; auto.
Qed.

Lemma sanitize_word s : forallb is_word (sanitize s) = true.
Proof.
  unfold sanitize, remove_non_word.
  apply forallb_forall. intros x Hx.
  apply strip_incl, collapse_incl in Hx.
  apply filter_In in Hx. tauto.
Qed.

(** ** The pattern and its matcher *)

Lemma ext_ok_spec e :
  ext_ok e = true <->
  (e = [] \/ exists x, e = c_dot :: x /\ x <> [] /\
                       forallb is_lower_alnum x = true).
Proof.
  unfold ext_ok. split.
  - destruct e as [|c x]; auto. intros He.
    apply andb_true_iff in He as [Hc Hx].
    apply N.eqb_eq in Hc. subst c. right. exists x.
    destruct x; [discriminate|]. repeat split; auto. discriminate.
  - intros [->|(x & -> & Hne & Hx)]; auto.
    rewrite N.eqb_refl. simpl. destruct x; [congruence | exact Hx].
Qed.

Lemma span_word_app w e :
  forallb is_word w = true ->
  match e with [] => True | c :: _ => is_word c = false end ->
  span_word (w ++ e) = (w, e).
Proof.
  intros Hw He. induction w as [|c w IH]; simpl in *.
  - destruct e as [|c r]; auto. simpl. now rewrite He.
  - apply andb_true_iff in Hw as [Hc Hw]. rewrite Hc, (IH Hw). reflexivity.
Qed.

Lemma span_word_inv s w e :
  span_word s = (w, e) -> s = w ++ e /\ forallb is_word w = true.
Proof.
  revert w e. induction s as [|c r IH]; simpl; intros w e.
  - intros [= <- <-]. auto.
  - destruct (is_word c) eqn:Hc.
    + destruct (span_word r) as [w' e'] eqn:Hr. intros [= <- <-].
      destruct (IH _ _ eq_refl) as [-> Hw]. simpl. rewrite Hc. auto.
    + intros [= <- <-]. auto.
Qed.

(** The matcher decides the pattern. *)
Lemma matches_name_re_spec s : matches_name_re s = true <-> NameRe s.
Proof.
  unfold matches_name_re, NameRe. split.
  - destruct (span_word s) as [w e] eqn:Hs.
    apply span_word_inv in Hs as [-> Hw].
    destruct w as [|c w]; [discriminate|]. intros He.
    exists (c :: w), e. repeat split; auto; try discriminate.
    now apply ext_ok_spec.
  - intros (w & e & -> & Hne & Hw & He).
    rewrite span_word_app; auto.
    + destruct w; [congruence|]. now apply ext_ok_spec.
    + destruct He as [->|(x & -> & _)]; auto.
Qed.

Section WithTables.
Context {U : UnicodeData}.

Lemma normalize_name_split raw counter :
  normalize_name raw counter =
  numbered_stem raw counter ++ lower (PathLib.suffix raw).
Proof. reflexivity. Qed.

Lemma numbered_stem_nonempty raw counter : numbered_stem raw counter <> [].
Proof.
  unfold numbered_stem. destruct (clean_stem raw) as [|x r]; [discriminate|].
  destruct (counter >? 0)%Z; discriminate.
Qed.

Lemma numbered_stem_word raw counter :
  (0 <= counter)%Z -> forallb is_word (numbered_stem raw counter) = true.
Proof.
  intros Hc. unfold numbered_stem.
  pose proof (sanitize_word (nfkd (PathLib.stem raw))) as Hs.
  fold (clean_stem raw) in Hs.
  destruct (clean_stem raw) as [|x r] eqn:E.
  - rewrite forallb_app, fmt03d_word by assumption. reflexivity.
  - destruct (counter >? 0)%Z; [|exact Hs].
    rewrite !forallb_app, Hs, fmt03d_word by assumption. reflexivity.
Qed.

End WithTables.

(** ** C1 *)

(** What [normalize_name] does ensure: the result is never empty; with a
    counter that is not negative (the loop counter of
    [process_directory], or the default 0) the part before the extension
    is a non-empty run of characters of [[a-zA-Z0-9_]]; and the whole
    result matches [^[a-zA-Z0-9_]+(\.[a-z0-9]+)?$] for every name whose
    lower-cased [pathlib] suffix is empty or a dot followed by characters
    of [[a-z0-9]]. *)
Lemma normalize_name_stem_pattern {U : UnicodeData}
      (raw : ustring) (counter : Z) :
  normalize_name raw counter <> [] /\
  ((0 <= counter)%Z ->
   exists s,
     normalize_name raw counter = s ++ lower (PathLib.suffix raw) /\
     s <> [] /\ forallb is_word s = true /\
     (ext_ok (lower (PathLib.suffix raw)) = true ->
      NameRe (normalize_name raw counter))).
Proof.
  rewrite normalize_name_split. split.
  - intros Happ. apply app_eq_nil in Happ as [Hs _].
    now apply (numbered_stem_nonempty raw counter).
  - intros Hc. exists (numbered_stem raw counter).
    pose proof (numbered_stem_nonempty raw counter) as Hne.
    pose proof (numbered_stem_word raw Hc) as Hw.
    repeat split; auto.
    intros He. exists (numbered_stem raw counter), (lower (PathLib.suffix raw)).
    repeat split; auto. now apply ext_ok_spec.
Qed.

Example normalize_name_stem_pattern_example :
  normalize_name (U := Fixtures.tables) (u "File with spaces.WAV") 1
    = u "File_with_spaces_001.wav" /\
  NameRe (normalize_name (U := Fixtures.tables) (u "File with spaces.WAV") 1).
Proof.
  split; [reflexivity|].
  apply matches_name_re_spec. reflexivity.
Qed.

(** C1 does not hold of the code, and the code is at fault: the
    docstrings of [normalize_name] and of the module promise names made
    of Latin letters, digits and underscores only, but the function
    cleans the stem alone.  The suffix that [pathlib] splits off is
    lower-cased and appended as it is.  The directory name [Vol. 2] has
    the suffix [. 2]; [normalize_name], called with the default counter
    0 as [process_directory] does for a directory, returns it unchanged,
    space included, which does not match the pattern, and
    [process_directory] creates the destination directory under that
    name. *)
Theorem normalize_name_suffix_unfiltered :
  PathLib.suffix (u "Vol. 2") = u ". 2" /\
  normalize_name (U := Fixtures.tables) (u "Vol. 2") 0 = u "Vol. 2" /\
  ~ NameRe (normalize_name (U := Fixtures.tables) (u "Vol. 2") 0) /\
  TreeMirror.process_directory (U := Fixtures.tables) (H := Fixtures.lib)
    (F := Fixtures.fs) Fixtures.import
    (Some [TreeMirror.Dir (u "Vol. 2") (Some [])])
  = ([TreeMirror.Mkdir [u "IMPORT"];
      TreeMirror.Mkdir [u "IMPORT"; u "Vol. 2"]],
     TreeMirror.Normal).
Proof.
  split; [reflexivity|]. split; [reflexivity|]. split; [|reflexivity].
  intros Hre. apply matches_name_re_spec in Hre.
  vm_compute in Hre. discriminate.
Qed.

(** ** C2 *)

(** C2, as amended: when the stem is empty after NFKD decomposition,
    space replacement, charset filtering, underscore collapsing and
    trimming, [normalize_name] returns [unnamed_] followed by the counter
    in three digits and the lower-cased suffix; with counter 0 that is
    [unnamed_000] plus the suffix. *)
Theorem normalize_name_empty_stem {U : UnicodeData} (raw : ustring) (counter : Z) :
  clean_stem raw = [] ->
  normalize_name raw counter
    = u "unnamed_" ++ fmt03d counter ++ lower (PathLib.suffix raw) /\
  normalize_name raw 0 = u "unnamed_000" ++ lower (PathLib.suffix raw).
Proof.
  intros He. rewrite !normalize_name_split. unfold numbered_stem.
  rewrite He. split; [now rewrite <- app_assoc | reflexivity].
Qed.

Lemma normalize_name_empty_stem_witness :
  clean_stem (U := Fixtures.tables) (u "Кириллица_файл.wav") = [] /\
  normalize_name (U := Fixtures.tables) (u "Кириллица_файл.wav") 0
    = u "unnamed_000.wav".
Proof.
  split; [reflexivity|].
  apply (normalize_name_empty_stem (U := Fixtures.tables)
           (u "Кириллица_файл.wav") 0).
  reflexivity.
Defined.

(** The SMB script, which has no counter, is where the bare fallback
    [unnamed] comes from. *)
Lemma normalize_name_smb_empty_stem {U : UnicodeData} (raw : ustring) :
  clean_stem raw = [] ->
  normalize_name_smb raw = u "unnamed" ++ lower (PathLib.suffix raw).
Proof.
  unfold normalize_name_smb, clean_stem. now intros ->.
Qed.

(** C2 fails as stated: the fallback carries the counter even when it is
    0. *)
Lemma normalize_name_empty_stem_counterexample :
  clean_stem (U := Fixtures.tables) (u "Кириллица_файл.wav") = [] /\
  normalize_name (U := Fixtures.tables) (u "Кириллица_файл.wav") 0
    = u "unnamed_000.wav" /\
  normalize_name (U := Fixtures.tables) (u "Кириллица_файл.wav") 0
    <> u "unnamed.wav".
Proof. repeat split; try reflexivity. vm_compute. discriminate. Qed.

(** ** C6 *)

Lemma is_alnum_facts c :
  is_alnum c = true ->
  is_word c = true /\ c <> c_underscore /\ c <> c_space.
Proof.
  unfold is_word, is_alnum, is_lower, is_upper, is_digit, in_range,
    c_underscore, c_space.
  intros Hc. split; [now rewrite Hc|].
  rewrite !orb_true_iff, !andb_true_iff, !N.leb_le in Hc. lia.
Qed.

Lemma alnum_not_in a c :
  forallb is_alnum a = true -> (c = c_underscore \/ c = c_space) -> ~ In c a.
Proof.
  intros Ha Hc Hin. rewrite forallb_forall in Ha.
  destruct (is_alnum_facts _ (Ha _ Hin)) as (_ & H1 & H2).
  destruct Hc; congruence.
Qed.

Lemma replace_spaces_app a b :
  replace_spaces (a ++ b) = replace_spaces a ++ replace_spaces b.
Proof. apply map_app. Qed.

Lemma replace_spaces_alnum a :
  forallb is_alnum a = true -> replace_spaces a = a.
Proof.
  induction a as [|c a IH]; simpl; [reflexivity|].
  intros H. apply andb_true_iff in H as [Hc Ha].
  destruct (is_alnum_facts _ Hc) as (_ & _ & Hsp).
  apply N.eqb_neq in Hsp. rewrite Hsp, (IH Ha). reflexivity.
Qed.

Lemma remove_non_word_alnum a :
  forallb is_alnum a = true -> remove_non_word a = a.
Proof.
  induction a as [|c a IH]; simpl; [reflexivity|].
  intros H. apply andb_true_iff in H as [Hc Ha].
  destruct (is_alnum_facts _ Hc) as (Hw & _).
  rewrite Hw, (IH Ha). reflexivity.
Qed.

Lemma replace_spaces_repeat k :
  replace_spaces (repeat c_space k) = repeat c_underscore k.
Proof. induction k; simpl; [reflexivity | now rewrite IHk]. Qed.

Lemma remove_non_word_underscores k :
  remove_non_word (repeat c_underscore k) = repeat c_underscore k.
Proof. induction k; simpl; [reflexivity | now rewrite IHk]. Qed.

(** Characters that are neither word characters nor spaces vanish. *)
Lemma remove_other ws :
  forallb (fun c => negb (is_word c) && negb (c =? c_space)%N) ws = true ->
  remove_non_word (replace_spaces ws) = [].
Proof.
  induction ws as [|c ws IH]; simpl; [reflexivity|].
  intros H. apply andb_true_iff in H as [Hc Hws].
  apply andb_true_iff in Hc as [Hw Hsp].
  apply negb_true_iff in Hw, Hsp. rewrite Hsp, Hw. auto.
Qed.

Lemma collapse_alnum_app a x :
  forallb is_alnum a = true ->
  collapse_underscores (a ++ x) = a ++ collapse_underscores x.
Proof.
  induction a as [|c a IH]; [reflexivity|].
  intros H. simpl in H. apply andb_true_iff in H as [Hc Ha].
  destruct (is_alnum_facts _ Hc) as (_ & Hu & _).
  apply N.eqb_neq in Hu.
  rewrite <- !app_comm_cons, collapse_cons, Hu, (IH Ha). reflexivity.
Qed.

Lemma collapse_alnum a :
  forallb is_alnum a = true -> collapse_underscores a = a.
Proof.
  intros Ha. rewrite <- (app_nil_r a) at 1.
  rewrite collapse_alnum_app by assumption. simpl. apply app_nil_r.
Qed.

Lemma collapse_run k b :
  b <> [] -> forallb is_alnum b = true ->
  collapse_underscores (repeat c_underscore (S k) ++ b) = c_underscore :: b.
Proof.
  intros Hne Hb. induction k as [|k IH].
  - destruct b as [|d b']; [congruence|].
    change (repeat c_underscore 1 ++ d :: b') with (c_underscore :: d :: b').
    rewrite collapse_cons, N.eqb_refl.
    simpl in Hb. apply andb_true_iff in Hb as [Hd Hb'].
    destruct (is_alnum_facts _ Hd) as (_ & Hu & _).
    apply N.eqb_neq in Hu. rewrite Hu. f_equal.
    apply collapse_alnum. simpl. now rewrite Hd.
  - change (repeat c_underscore (S (S k)) ++ b)
      with (c_underscore :: (c_underscore :: repeat c_underscore k ++ b)).
    rewrite collapse_cons, !N.eqb_refl. exact IH.
Qed.

Lemma lstrip_id c s :
  match s with [] => True | x :: _ => x <> c end -> lstrip c s = s.
Proof.
  destruct s as [|x r]; [reflexivity|]. simpl.
  intros Hx. apply N.eqb_neq in Hx. now rewrite Hx.
Qed.

Lemma strip_id c a m b :
  a <> [] -> b <> [] -> ~ In c a -> ~ In c b ->
  strip c (a ++ m ++ b) = a ++ m ++ b.
Proof.
  intros Ha Hb Hca Hcb. unfold strip, rstrip.
  rewrite (lstrip_id c (a ++ m ++ b)).
  - rewrite lstrip_id; [apply rev_involutive|].
    rewrite app_assoc, rev_app_distr.
    destruct (rev b) as [|y r] eqn:E.
    + apply (f_equal (@rev _)) in E. rewrite rev_involutive in E.
      simpl in E. congruence.
    + simpl. intros ->. apply Hcb. apply in_rev. rewrite E. now left.
  - destruct a as [|x a']; [congruence|]. simpl.
    intros ->. apply Hca. now left.
Qed.

Lemma sanitize_spaces a b k :
  a <> [] -> b <> [] ->
  forallb is_alnum a = true -> forallb is_alnum b = true ->
  sanitize (a ++ repeat c_space (S k) ++ b) = a ++ [c_underscore] ++ b.
Proof.
  intros Ha Hb Haa Hab. unfold sanitize.
  rewrite !replace_spaces_app, replace_spaces_repeat,
    !replace_spaces_alnum by assumption.
  unfold remove_non_word at 1. rewrite !filter_app.
  fold (remove_non_word a) (remove_non_word b)
       (remove_non_word (repeat c_underscore (S k))).
  rewrite remove_non_word_underscores, !remove_non_word_alnum by assumption.
  rewrite collapse_alnum_app, collapse_run by assumption.
  change (c_underscore :: b) with ([c_underscore] ++ b).
  apply strip_id; auto; apply alnum_not_in; auto.
Qed.

Lemma sanitize_other a b ws :
  a <> [] -> b <> [] ->
  forallb is_alnum a = true -> forallb is_alnum b = true ->
  forallb (fun c => negb (is_word c) && negb (c =? c_space)%N) ws = true ->
  sanitize (a ++ ws ++ b) = a ++ b.
Proof.
  intros Ha Hb Haa Hab Hws. unfold sanitize.
  rewrite !replace_spaces_app.
  unfold remove_non_word at 1. rewrite !filter_app.
  fold (remove_non_word (replace_spaces a))
       (remove_non_word (replace_spaces b))
       (remove_non_word (replace_spaces ws)).
  rewrite (remove_other ws Hws), !replace_spaces_alnum,
    !remove_non_word_alnum by assumption.
  simpl. rewrite collapse_alnum_app, collapse_alnum by assumption.
  change (a ++ b) with (a ++ [] ++ b).
  apply strip_id; auto; apply alnum_not_in; auto.
Qed.

Lemma numbered_stem_zero {U : UnicodeData} raw :
  clean_stem raw <> [] -> numbered_stem raw 0 = clean_stem raw.
Proof.
  unfold numbered_stem. destruct (clean_stem raw); [congruence | reflexivity].
Qed.

(** C6, as amended: in [normalize_name] only the space character U+0020
    is replaced by an underscore.  Where the NFKD form of the stem is two
    non-empty alphanumeric words separated by a run of spaces, the result
    joins them with a single underscore; where they are separated by
    characters that are neither spaces nor word characters (a tab, a
    newline), the separator is removed by the charset filter and the
    words are joined directly. *)
Theorem normalize_name_whitespace {U : UnicodeData}
        (raw a b ws : ustring) (k : nat) :
  a <> [] -> b <> [] ->
  forallb is_alnum a = true -> forallb is_alnum b = true ->
  forallb (fun c => negb (is_word c) && negb (c =? c_space)%N) ws = true ->
  (nfkd (PathLib.stem raw) = a ++ repeat c_space (S k) ++ b ->
   normalize_name raw 0
     = a ++ [c_underscore] ++ b ++ lower (PathLib.suffix raw)) /\
  (nfkd (PathLib.stem raw) = a ++ ws ++ b ->
   normalize_name raw 0 = a ++ b ++ lower (PathLib.suffix raw)).
Proof.
  intros Ha Hb Haa Hab Hws.
  assert (Hcons : forall s, a ++ s <> []).
  { intros s Hs. apply app_eq_nil in Hs. tauto. }
  split; intros Hn; rewrite normalize_name_split, numbered_stem_zero;
    unfold clean_stem; rewrite Hn.
  - rewrite sanitize_spaces by assumption. now rewrite <- !app_assoc.
  - rewrite sanitize_spaces by assumption. apply Hcons.
  - rewrite sanitize_other by assumption. now rewrite <- !app_assoc.
  - rewrite sanitize_other by assumption. apply Hcons.
Qed.

Lemma normalize_name_whitespace_witness :
  normalize_name (U := Fixtures.tables) (u "a   b.wav") 0 = u "a_b.wav" /\
  normalize_name (U := Fixtures.tables) (Fixtures.a_tab_b ++ u ".wav") 0
    = u "ab.wav".
Proof.
  destruct (@normalize_name_whitespace Fixtures.tables
              (u "a   b.wav") (u "a") (u "b") [] 2) as [Hsp _];
    try reflexivity; try discriminate.
  destruct (@normalize_name_whitespace Fixtures.tables
              (Fixtures.a_tab_b ++ u ".wav") (u "a") (u "b") [9%N] 0)
    as [_ Htab];
    try reflexivity; try discriminate.
  split; [apply Hsp | apply Htab]; reflexivity.
Defined.

(** C6 fails as stated: a tab is not replaced, it is filtered out. *)
Lemma normalize_name_whitespace_counterexample :
  normalize_name (U := Fixtures.tables) Fixtures.a_tab_b 0 = u "ab" /\
  normalize_name (U := Fixtures.tables) Fixtures.a_tab_b 0 <> u "a_b".
Proof. split; [reflexivity | vm_compute; discriminate]. Qed.

End NameFacts.

(* ================================================================== *)
(** * Properties of binary64 rounding *)

Module Binary64Facts.
Import Binary64.

Lemma pow2_pos e : (0 < pow2 e)%Q.
Proof. apply Qpower_0_lt. reflexivity. Qed.

Lemma pow2_nonzero e : ~ (pow2 e == 0)%Q.
Proof.
  intros E. pose proof (pow2_pos e) as H. rewrite E in H.
  now apply Qlt_irrefl in H.
Qed.

Lemma pow2_add a b : (pow2 (a + b) == pow2 a * pow2 b)%Q.
Proof. apply Qpower_plus. discriminate. Qed.

Lemma pow2_le a b : (a <= b)%Z -> (pow2 a <= pow2 b)%Q.
Proof. intros H. apply Qpower_le_compat_l; [exact H | discriminate]. Qed.

Lemma pow2_lt_inv a b : (pow2 a < pow2 b)%Q -> (a < b)%Z.
Proof. intros H. apply Qpower_lt_compat_l_inv in H; [exact H | reflexivity]. Qed.

Lemma pow2_nonneg_exp k : (0 <= k)%Z -> (pow2 k == inject_Z (2 ^ k))%Q.
Proof. intros Hk. unfold pow2. now rewrite Zpower_Qpower. Qed.

Lemma inject_Z_pos z : (0 < z)%Z -> (0 < inject_Z z)%Q.
Proof. unfold Qlt. simpl. lia. Qed.

Lemma inject_Z_le a b : (a <= b)%Z -> (inject_Z a <= inject_Z b)%Q.
Proof. now rewrite <- Zle_Qle. Qed.

Lemma inject_Z_lt a b : (a < b)%Z -> (inject_Z a < inject_Z b)%Q.
Proof. now rewrite <- Zlt_Qlt. Qed.

(** ** The binary logarithm *)

Lemma Qabs_ratio (q : Q) :
  (Qabs q == inject_Z (Z.abs (Qnum q)) / inject_Z (Zpos (Qden q)))%Q.
Proof.
  destruct q as [n d]. unfold Qabs, Qdiv, Qinv, Qmult, inject_Z, Qeq. simpl.
  lia.
Qed.

Lemma ilog2_spec (q : Q) :
  Qnum q <> 0%Z ->
  (pow2 (ilog2 q) <= Qabs q /\ Qabs q < pow2 (ilog2 q + 1))%Q.
Proof.
  intros Hq.
  set (n := Z.abs (Qnum q)). set (d := Zpos (Qden q)).
  assert (Hn : (0 < n)%Z) by (unfold n; lia).
  assert (Hd : (0 < d)%Z) by (unfold d; lia).
  pose proof (Z.log2_spec n Hn) as [Hn1 Hn2].
  pose proof (Z.log2_spec d Hd) as [Hd1 Hd2].
  pose proof (Z.log2_nonneg n) as Ha. pose proof (Z.log2_nonneg d) as Hb.
  set (a := Z.log2 n) in *. set (b := Z.log2 d) in *.
  assert (Habs : (Qabs q == inject_Z n / inject_Z d)%Q) by apply Qabs_ratio.
  assert (Hdq : (0 < inject_Z d)%Q) by now apply inject_Z_pos.
  assert (Hup : (Qabs q < pow2 (a - b + 1))%Q).
  { rewrite Habs. apply Qlt_shift_div_r; [exact Hdq|].
    apply Qlt_le_trans with (inject_Z (2 ^ (a + 1))).
    - apply inject_Z_lt. exact Hn2.
    - replace (a - b + 1)%Z with ((a + 1) + - b)%Z by lia.
      rewrite pow2_add. unfold pow2 at 2. rewrite Qpower_opp.
      fold (pow2 b). rewrite (@pow2_nonneg_exp b Hb).
      rewrite (pow2_nonneg_exp (k := a + 1)) by lia.
      rewrite <- Qmult_assoc.
      rewrite <- (Qmult_1_r (inject_Z (2 ^ (a + 1)))) at 1.
      apply Qmult_le_l.
      + apply inject_Z_pos. lia.
      + rewrite Qmult_comm.
        apply Qle_shift_div_l with (c := inject_Z (2 ^ b)) (a := 1%Q)
                                   (b := inject_Z d).
        * apply inject_Z_pos. lia.
        * rewrite Qmult_1_l. apply inject_Z_le. exact Hd1. }
  assert (Hlow : (pow2 (a - b - 1) <= Qabs q)%Q).
  { rewrite Habs. apply Qle_shift_div_l; [exact Hdq|].
    apply Qle_trans with (inject_Z (2 ^ a)).
    - replace (a - b - 1)%Z with (a + - (b + 1))%Z by lia.
      rewrite pow2_add. unfold pow2 at 2. rewrite Qpower_opp.
      fold (pow2 (b + 1)). rewrite (pow2_nonneg_exp (k := b + 1)) by lia.
      rewrite (@pow2_nonneg_exp a Ha).
      rewrite <- Qmult_assoc.
      rewrite <- (Qmult_1_r (inject_Z (2 ^ a))) at 2.
      apply Qmult_le_l.
      + apply inject_Z_pos. lia.
      + rewrite Qmult_comm.
        apply Qle_shift_div_r with (b := inject_Z (2 ^ (b + 1)))
                                   (a := inject_Z d) (c := 1%Q).
        * apply inject_Z_pos. lia.
        * rewrite Qmult_1_l. apply inject_Z_le. lia.
    - apply inject_Z_le. exact Hn1. }
  unfold ilog2. fold n d a b.
  destruct (Qle_bool (pow2 (a - b)) (Qabs q)) eqn:E.
  - apply Qle_bool_iff in E. split; [exact E | exact Hup].
  - split; [exact Hlow|].
    replace (a - b - 1 + 1)%Z with (a - b)%Z by lia.
    apply Qnot_le_lt. intros Hle. apply Qle_bool_iff in Hle. congruence.
Qed.

Lemma ilog2_lt (q : Q) k :
  Qnum q <> 0%Z -> (Qabs q < pow2 k)%Q -> (ilog2 q < k)%Z.
Proof.
  intros Hq Hk. destruct (@ilog2_spec q Hq) as [Hlo _].
  apply pow2_lt_inv. eapply Qle_lt_trans; eassumption.
Qed.

Lemma ilog2_le (p q : Q) :
  Qnum p <> 0%Z -> Qnum q <> 0%Z -> (Qabs p <= Qabs q)%Q ->
  (ilog2 p <= ilog2 q)%Z.
Proof.
  intros Hp Hq Hpq. destruct (@ilog2_spec q Hq) as [_ Hhi].
  assert (ilog2 p < ilog2 q + 1)%Z; [|lia].
  apply ilog2_lt; [exact Hp|]. eapply Qle_lt_trans; eassumption.
Qed.

Lemma exponent64_le (p q : Q) :
  Qnum p <> 0%Z -> Qnum q <> 0%Z -> (Qabs p <= Qabs q)%Q ->
  (exponent64 p <= exponent64 q)%Z.
Proof.
  intros Hp Hq Hpq. pose proof (@ilog2_le p q Hp Hq Hpq). unfold exponent64. lia.
Qed.

(** Below [2 ** k] the last place is at most [2 ** (k - 53)]. *)
Lemma exponent64_lt (q : Q) k :
  Qnum q <> 0%Z -> (Qabs q < pow2 k)%Q -> (-1021 <= k)%Z ->
  (exponent64 q <= k - 53)%Z.
Proof.
  intros Hq Hk Hmin. pose proof (@ilog2_lt q k Hq Hk). unfold exponent64. lia.
Qed.

(** ** Rounding to an integer *)

Lemma nearest_even_floor q :
  (Qfloor q <= nearest_even q <= Qfloor q + 1)%Z.
Proof.
  unfold nearest_even.
  destruct (_ ?= _)%Q; [destruct (Z.even _)| |]; lia.
Qed.

Lemma nearest_even_upper q N :
  (q <= inject_Z N)%Q -> (nearest_even q <= N)%Z.
Proof.
  intros Hq. pose proof (Qfloor_resp_le _ _ Hq) as Hf. rewrite Qfloor_Z in Hf.
  pose proof (nearest_even_floor q) as Hr.
  destruct (Z.eq_dec (Qfloor q) N) as [E|E]; [|lia].
  unfold nearest_even.
  destruct (Qcompare_spec (q - inject_Z (Qfloor q)) (1 # 2)) as [Hc|Hc|Hc];
    [exfalso | lia | exfalso]; rewrite E in Hc; lra.
Qed.

Lemma nearest_even_lower q N :
  (inject_Z N <= q)%Q -> (N <= nearest_even q)%Z.
Proof.
  intros Hq. pose proof (Qfloor_resp_le _ _ Hq) as Hf. rewrite Qfloor_Z in Hf.
  pose proof (nearest_even_floor q). lia.
Qed.

Lemma nearest_even_le p q :
  (p <= q)%Q -> (nearest_even p <= nearest_even q)%Z.
Proof.
  intros Hpq. pose proof (Qfloor_resp_le _ _ Hpq) as Hf.
  pose proof (nearest_even_floor p) as Hp.
  pose proof (nearest_even_floor q) as Hq.
  destruct (Z.eq_dec (Qfloor p) (Qfloor q)) as [E|E]; [|lia].
  unfold nearest_even in *. rewrite <- E in *.
  destruct (Qcompare_spec (p - inject_Z (Qfloor p)) (1 # 2)) as [Hc|Hc|Hc];
    destruct (Qcompare_spec (q - inject_Z (Qfloor p)) (1 # 2)) as [Hd|Hd|Hd];
    try destruct (Z.even (Qfloor p)); try lia; exfalso; lra.
Qed.

(** ** Rounding to binary64 *)

Lemma round64_zero q : Qnum q = 0%Z -> round64 q = 0%Q.
Proof. intros Hq. unfold round64. now rewrite Hq. Qed.

Lemma Qnum_zero (q : Q) : Qnum q = 0%Z <-> (q == 0)%Q.
Proof. unfold Qeq. simpl. lia. Qed.

(** A multiple of [2 ** k] is a multiple of every smaller power. *)
Lemma grid_refine M k e :
  (e <= k)%Z ->
  (inject_Z M * pow2 k / pow2 e == inject_Z (M * 2 ^ (k - e)))%Q.
Proof.
  intros Hek. rewrite inject_Z_mult.
  rewrite <- (pow2_nonneg_exp (k := k - e)) by lia.
  unfold Qdiv. rewrite <- Qmult_assoc. apply Qmult_comp; [reflexivity|].
  replace (k - e)%Z with (k + - e)%Z by lia.
  rewrite pow2_add. unfold pow2 at 4. now rewrite Qpower_opp.
Qed.

Lemma grid_cancel M k e :
  (inject_Z M * pow2 k / pow2 e * pow2 e == inject_Z M * pow2 k)%Q.
Proof. field. apply pow2_nonzero. Qed.

(** Rounding does not cross a binary64 number: an upper bound that is a
    multiple of the last place of [q], or of a larger power of two,
    bounds the rounded value too. *)
Lemma round64_upper (q : Q) (M k : Z) :
  (q <= inject_Z M * pow2 k)%Q ->
  (Qnum q <> 0%Z -> (exponent64 q <= k)%Z) ->
  (round64 q <= inject_Z M * pow2 k)%Q.
Proof.
  intros Hq He. unfold round64.
  destruct (Z.eqb_spec (Qnum q) 0) as [Hz|Hnz].
  - apply Qnum_zero in Hz. now rewrite <- Hz.
  - specialize (He Hnz). set (e := exponent64 q) in *.
    assert (Hx : (q / pow2 e <= inject_Z (M * 2 ^ (k - e)))%Q).
    { rewrite <- (@grid_refine M k e He). unfold Qdiv.
      apply Qmult_le_compat_r; [exact Hq|].
      apply Qinv_le_0_compat, Qlt_le_weak, pow2_pos. }
    apply nearest_even_upper, inject_Z_le in Hx.
    rewrite <- (@grid_refine M k e He) in Hx.
    rewrite <- (@grid_cancel M k e).
    apply Qmult_le_compat_r; [exact Hx | apply Qlt_le_weak, pow2_pos].
Qed.

Lemma round64_lower (q : Q) (M k : Z) :
  (inject_Z M * pow2 k <= q)%Q ->
  (Qnum q <> 0%Z -> (exponent64 q <= k)%Z) ->
  (inject_Z M * pow2 k <= round64 q)%Q.
Proof.
  intros Hq He. unfold round64.
  destruct (Z.eqb_spec (Qnum q) 0) as [Hz|Hnz].
  - apply Qnum_zero in Hz. now rewrite <- Hz.
  - specialize (He Hnz). set (e := exponent64 q) in *.
    assert (Hx : (inject_Z (M * 2 ^ (k - e)) <= q / pow2 e)%Q).
    { rewrite <- (@grid_refine M k e He). unfold Qdiv.
      apply Qmult_le_compat_r; [exact Hq|].
      apply Qinv_le_0_compat, Qlt_le_weak, pow2_pos. }
    apply nearest_even_lower, inject_Z_le in Hx.
    rewrite <- (@grid_refine M k e He) in Hx.
    rewrite <- (@grid_cancel M k e).
    apply Qmult_le_compat_r; [exact Hx | apply Qlt_le_weak, pow2_pos].
Qed.

(** Rounding keeps the sign. *)
Lemma round64_nonneg q : (0 <= q)%Q -> (0 <= round64 q)%Q.
Proof.
  intros Hq.
  assert (E : (0 == inject_Z 0 * pow2 (exponent64 q))%Q) by (simpl; ring).
  rewrite E. apply round64_lower; [now rewrite <- E | lia].
Qed.

Lemma round64_nonpos q : (q <= 0)%Q -> (round64 q <= 0)%Q.
Proof.
  intros Hq.
  assert (E : (0 == inject_Z 0 * pow2 (exponent64 q))%Q) by (simpl; ring).
  rewrite E. apply round64_upper; [now rewrite <- E | lia].
Qed.

(** Bounds by an integer below [2 ** 53]. *)
Lemma exponent64_small (q : Q) (k : Z) :
  (Qabs q < pow2 k)%Q -> (-1021 <= k <= 53)%Z ->
  Qnum q <> 0%Z -> (exponent64 q <= 0)%Z.
Proof.
  intros Hq Hk Hnz. pose proof (@exponent64_lt q k Hnz Hq). lia.
Qed.

(** Rounding is monotone. *)
Lemma round64_le (p q : Q) : (p <= q)%Q -> (round64 p <= round64 q)%Q.
Proof.
  intros Hpq.
  destruct (Z.eq_dec (Qnum p) 0) as [Hp|Hp].
  { rewrite (@round64_zero p Hp). apply round64_nonneg.
    apply Qnum_zero in Hp. now rewrite <- Hp. }
  destruct (Z.eq_dec (Qnum q) 0) as [Hq|Hq].
  { rewrite (@round64_zero q Hq). apply round64_nonpos.
    apply Qnum_zero in Hq. now rewrite <- Hq. }
  destruct (Z.lt_trichotomy (exponent64 p) (exponent64 q)) as [Hlt|[Heq|Hgt]].
  - (* a power of two lies between them *)
    assert (Habs : (Qabs p < Qabs q)%Q).
    { apply Qnot_le_lt. intros Hle.
      pose proof (@exponent64_le q p Hq Hp Hle). lia. }
    assert (Hqpos : (0 < q)%Q).
    { apply Qnot_le_lt. intros Hle.
      rewrite (Qabs_neg q Hle) in Habs.
      assert (Hple : (p <= 0)%Q) by lra.
      rewrite (Qabs_neg p Hple) in Habs. lra. }
    assert (Hlog : (ilog2 p < ilog2 q)%Z /\ exponent64 q = (ilog2 q - 52)%Z)
      by (unfold exponent64 in *; lia).
    destruct Hlog as [Hlog Heq].
    destruct (@ilog2_spec q Hq) as [Hqlo _].
    destruct (@ilog2_spec p Hp) as [_ Hphi].
    rewrite (Qabs_pos q) in Hqlo by lra.
    assert (Hb : (pow2 (ilog2 q)
                  == inject_Z (2 ^ 52) * pow2 (exponent64 q))%Q).
    { rewrite Heq. replace (ilog2 q) with (52 + (ilog2 q - 52))%Z at 1 by lia.
      rewrite pow2_add. apply Qmult_comp; [|reflexivity].
      now rewrite pow2_nonneg_exp by lia. }
    apply Qle_trans with (inject_Z (2 ^ 52) * pow2 (exponent64 q))%Q.
    + apply round64_upper; [|lia]. rewrite <- Hb.
      apply Qle_trans with (Qabs p); [apply Qle_Qabs|].
      apply Qlt_le_weak. eapply Qlt_le_trans; [exact Hphi|].
      apply pow2_le. lia.
    + apply round64_lower; [|lia]. now rewrite <- Hb.
  - unfold round64.
    destruct (Z.eqb_spec (Qnum p) 0); [contradiction|].
    destruct (Z.eqb_spec (Qnum q) 0); [contradiction|].
    rewrite Heq. apply Qmult_le_compat_r; [|apply Qlt_le_weak, pow2_pos].
    apply inject_Z_le, nearest_even_le. unfold Qdiv.
    apply Qmult_le_compat_r; [exact Hpq|].
    apply Qinv_le_0_compat, Qlt_le_weak, pow2_pos.
  - assert (Habs : (Qabs q < Qabs p)%Q).
    { apply Qnot_le_lt. intros Hle.
      pose proof (@exponent64_le p q Hp Hq Hle). lia. }
    assert (Hpneg : (p < 0)%Q).
    { apply Qnot_le_lt. intros Hle.
      rewrite (Qabs_pos p Hle) in Habs.
      assert (Hqle : (0 <= q)%Q) by lra.
      rewrite (Qabs_pos q Hqle) in Habs. lra. }
    assert (Hlog : (ilog2 q < ilog2 p)%Z /\ exponent64 p = (ilog2 p - 52)%Z)
      by (unfold exponent64 in *; lia).
    destruct Hlog as [Hlog Heq].
    destruct (@ilog2_spec p Hp) as [Hplo _].
    destruct (@ilog2_spec q Hq) as [_ Hqhi].
    rewrite (Qabs_neg p) in Hplo by lra.
    assert (Hb : (- pow2 (ilog2 p)
                  == inject_Z (- 2 ^ 52) * pow2 (exponent64 p))%Q).
    { rewrite Heq. replace (ilog2 p) with (52 + (ilog2 p - 52))%Z at 1 by lia.
      rewrite pow2_add, inject_Z_opp, (pow2_nonneg_exp (k := 52)) by lia.
      ring. }
    apply Qle_trans with (inject_Z (- 2 ^ 52) * pow2 (exponent64 p))%Q.
    + apply round64_upper; [|lia]. rewrite <- Hb. lra.
    + apply round64_lower; [|lia]. rewrite <- Hb.
      assert (Hq' : (Qabs q <= pow2 (ilog2 p))%Q).
      { apply Qlt_le_weak. eapply Qlt_le_trans; [exact Hqhi|].
        apply pow2_le. lia. }
      apply Qabs_Qle_condition in Hq'. tauto.
Qed.

(** Equal numbers are rounded alike. *)
#[global] Instance round64_comp : Proper (Qeq ==> Qeq) round64.
Proof.
  intros p q E. apply Qle_antisym; apply round64_le; rewrite E; apply Qle_refl.
Qed.

(** Binary64 numbers are left as they are. *)
Lemma round64_exact (M k : Z) :
  (Qnum (inject_Z M * pow2 k) <> 0%Z ->
   (exponent64 (inject_Z M * pow2 k) <= k)%Z) ->
  (round64 (inject_Z M * pow2 k) == inject_Z M * pow2 k)%Q.
Proof.
  intros He. apply Qle_antisym.
  - apply round64_upper; [apply Qle_refl | exact He].
  - apply round64_lower; [apply Qle_refl | exact He].
Qed.

End Binary64Facts.


(* ================================================================== *)
(** * Properties of the audio conversion *)

Module AudioFacts.
Import Text Binary64 Audio.

(** ** Shapes *)

Lemma len_amap {A B} (f : A -> B) a : len (amap f a) = len a.
Proof. destruct a; simpl; now rewrite length_map. Qed.

Lemma channels_amap {A B} (f : A -> B) a : channels (amap f a) = channels a.
Proof. now destruct a. Qed.

Lemma elements_amap {A B} (f : A -> B) a :
  elements (amap f a) = map f (elements a).
Proof. destruct a; simpl; [reflexivity | now rewrite concat_map]. Qed.

Lemma len_peak_normalize peak a : len (peak_normalize peak a) = len a.
Proof. unfold peak_normalize. destruct (Qpositive peak); auto using len_amap. Qed.

Lemma channels_peak_normalize peak a :
  channels (peak_normalize peak a) = channels a.
Proof.
  unfold peak_normalize. destruct (Qpositive peak); auto using channels_amap.
Qed.

Lemma same_layout_channels {A B} (a : ndarray A) (b : ndarray B) :
  same_layout a b -> channels b = channels a.
Proof. destruct a, b; simpl; intros; congruence || tauto. Qed.

(** ** Rate selection *)

Lemma select_rate_cases r :
  select_rate r = Some 44100%Z \/ select_rate r = Some 48000%Z.
Proof.
  unfold select_rate, supported_sample_rates, py_min, min_from.
  destruct (_ <? _)%Z; auto.
Qed.

(** The candidate nearest to the input rate, the lower one on a tie. *)
Lemma select_rate_nearest r t :
  select_rate r = Some t ->
  (Z.abs (t - r) <= Z.abs (44100 - r) /\ Z.abs (t - r) <= Z.abs (48000 - r))%Z.
Proof.
  unfold select_rate, supported_sample_rates, py_min, min_from.
  destruct (Z.ltb_spec (Z.abs (48000 - r)) (Z.abs (44100 - r)));
    intros [= <-]; lia.
Qed.

(** ** The resampling block *)

Section Resampling.
Context {L : AudioLib}.
Hypothesis shape : ResampleShape L.

Lemma resample_step_layout data current target data' :
  resample_step data current target = Some data' ->
  same_layout data data'.
Proof.
  unfold resample_step. destruct (current =? target)%Z.
  - intros [= <-]. destruct data; simpl; auto.
  - destruct (num_samples _ _ _) as [num|]; [|discriminate].
    intros Hr. now apply shape in Hr.
Qed.

Lemma resample_step_len data current target data' :
  (0 < current)%Z -> (0 <= target)%Z -> current <> target ->
  resample_step data current target = Some data' ->
  Z.of_nat (len data') = (Z.of_nat (len data) * target / current)%Z.
Proof.
  intros Hc Ht Hne. unfold resample_step, num_samples.
  destruct (Z.eqb_spec current target); [contradiction|].
  destruct (Z.eqb_spec current 0); [lia|].
  intros Hr. apply shape in Hr as [Hlen _]. rewrite Hlen.
  rewrite Z.quot_div_nonneg by lia.
  apply Z2Nat.id. apply Z.div_pos; lia.
Qed.

End Resampling.

(** What a successful conversion went through. *)
Lemma convert_inv {L : AudioLib} data rate out w :
  convert_audio_file (Some (data, rate)) out = Some w ->
  exists target data' peak,
    select_rate rate = Some target /\
    resample_step data rate target = Some data' /\
    np_max_abs data' = Some peak /\
    sf_write_ok out = true /\
    w = {| pcm := amap quantize (peak_normalize peak data');
           out_rate := target |}.
Proof.
  unfold convert_audio_file.
  destruct (select_rate rate) as [target|] eqn:Hs; [|discriminate].
  destruct (resample_step data rate target) as [data'|] eqn:Hr;
    [|discriminate].
  destruct (np_max_abs data') as [peak|] eqn:Hp; [|discriminate].
  destruct (sf_write_ok out) eqn:Hw; [|discriminate].
  intros [= <-]. exists target, data', peak. auto.
Qed.

Lemma convert_smb_inv {L : AudioLib} data rate out w :
  convert_audio_file_smb (Some (data, rate)) out = Some w ->
  exists target data' mono peak,
    select_rate rate = Some target /\
    resample_step data rate target = Some data' /\
    (if 1 <? channels data then mean_rows data' else Some data') = Some mono /\
    np_max_abs mono = Some peak /\
    w = {| pcm := amap quantize (peak_normalize peak mono);
           out_rate := target |}.
Proof.
  unfold convert_audio_file_smb.
  destruct (select_rate rate) as [target|] eqn:Hs; [|discriminate].
  destruct (resample_step data rate target) as [data'|] eqn:Hr;
    [|discriminate].
  destruct (if 1 <? channels data then _ else _) as [mono|] eqn:Hm;
    [|discriminate].
  destruct (np_max_abs mono) as [peak|] eqn:Hp; [|discriminate].
  destruct (sf_write_ok out); [|discriminate].
  intros [= <-]. exists target, data', mono, peak. auto.
Qed.

(** ** Rounding and truncation *)

Lemma round_half_even_floor q :
  (Qfloor q <= round_half_even q <= Qfloor q + 1)%Z.
Proof.
  unfold round_half_even.
  destruct (_ ?= _)%Q; [destruct (Z.even _)| |]; lia.
Qed.

Lemma Qfloor_ratio a b :
  (0 < b)%Z -> Qfloor (inject_Z a / inject_Z b) = (a / b)%Z.
Proof.
  intros Hb. destruct b as [|p|p]; try lia.
  unfold Qdiv, Qinv, Qmult, inject_Z, Qfloor. simpl.
  now rewrite Z.mul_1_r.
Qed.

Lemma wrap16_small z : (-32768 <= z <= 32767)%Z -> wrap16 z = z.
Proof.
  intros Hz. unfold wrap16. rewrite Z.mod_small by lia. lia.
Qed.

Lemma Qtrunc_abs q : Z.abs (Qtrunc q) = Qfloor (Qabs q).
Proof.
  destruct q as [a d]. unfold Qtrunc, Qabs, Qfloor. simpl.
  rewrite <- Z.quot_abs by discriminate.
  change (Z.abs (Z.pos d)) with (Z.pos d).
  apply Z.quot_div_nonneg; lia.
Qed.

Lemma Qtrunc_sign q : (0 <= Qtrunc q * Qnum q)%Z.
Proof.
  destruct q as [a d]. unfold Qtrunc. simpl.
  destruct (Z.le_gt_cases 0 a).
  - apply Z.mul_nonneg_nonneg; [apply Z.quot_pos|]; lia.
  - assert (Z.quot a (Z.pos d) <= 0)%Z; [|nia].
    rewrite <- (Z.opp_involutive a), Z.quot_opp_l by discriminate.
    pose proof (Z.quot_pos (- a) (Z.pos d)). lia.
Qed.

Lemma div_cross_mono (a b c d : Z) :
  (0 <= a)%Z -> (0 < b)%Z -> (0 < d)%Z -> (a * d <= c * b)%Z ->
  (a / b <= c / d)%Z.
Proof.
  intros Ha Hb Hd Hx. apply Z.div_le_lower_bound; [exact Hd|].
  pose proof (Z.mul_div_le a b Hb). nia.
Qed.

Lemma quot_neg (a b : Z) :
  (a < 0)%Z -> (0 < b)%Z -> Z.quot a b = (- (- a / b))%Z.
Proof.
  intros Ha Hb. rewrite <- (Z.opp_involutive a) at 1.
  rewrite Z.quot_opp_l by lia. now rewrite Z.quot_div_nonneg by lia.
Qed.

(** Truncation toward zero does not reverse the order. *)
Lemma Qtrunc_le (p q : Q) : (p <= q)%Q -> (Qtrunc p <= Qtrunc q)%Z.
Proof.
  destruct p as [a b], q as [c d]. unfold Qle, Qtrunc. simpl. intros Hx.
  destruct (Z.le_gt_cases 0 a) as [Ha|Ha].
  - assert (Hc : (0 <= c)%Z) by nia.
    rewrite !Z.quot_div_nonneg by lia. apply div_cross_mono; lia.
  - rewrite (quot_neg Ha) by lia.
    destruct (Z.le_gt_cases 0 c) as [Hc|Hc].
    + pose proof (Z.quot_pos c (Z.pos d) Hc ltac:(lia)).
      assert (0 <= - a / Z.pos b)%Z by (apply Z.div_pos; lia). lia.
    + rewrite (quot_neg Hc) by lia.
      assert (- c / Z.pos d <= - a / Z.pos b)%Z; [|lia].
      apply div_cross_mono; lia.
Qed.

#[global] Instance Qtrunc_comp : Proper (Qeq ==> eq) Qtrunc.
Proof.
  intros p q E. apply Z.le_antisymm; apply Qtrunc_le; rewrite E;
    apply Qle_refl.
Qed.

(** The rounded product with 32767 and its integer part grow with the
    sample. *)
Lemma scaled_le (x y : Q) :
  (x <= y)%Q ->
  (Qtrunc (round64 (x * (32767 # 1))) <= Qtrunc (round64 (y * (32767 # 1))))%Z.
Proof.
  intros Hxy. apply Qtrunc_le, Binary64Facts.round64_le.
  apply Qmult_le_compat_r; [exact Hxy | discriminate].
Qed.

Lemma Qtrunc_scaled_range s :
  (-1 <= s <= 1)%Q ->
  (-32767 <= Qtrunc (round64 (s * (32767 # 1))) <= 32767)%Z.
Proof.
  intros [Hlo Hhi]. split.
  - apply Z.le_trans with (Qtrunc (round64 ((-1) * (32767 # 1))));
      [vm_compute; discriminate | now apply scaled_le].
  - apply Z.le_trans with (Qtrunc (round64 (1 * (32767 # 1))));
      [now apply scaled_le | vm_compute; discriminate].
Qed.

#[global] Instance quantize_comp : Proper (Qeq ==> eq) quantize.
Proof.
  intros p q E. unfold quantize. now rewrite E.
Qed.

(** ** The number of frames asked of the resampler *)

Lemma Qtrunc_nonneg_floor (r : Q) : (0 <= r)%Q -> Qtrunc r = Qfloor r.
Proof.
  destruct r as [n d]. unfold Qle, Qtrunc, Qfloor. simpl. intros H.
  apply Z.quot_div_nonneg; lia.
Qed.

Lemma Qfloor_between (r : Q) (k : Z) :
  (inject_Z k <= r)%Q -> (r < inject_Z (k + 1))%Q -> Qfloor r = k.
Proof.
  intros Hlo Hhi.
  pose proof (Qfloor_resp_le _ _ Hlo) as H1. rewrite Qfloor_Z in H1.
  pose proof (Qfloor_le r) as H2.
  assert (H3 : (inject_Z (Qfloor r) < inject_Z (k + 1))%Q) by lra.
  rewrite <- Zlt_Qlt in H3. lia.
Qed.

Lemma true_div_trunc (a b : Z) :
  (0 <= a)%Z -> (0 < b)%Z -> (a + b <= 2 ^ 52)%Z ->
  Qtrunc (round64 (inject_Z a / inject_Z b)) = (a / b)%Z.
Proof.
  intros Ha Hb Hsize.
  set (q := (inject_Z a / inject_Z b)%Q).
  set (k := (a / b)%Z).
  assert (Hk0 : (0 <= k)%Z) by (apply Z.div_pos; lia).
  assert (Hkb : (k * b <= a < (k + 1) * b)%Z).
  { unfold k. pose proof (Z.mul_div_le a b Hb).
    pose proof (Z.mul_succ_div_gt a b Hb). lia. }
  assert (Hbq : (0 < inject_Z b)%Q) by now apply Binary64Facts.inject_Z_pos.
  assert (Hqlo : (inject_Z k <= q)%Q).
  { unfold q. apply Qle_shift_div_l; [exact Hbq|].
    rewrite <- inject_Z_mult. apply Binary64Facts.inject_Z_le. lia. }
  assert (Hq0 : (0 <= q)%Q).
  { apply Qle_trans with (inject_Z k); [|exact Hqlo].
    apply (@Binary64Facts.inject_Z_le 0 k); lia. }
  set (m := Z.log2_up (k + 1)).
  assert (Hm0 : (0 <= m)%Z) by apply Z.log2_up_nonneg.
  assert (Hm1 : (k + 1 <= 2 ^ m)%Z).
  { destruct (Z.eq_dec k 0) as [->|Hk]; [simpl; lia|].
    apply Z.log2_up_spec. lia. }
  assert (Hm2 : (2 ^ m <= 2 * (k + 1))%Z).
  { destruct (Z.eq_dec k 0) as [E|Hk].
    - unfold m. rewrite E. simpl. lia.
    - pose proof (Z.log2_up_spec (k + 1) ltac:(lia)) as [Hl _].
      fold m in Hl. replace m with (Z.succ (Z.pred m)) by lia.
      rewrite Z.pow_succ_r; [lia|].
      assert (0 < m)%Z; [|lia]. apply Z.log2_up_pos. lia. }
  assert (Hk52 : (k + 1 <= 2 ^ 52)%Z) by nia.
  assert (Hm52 : (m <= 52)%Z).
  { unfold m. apply Z.log2_up_le_pow2; lia. }
  (* the binary64 number just below k + 1 *)
  set (M := ((k + 1) * 2 ^ (53 - m) - 1)%Z).
  assert (Hb53 : (b * 2 ^ m <= 2 ^ 53)%Z).
  { change (2 ^ 53)%Z with (2 * 2 ^ 52)%Z. nia. }
  assert (Hpm : (pow2 (m - 53) * inject_Z (2 ^ (53 - m)) == 1)%Q).
  { rewrite <- (Binary64Facts.pow2_nonneg_exp (k := 53 - m)) by lia.
    rewrite <- Binary64Facts.pow2_add.
    replace (m - 53 + (53 - m))%Z with 0%Z by lia. reflexivity. }
  assert (HG : (inject_Z M * pow2 (m - 53)
                == inject_Z (k + 1) - pow2 (m - 53))%Q).
  { assert (E0 : (inject_Z M
                  == inject_Z (k + 1) * inject_Z (2 ^ (53 - m)) - 1)%Q).
    { unfold M. rewrite <- inject_Z_mult. unfold Qminus.
      change (- (1))%Q with (inject_Z (- (1))).
      rewrite <- inject_Z_plus. reflexivity. }
    rewrite E0.
    transitivity (inject_Z (k + 1)
                  * (pow2 (m - 53) * inject_Z (2 ^ (53 - m)))
                  - pow2 (m - 53))%Q; [ring|].
    rewrite Hpm. ring. }
  assert (Hulp : (pow2 (m - 53) <= 1 / inject_Z b)%Q).
  { apply Qle_shift_div_l; [exact Hbq|].
    assert (E : (pow2 (m - 53) * inject_Z b
                 == inject_Z (b * 2 ^ m) * pow2 (- 53))%Q).
    { rewrite inject_Z_mult.
      rewrite <- (Binary64Facts.pow2_nonneg_exp (k := m)) by lia.
      replace (m - 53)%Z with (m + - 53)%Z by lia.
      rewrite Binary64Facts.pow2_add. ring. }
    rewrite E.
    apply Qle_trans with (inject_Z (2 ^ 53) * pow2 (-53))%Q.
    - apply Qmult_le_compat_r;
        [now apply Binary64Facts.inject_Z_le
        |apply Qlt_le_weak, Binary64Facts.pow2_pos].
    - vm_compute. discriminate. }
  assert (Hqhi : (q <= inject_Z (k + 1) - 1 / inject_Z b)%Q).
  { unfold q.
    assert (E : (inject_Z (k + 1) - 1 / inject_Z b
                 == inject_Z ((k + 1) * b - 1) / inject_Z b)%Q).
    { assert (E0 : (inject_Z ((k + 1) * b - 1)
                    == inject_Z (k + 1) * inject_Z b - 1)%Q).
      { rewrite <- inject_Z_mult. unfold Qminus.
        change (- (1))%Q with (inject_Z (- (1))).
        rewrite <- inject_Z_plus. reflexivity. }
      rewrite E0. field. lra. }
    rewrite E. unfold Qdiv. apply Qmult_le_compat_r.
    - apply Binary64Facts.inject_Z_le. lia.
    - apply Qinv_le_0_compat. lra. }
  assert (Hpos : (0 < pow2 (m - 53))%Q) by apply Binary64Facts.pow2_pos.
  assert (Hinv : (0 < 1 / inject_Z b)%Q).
  { apply Qlt_shift_div_l; [exact Hbq|]. lra. }
  assert (Hqlt : (q < inject_Z (k + 1))%Q).
  { eapply Qle_lt_trans; [exact Hqhi|].
    generalize Hinv. generalize (1 / inject_Z b)%Q. intros t Ht. lra. }
  assert (Hexp : Qnum q <> 0%Z -> (exponent64 q <= m - 53)%Z).
  { intros Hnz. apply Binary64Facts.exponent64_lt; [exact Hnz| |lia].
    rewrite Qabs_pos by exact Hq0.
    rewrite (Binary64Facts.pow2_nonneg_exp Hm0).
    apply Qlt_le_trans with (inject_Z (k + 1)); [exact Hqlt|].
    now apply Binary64Facts.inject_Z_le. }
  assert (Hup : (round64 q <= inject_Z M * pow2 (m - 53))%Q).
  { apply Binary64Facts.round64_upper; [rewrite HG; lra | exact Hexp]. }
  assert (Hlow : (inject_Z k <= round64 q)%Q).
  { assert (E : (inject_Z k == inject_Z k * pow2 0)%Q)
      by (change (pow2 0) with 1%Q; ring).
    rewrite E. apply Binary64Facts.round64_lower; [now rewrite <- E|].
    intros Hnz. specialize (Hexp Hnz). lia. }
  assert (Hk0q : (0 <= inject_Z k)%Q)
    by (apply (@Binary64Facts.inject_Z_le 0 k); lia).
  rewrite Qtrunc_nonneg_floor by lra.
  apply Qfloor_between; [exact Hlow|]. rewrite HG in Hup. lra.
Qed.

(** [int(len(data) * target / current)] as Python computes it - the
    quotient of the two integers rounded to binary64, then truncated -
    is the exact integer quotient used in [num_samples], as long as the
    product and the rate together stay below [2 ** 52]: for every stream
    of fewer than 93 thousand million frames. *)
Lemma num_samples_binary64 (n : nat) (target current : Z) :
  (0 <= target)%Z -> (0 < current)%Z ->
  (Z.of_nat n * target + current <= 2 ^ 52)%Z ->
  num_samples n target current
  = Some (Qtrunc (round64 (inject_Z (Z.of_nat n * target)
                           / inject_Z current))).
Proof.
  intros Ht Hc Hsize. unfold num_samples.
  destruct (Z.eqb_spec current 0); [lia|].
  rewrite true_div_trunc by lia.
  now rewrite Z.quot_div_nonneg by lia.
Qed.

(** ** Peak normalisation *)

Lemma fold_max_upper (l : list Q) (acc : Q) :
  (acc <= fold_left Qmax l acc)%Q /\
  Forall (fun y => (y <= fold_left Qmax l acc)%Q) l.
Proof.
  revert acc. induction l as [|y l IH]; intros acc; simpl.
  - split; [apply Qle_refl | constructor].
  - destruct (IH (Qmax acc y)) as [Hacc Hall]. split.
    + eapply Qle_trans; [apply Q.le_max_l | exact Hacc].
    + constructor; [|exact Hall].
      eapply Qle_trans; [apply Q.le_max_r | exact Hacc].
Qed.

(** The peak bounds every element in absolute value. *)
Lemma np_max_abs_upper a peak :
  np_max_abs a = Some peak ->
  Forall (fun x => (Qabs x <= peak)%Q) (elements a).
Proof.
  unfold np_max_abs. destruct (elements a) as [|x r]; [discriminate|].
  intros [= <-].
  destruct (fold_max_upper (map Qabs r) (Qabs x)) as [Hx Hr].
  constructor; [exact Hx|].
  rewrite Forall_map in Hr. exact Hr.
Qed.

(** The literal [0.95] as a binary64 number. *)
Lemma headroom_value :
  (headroom == 4278419646001971 # 4503599627370496)%Q.
Proof. vm_compute. reflexivity. Qed.

Lemma headroom_range : (0 <= headroom <= 1)%Q.
Proof. rewrite headroom_value. split; discriminate. Qed.

(** The scaling of one sample grows with the sample. *)
Lemma scale_le peak (x y : Q) :
  (0 < peak)%Q -> (x <= y)%Q ->
  (round64 (round64 (x / peak) * headroom)
   <= round64 (round64 (y / peak) * headroom))%Q.
Proof.
  intros Hpk Hxy. apply Binary64Facts.round64_le.
  apply Qmult_le_compat_r; [|apply headroom_range].
  apply Binary64Facts.round64_le. unfold Qdiv.
  apply Qmult_le_compat_r; [exact Hxy|].
  apply Qinv_le_0_compat, Qlt_le_weak, Hpk.
Qed.

(** The loudest sample is brought to [0.95] exactly. *)
Lemma scale_peak peak (x : Q) :
  (0 < peak)%Q -> (x == peak)%Q ->
  (round64 (round64 (x / peak) * headroom) == headroom)%Q.
Proof.
  intros Hpk Hx.
  assert (E : (x / peak == 1)%Q) by (rewrite Hx; field; lra).
  rewrite E. vm_compute. reflexivity.
Qed.

Lemma scale_neg_peak peak (x : Q) :
  (0 < peak)%Q -> (x == - peak)%Q ->
  (round64 (round64 (x / peak) * headroom) == - headroom)%Q.
Proof.
  intros Hpk Hx.
  assert (E : (x / peak == -1)%Q) by (rewrite Hx; field; lra).
  rewrite E. vm_compute. reflexivity.
Qed.

(** After peak normalisation every sample lies within [0.95] of zero. *)
Lemma peak_normalize_headroom a peak :
  np_max_abs a = Some peak ->
  Forall (fun x => (- headroom <= x <= headroom)%Q)
         (elements (peak_normalize peak a)).
Proof.
  intros Hp. apply np_max_abs_upper in Hp.
  pose proof headroom_range as [Hh0 _].
  unfold peak_normalize, Qpositive.
  destruct (Z.ltb_spec 0 (Qnum peak)) as [Hpos|Hnp].
  - rewrite elements_amap, Forall_map.
    eapply Forall_impl; [|exact Hp]. cbv beta. intros x Hx.
    assert (Hpk : (0 < peak)%Q) by (unfold Qlt; simpl; lia).
    apply Qabs_Qle_condition in Hx as [Hlo Hhi]. split.
    + eapply Qle_trans; [|exact (@scale_le peak _ _ Hpk Hlo)].
      apply Qle_lteq. right. symmetry.
      exact (@scale_neg_peak peak (- peak) Hpk (Qeq_refl _)).
    + eapply Qle_trans; [exact (@scale_le peak _ _ Hpk Hhi)|].
      apply Qle_lteq. right.
      exact (@scale_peak peak peak Hpk (Qeq_refl _)).
  - eapply Forall_impl; [|exact Hp]. cbv beta. intros x Hx.
    apply Qabs_Qle_condition in Hx as [Hlo Hhi].
    assert (Hpk : (peak <= 0)%Q) by (unfold Qle; simpl; lia).
    split; lra.
Qed.

(** After peak normalisation every sample lies in [[-1, 1]]. *)
Lemma peak_normalize_unit a peak :
  np_max_abs a = Some peak ->
  Forall (fun x => (-1 <= x <= 1)%Q) (elements (peak_normalize peak a)).
Proof.
  intros Hp. pose proof headroom_range as [_ Hh1].
  eapply Forall_impl; [|exact (peak_normalize_headroom _ Hp)].
  cbv beta. intros x [Hlo Hhi]. split; lra.
Qed.

(** ** Silence *)

Lemma Qzero_num (x : Q) : (x == 0)%Q <-> Qnum x = 0%Z.
Proof. unfold Qeq. simpl. lia. Qed.

Lemma fold_max_zero (l : list Q) (acc : Q) :
  (acc == 0)%Q -> Forall (fun y => (y == 0)%Q) l ->
  (fold_left Qmax l acc == 0)%Q.
Proof.
  revert acc. induction l as [|y l IH]; intros acc Hacc Hl; simpl; auto.
  inversion Hl as [|? ? Hy Hl']; subst. apply IH; auto.
  destruct (Q.max_spec acc y) as [[_ ->]|[_ ->]]; assumption.
Qed.

Lemma np_max_abs_silent a :
  elements a <> [] ->
  Forall (fun x => (x == 0)%Q) (elements a) ->
  exists peak, np_max_abs a = Some peak /\ (peak == 0)%Q.
Proof.
  unfold np_max_abs. destruct (elements a) as [|x r]; [congruence|].
  intros _ Hz. inversion Hz as [|? ? Hx Hr]; subst.
  eexists. split; [reflexivity|].
  assert (Habs : forall y, (y == 0)%Q -> (Qabs y == 0)%Q).
  { intros y Hy. apply Qzero_num in Hy. apply Qzero_num.
    destruct y as [n d]. simpl in *. subst. reflexivity. }
  apply fold_max_zero; auto.
  rewrite Forall_map. eapply Forall_impl; [|exact Hr]. auto.
Qed.

Lemma peak_normalize_zero peak a :
  (peak == 0)%Q -> peak_normalize peak a = a.
Proof.
  intros Hp. apply Qzero_num in Hp.
  unfold peak_normalize, Qpositive. now rewrite Hp.
Qed.

Lemma quantize_zero x : (x == 0)%Q -> quantize x = 0%Z.
Proof.
  intros Hx. apply Qzero_num in Hx. destruct x as [n d]. simpl in Hx.
  subst. reflexivity.
Qed.

(** ** The sample resampler has the documented shape *)

Lemma sample_lib_shape writable : ResampleShape (SampleLib.lib writable).
Proof.
  intros a num b. simpl. unfold SampleLib.resample_hold.
  destruct ((num <=? 0)%Z || (len a =? 0))%bool; [discriminate|].
  destruct a as [xs | nch rows]; intros [= <-]; simpl;
    unfold SampleLib.hold; rewrite length_map, length_seq; auto.
Qed.

(** ** C3 *)

Lemma quantize_unit (s : Q) :
  (-1 <= s <= 1)%Q ->
  quantize s = Qtrunc (round64 (s * (32767 # 1))) /\
  (-32767 <= quantize s <= 32767)%Z.
Proof.
  intros Hs. pose proof (Qtrunc_scaled_range Hs) as Hr.
  assert (Hq : quantize s = Qtrunc (round64 (s * (32767 # 1)))).
  { unfold quantize. apply wrap16_small. lia. }
  rewrite Hq. auto.
Qed.

(** The sign of a sample is kept. *)
Lemma quantize_nonneg (s : Q) :
  (-1 <= s <= 1)%Q -> (0 <= s)%Q -> (0 <= quantize s)%Z.
Proof.
  intros Hs H0. destruct (quantize_unit Hs) as [-> _].
  change 0%Z with (Qtrunc 0). apply Qtrunc_le.
  apply Binary64Facts.round64_nonneg.
  apply Qmult_le_0_compat; [exact H0 | discriminate].
Qed.

Lemma quantize_nonpos (s : Q) :
  (-1 <= s <= 1)%Q -> (s <= 0)%Q -> (quantize s <= 0)%Z.
Proof.
  intros Hs H0. destruct (quantize_unit Hs) as [-> _].
  change 0%Z with (Qtrunc 0). apply Qtrunc_le.
  apply Binary64Facts.round64_nonpos.
  assert (E : (0 == 0 * (32767 # 1))%Q) by reflexivity.
  rewrite E. apply Qmult_le_compat_r; [exact H0 | discriminate].
Qed.

Lemma quantize_le (x y : Q) :
  (-1 <= x <= 1)%Q -> (-1 <= y <= 1)%Q -> (x <= y)%Q ->
  (quantize x <= quantize y)%Z.
Proof.
  intros Hx Hy Hxy.
  destruct (quantize_unit Hx) as [-> _].
  destruct (quantize_unit Hy) as [-> _].
  now apply scaled_le.
Qed.

(** C3, as amended: in the quantisation step every sample [s] of
    [[-1, 1]] is mapped to the binary64 product [s * 32767] truncated
    toward zero (the integer part of the product, with the sign of [s]);
    nothing is rounded to the nearest integer.  The result lies in
    [-32767 .. 32767], so the conversion to 16 bits changes nothing and
    no clamping takes place. *)
Theorem quantize_truncates (s : Q) :
  (-1 <= s <= 1)%Q ->
  quantize s = Qtrunc (round64 (s * (32767 # 1))) /\
  (-32767 <= quantize s <= 32767)%Z /\
  Z.abs (quantize s) = Qfloor (Qabs (round64 (s * (32767 # 1)))) /\
  (0 <= quantize s * Qnum s)%Z.
Proof.
  intros Hs. destruct (quantize_unit Hs) as [Hq Hr].
  split; [exact Hq|]. split; [exact Hr|]. split.
  - rewrite Hq. apply Qtrunc_abs.
  - destruct (Z.le_gt_cases 0 (Qnum s)) as [Hn|Hn].
    + apply Z.mul_nonneg_nonneg; [|exact Hn].
      apply quantize_nonneg; [exact Hs|]. unfold Qle. simpl. lia.
    + apply Z.mul_nonpos_nonpos; [|lia].
      apply quantize_nonpos; [exact Hs|]. unfold Qle. simpl. lia.
Qed.

Lemma quantize_truncates_witness :
  (-1 <= -19 # 20 <= 1)%Q /\ quantize (-19 # 20) = (-31128)%Z.
Proof.
  assert (Hs : (-1 <= -19 # 20 <= 1)%Q).
  { split; unfold Qle; simpl; lia. }
  split; [exact Hs|].
  destruct (quantize_truncates Hs) as (Hq & _). rewrite Hq.
  vm_compute. reflexivity.
Defined.

(** What reaches the quantisation step inside [convert_audio_file] is
    always in [[-1, 1]], so the written samples are plain truncations. *)
Lemma convert_quantizes {L : AudioLib} data rate out w :
  convert_audio_file (Some (data, rate)) out = Some w ->
  Forall (fun z => (-32767 <= z <= 32767)%Z) (elements (pcm w)).
Proof.
  intros Hc. apply convert_inv in Hc
    as (target & data' & peak & _ & _ & Hp & _ & ->).
  simpl. rewrite elements_amap, Forall_map.
  eapply Forall_impl; [|exact (peak_normalize_unit _ Hp)].
  cbv beta. intros x Hx. now apply quantize_unit.
Qed.

(** C3 fails as stated: a quarter of full scale is 8191.75 steps, which
    the code truncates to 8191 and rounding takes to 8192; a full-scale
    sample, scaled to 0.95, is written as 31128 and not as 31129. *)
Lemma quantize_counterexample :
  quantize (1 # 4) = 8191%Z /\ spec_quantize (1 # 4) = 8192%Z /\
  option_map pcm
    (convert_audio_file (H := Fixtures.lib) (Some Fixtures.full_scale) [])
    = Some (Arr1 [31128%Z]) /\
  spec_quantize (95 # 100) = 31129%Z.
Proof. repeat split; vm_compute; reflexivity. Qed.

(** What is truncated is the product as binary64 computes it.  For the
    binary64 number nearest to 20000/32767 the exact product is just
    below 20000 and the computed one is 20000; and the two samples
    20/32768 and 31/32768 of a 16-bit file are written as 20082 and
    31128. *)
Example quantize_binary64_product :
  quantize (round64 (20000 # 32767)) = 20000%Z /\
  Qtrunc (round64 (20000 # 32767) * (32767 # 1)) = 19999%Z /\
  option_map pcm
    (convert_audio_file (H := Fixtures.lib)
       (Some (Arr1 [(20 # 32768)%Q; (31 # 32768)%Q], 44100%Z)) [])
    = Some (Arr1 [20082%Z; 31128%Z]).
Proof. repeat split; vm_compute; reflexivity. Qed.

(** ** C4 *)

(** C4, as amended: when the selected rate differs from the (positive)
    input rate, a successful conversion writes exactly
    [floor(n * r_t / r_in)] frames, [n] being the number of input frames:
    the quotient is truncated, not rounded.  That is the rounded count or
    one less. *)
Theorem resample_length {L : AudioLib} (shape : ResampleShape L)
        (data : ndarray Q) (rate : Z) (out : path) (w : wav_output) :
  (0 < rate)%Z ->
  convert_audio_file (Some (data, rate)) out = Some w ->
  out_rate w <> rate ->
  select_rate rate = Some (out_rate w) /\
  Z.of_nat (len (pcm w)) = (Z.of_nat (len data) * out_rate w / rate)%Z /\
  (0 <= spec_num_samples (len data) (out_rate w) rate
        - Z.of_nat (len (pcm w)) <= 1)%Z.
Proof.
  intros Hrate Hc Hne.
  apply convert_inv in Hc as (target & data' & peak & Hs & Hr & _ & _ & ->).
  simpl in *. split; [exact Hs|].
  assert (Ht : (0 <= target)%Z).
  { destruct (select_rate_cases rate) as [E|E]; rewrite E in Hs;
      injection Hs as <-; lia. }
  assert (Hlen : Z.of_nat (len data')
                 = (Z.of_nat (len data) * target / rate)%Z).
  { eapply (@resample_step_len L shape);
      [exact Hrate | exact Ht | congruence | exact Hr]. }
  rewrite len_amap, len_peak_normalize, Hlen. split; [reflexivity|].
  unfold spec_num_samples.
  pose proof (round_half_even_floor
                (inject_Z (Z.of_nat (len data) * target) / inject_Z rate))
    as Hrd.
  rewrite Qfloor_ratio in Hrd by assumption. lia.
Qed.

Lemma resample_length_witness :
  (0 < 50000)%Z /\
  convert_audio_file (H := Fixtures.lib) (Some Fixtures.three_at_50k) []
    = Some Fixtures.two_at_48k /\
  out_rate Fixtures.two_at_48k <> 50000%Z /\
  Z.of_nat (len (pcm Fixtures.two_at_48k)) = (3 * 48000 / 50000)%Z.
Proof.
  assert (Hr : (0 < 50000)%Z) by lia.
  assert (Hc : convert_audio_file (H := Fixtures.lib)
                 (Some Fixtures.three_at_50k) []
               = Some Fixtures.two_at_48k) by reflexivity.
  assert (Hne : out_rate Fixtures.two_at_48k <> 50000%Z)
    by (simpl; discriminate).
  split; [exact Hr|]. split; [exact Hc|]. split; [exact Hne|].
  exact (proj1 (proj2 (@resample_length Fixtures.lib (sample_lib_shape _)
                         _ _ _ _ Hr Hc Hne))).
Defined.

(** C4 fails as stated: three frames at 50 kHz make 2.88 frames at
    48 kHz; the code asks the resampler for 2, rounding gives 3. *)
Lemma resample_length_counterexample :
  select_rate 50000 = Some 48000%Z /\
  num_samples 3 48000 50000 = Some 2%Z /\
  spec_num_samples 3 48000 50000 = 3%Z /\
  option_map (fun w => len (pcm w))
    (convert_audio_file (H := Fixtures.lib) (Some Fixtures.three_at_50k) [])
    = Some 2.
Proof. repeat split; reflexivity. Qed.

(** ** C5 *)

(** C5, as amended: [convert_audio_file] of the local script (and of the
    macOS and GUI scripts, which share it) writes as many channels as it
    read; the variant of the SMB script writes exactly one channel
    whenever it read more than one. *)
Theorem channel_count {L : AudioLib} (shape : ResampleShape L)
        (data : ndarray Q) (rate : Z) (out : path) (w : wav_output) :
  (convert_audio_file (Some (data, rate)) out = Some w ->
   channels (pcm w) = channels data) /\
  (1 < channels data ->
   convert_audio_file_smb (Some (data, rate)) out = Some w ->
   channels (pcm w) = 1).
Proof.
  split.
  - intros Hc.
    apply convert_inv in Hc as (target & data' & peak & _ & Hr & _ & _ & ->).
    simpl. rewrite channels_amap, channels_peak_normalize.
    apply same_layout_channels. exact (resample_step_layout shape _ _ _ Hr).
  - intros Hch Hc.
    apply convert_smb_inv in Hc
      as (target & data' & mono & peak & _ & Hr & Hm & _ & ->).
    simpl. rewrite channels_amap, channels_peak_normalize.
    apply Nat.ltb_lt in Hch. rewrite Hch in Hm.
    destruct data' as [xs|nch rows]; [discriminate|].
    injection Hm as <-. reflexivity.
Qed.

Lemma channel_count_witness :
  (exists w,
     convert_audio_file (H := Fixtures.lib) (Some Fixtures.stereo) []
       = Some w /\ channels (pcm w) = 2) /\
  1 < channels (fst Fixtures.stereo) /\
  (exists w,
     convert_audio_file_smb (H := Fixtures.lib) (Some Fixtures.stereo) []
       = Some w /\ channels (pcm w) = 1).
Proof.
  assert (H12 : 1 < channels (fst Fixtures.stereo)) by (simpl; lia).
  repeat split; [|exact H12|].
  - destruct (convert_audio_file (H := Fixtures.lib)
                (Some Fixtures.stereo) []) as [w|] eqn:Hc;
      [|vm_compute in Hc; discriminate].
    exists w. split; [reflexivity|].
    apply (proj1 (@channel_count Fixtures.lib (sample_lib_shape _)
                    (fst Fixtures.stereo) (snd Fixtures.stereo) [] w)).
    exact Hc.
  - destruct (convert_audio_file_smb (H := Fixtures.lib)
                (Some Fixtures.stereo) []) as [w|] eqn:Hc;
      [|vm_compute in Hc; discriminate].
    exists w. split; [reflexivity|].
    apply (proj2 (@channel_count Fixtures.lib (sample_lib_shape _)
                    (fst Fixtures.stereo) (snd Fixtures.stereo) [] w));
      [exact H12 | exact Hc].
Defined.

(** C5 fails as stated: the SMB script turns a stereo file into a mono
    one. *)
Lemma channel_count_counterexample :
  channels (fst Fixtures.stereo) = 2 /\
  option_map (fun w => channels (pcm w))
    (convert_audio_file_smb (H := Fixtures.lib) (Some Fixtures.stereo) [])
    = Some 1.
Proof. split; reflexivity. Qed.

(** The down-mix on the two stereo frames [(1, 0)] and [(0, -1/2)]: the
    frame means [1/2] and [-1/4] (here in lowest terms) are what is
    normalised and written. *)
Example smb_downmix_example :
  option_map (amap Qred) (mean_rows (fst Fixtures.stereo))
    = Some (Arr1 [(1 # 2)%Q; (-1 # 4)%Q]) /\
  option_map pcm
    (convert_audio_file_smb (H := Fixtures.lib) (Some Fixtures.stereo) [])
    = Some (Arr1 [31128%Z; (-15564)%Z]).
Proof. split; vm_compute; reflexivity. Qed.

(** ** C9 *)

(** C9, as amended: when the samples that reach peak normalisation (the
    input samples at a supported rate, the resampler's output otherwise)
    are all 0 and there is at least one of them, and the output file can
    be written, [convert_audio_file] succeeds; the peak is 0, the scaling
    is skipped, so nothing is divided by it, and every sample written is
    0. *)
Theorem silent_input_stays_silent {L : AudioLib}
        (data data' : ndarray Q) (rate target : Z) (out : path) :
  select_rate rate = Some target ->
  resample_step data rate target = Some data' ->
  elements data' <> [] ->
  Forall (fun x => (x == 0)%Q) (elements data') ->
  sf_write_ok out = true ->
  exists peak w,
    np_max_abs data' = Some peak /\ (peak == 0)%Q /\
    peak_normalize peak data' = data' /\
    convert_audio_file (Some (data, rate)) out = Some w /\
    out_rate w = target /\
    len (pcm w) = len data' /\
    Forall (fun z => z = 0%Z) (elements (pcm w)).
Proof.
  intros Hs Hr Hne Hz Hw.
  destruct (np_max_abs_silent data' Hne Hz) as (peak & Hp & Hp0).
  exists peak. eexists. split; [exact Hp|]. split; [exact Hp0|].
  split; [now apply peak_normalize_zero|].
  unfold convert_audio_file. rewrite Hs, Hr, Hp, Hw.
  split; [reflexivity|]. simpl.
  rewrite (peak_normalize_zero data' Hp0), len_amap, elements_amap, Forall_map.
  repeat split. eapply Forall_impl; [|exact Hz].
  intros x Hx. now apply quantize_zero.
Qed.

Lemma silent_input_stays_silent_witness :
  (exists w,
     convert_audio_file (H := Fixtures.lib) (Some Fixtures.silence) []
       = Some w /\
     Forall (fun z => z = 0%Z) (elements (pcm w))) /\
  (exists w,
     convert_audio_file (H := Fixtures.lib) (Some Fixtures.silence_96k) []
       = Some w /\
     out_rate w = 48000%Z /\
     Forall (fun z => z = 0%Z) (elements (pcm w))).
Proof.
  split.
  - assert (Hne : elements (fst Fixtures.silence) <> []) by discriminate.
    assert (Hz : Forall (fun x => (x == 0)%Q)
                        (elements (fst Fixtures.silence))).
    { repeat (constructor; [reflexivity|]). constructor. }
    destruct (@silent_input_stays_silent Fixtures.lib
                (fst Fixtures.silence) (fst Fixtures.silence)
                44100%Z 44100%Z [] eq_refl eq_refl Hne Hz eq_refl)
      as (peak & w & _ & _ & _ & Hc & _ & _ & Hw).
    exists w. split; assumption.
  - assert (Hne : elements (Arr2 2 [[0%Q; 0%Q]; [0%Q; 0%Q]]) <> [])
      by discriminate.
    assert (Hz : Forall (fun x => (x == 0)%Q)
                        (elements (Arr2 2 [[0%Q; 0%Q]; [0%Q; 0%Q]]))).
    { repeat (constructor; [reflexivity|]). constructor. }
    destruct (@silent_input_stays_silent Fixtures.lib
                (fst Fixtures.silence_96k) _
                96000%Z 48000%Z [] eq_refl eq_refl Hne Hz eq_refl)
      as (peak & w & _ & _ & _ & Hc & Hrate & _ & Hw).
    exists w. repeat split; assumption.
Defined.

(** C9 fails as stated: a stream without any frame is silent, and its
    conversion fails, because the peak of an empty array is undefined. *)
Lemma silent_input_counterexample :
  Forall (fun x => (x == 0)%Q) (elements (fst Fixtures.no_frames)) /\
  np_max_abs (fst Fixtures.no_frames) = None /\
  convert_audio_file (H := Fixtures.lib) (Some Fixtures.no_frames) [] = None.
Proof. repeat split. constructor. Qed.

(** A silent stream too short to leave one frame after resampling fails
    too, whatever the resampler does when asked for no frame. *)
Lemma silent_single_frame_fails {L : AudioLib} (shape : ResampleShape L) out :
  convert_audio_file (Some (Arr1 [0%Q], 96000%Z)) out = None.
Proof.
  destruct (convert_audio_file _ out) as [w|] eqn:Hc; [|reflexivity].
  apply convert_inv in Hc as (target & data' & peak & Hs & Hr & Hp & _).
  injection Hs as <-.
  unfold resample_step in Hr. simpl in Hr.
  apply shape in Hr as [Hlen Hlay].
  destruct data' as [xs|nch rows]; [|contradiction].
  destruct xs; [discriminate Hp | discriminate Hlen].
Qed.

End AudioFacts.

(* ================================================================== *)
(** * Properties of the directory mirror *)

Module MirrorFacts.
Import Text NameNormalizer Audio TreeMirror.

Section Mirror.
Context {U : UnicodeData} {L : AudioLib} {F : TargetFs}.

Lemma directory_body_ext target listing loop1 loop2 :
  (forall c items, loop1 c items = loop2 c items) ->
  directory_body target listing loop1 = directory_body target listing loop2.
Proof.
  intros Hext. unfold directory_body.
  destruct (mkdir_ok target); [|reflexivity].
  destruct listing as [items|]; [|reflexivity].
  now rewrite Hext.
Qed.

(** A sub-directory is handled by a call of [process_directory] of its
    own. *)
Lemma process_item_dir target c name listing :
  process_item target c (Dir name listing) =
  let (evs, fl) :=
    process_directory (target ++ [normalize_name name 0]) listing in
  (c, evs, fl).
Proof.
  unfold process_directory. cbn [process_item].
  erewrite directory_body_ext; [reflexivity|].
  intros c' items. revert c'.
  induction items as [|i r IH]; intros c'; [reflexivity|].
  cbn [process_items]. unfold loop_step.
  destruct (process_item _ c' i) as [[c1 evs1] [|]]; [|reflexivity].
  now rewrite IH.
Qed.

Lemma process_items_cons target c i r :
  process_items target c (i :: r) =
  match process_item target c i with
  | (c1, evs, Normal) =>
      match process_items target c1 r with
      | (c2, evs', fl) => (c2, evs ++ evs', fl)
      end
  | (c1, evs, Raised) => (c1, evs, Raised)
  end.
Proof. reflexivity. Qed.

Lemma process_item_file target c name content :
  process_item target c (File name content) =
  let (c', evs) := process_file target c name content in (c', evs, Normal).
Proof. reflexivity. Qed.

Lemma process_item_converted target c name content w :
  is_wav name = true ->
  convert_audio_file content (target ++ [normalize_name name c]) = Some w ->
  process_item target c (File name content)
    = ((c + 1)%Z,
       [Written (target ++ [normalize_name name c]) w;
        LogProcessed name (normalize_name name c)],
       Normal).
Proof.
  intros Hwav Hc. rewrite process_item_file. unfold process_file.
  now rewrite Hwav, Hc.
Qed.

Lemma process_items_app target c l1 l2 :
  process_items target c (l1 ++ l2) =
  match process_items target c l1 with
  | (c1, evs, Normal) =>
      match process_items target c1 l2 with
      | (c2, evs', fl) => (c2, evs ++ evs', fl)
      end
  | (c1, evs, Raised) => (c1, evs, Raised)
  end.
Proof.
  revert c. induction l1 as [|i r IH]; intros c.
  - simpl. now destruct (process_items target c l2) as [[c2 evs'] fl].
  - rewrite <- app_comm_cons, !process_items_cons.
    destruct (process_item target c i) as [[c1 evs1] [|]]; [|reflexivity].
    rewrite IH.
    destruct (process_items target c1 r) as [[c2 evs2] [|]]; [|reflexivity].
    destruct (process_items target c2 l2) as [[c3 evs3] fl].
    now rewrite app_assoc.
Qed.

(** ** C7 *)

(** C7: when [convert_audio_file] fails on a qualifying [.wav] entry of a
    listing, the entry only leaves an error in the log, the file counter
    keeps the value it had before the attempt, no exception leaves the
    loop body, and the loop goes on with the remaining entries of the
    directory from that same counter. *)
Theorem failed_conversion_isolated (target : path) (c0 c : Z)
        (before rest : list node) (evs0 : list event)
        (name : ustring) (content : option decoded) :
  process_items target c0 before = (c, evs0, Normal) ->
  is_wav name = true ->
  convert_audio_file content (target ++ [normalize_name name c]) = None ->
  process_item target c (File name content)
    = (c, [LogConvertError name], Normal) /\
  process_items target c0 (before ++ File name content :: rest)
    = (let '(c', evs, fl) := process_items target c rest in
       (c', evs0 ++ LogConvertError name :: evs, fl)).
Proof.
  intros Hbefore Hwav Hfail.
  assert (Hitem : process_item target c (File name content)
                  = (c, [LogConvertError name], Normal)).
  { rewrite process_item_file. unfold process_file.
    now rewrite Hwav, Hfail. }
  split; [exact Hitem|].
  rewrite process_items_app, Hbefore, process_items_cons, Hitem.
  now destruct (process_items target c rest) as [[c' evs] fl].
Qed.

(** ** Where a run writes *)

Lemma node_nested_ind (P : node -> Prop) :
  (forall name content, P (File name content)) ->
  (forall name, P (Dir name None)) ->
  (forall name items, Forall P items -> P (Dir name (Some items))) ->
  (forall name, P (Special name)) ->
  (forall name, P (Inaccessible name)) ->
  forall n, P n.
Proof.
  intros Hfile Hnone Hsome Hspecial Hinacc. fix IH 1.
  intros [name content | name [items|] | name | name];
    [apply Hfile | | apply Hnone | apply Hspecial | apply Hinacc].
  apply Hsome.
  exact ((fix all (l : list node) : Forall P l :=
            match l with
            | [] => Forall_nil P
            | x :: r => Forall_cons x (IH x) (all r)
            end) items).
Qed.

Lemma written_paths_app evs1 evs2 :
  written_paths (evs1 ++ evs2) = written_paths evs1 ++ written_paths evs2.
Proof. apply flat_map_app. Qed.

Lemma Forall_longer (n m : nat) (ps : list path) :
  n <= m ->
  Forall (fun p => m < List.length p) ps ->
  Forall (fun p => n < List.length p) ps.
Proof.
  intros Hnm. apply Forall_impl. intros p Hp. lia.
Qed.

(** The events of a directory body, given those of its loop. *)
Lemma directory_body_written target listing loop :
  (forall items, listing = Some items ->
      Forall (fun p => List.length target < List.length p)
             (written_paths (snd (fst (loop 0%Z items))))) ->
  Forall (fun p => List.length target < List.length p)
         (written_paths (fst (directory_body target listing loop))).
Proof.
  intros Hloop. unfold directory_body.
  destruct (mkdir_ok target); [|constructor].
  destruct listing as [items|]; [|constructor].
  specialize (Hloop items eq_refl).
  destruct (loop 0%Z items) as [[c evs] [|]]; simpl in *; [exact Hloop|].
  rewrite written_paths_app, app_nil_r. exact Hloop.
Qed.

Lemma process_items_written target items :
  Forall (fun item => forall tgt c,
              Forall (fun p => List.length tgt < List.length p)
                     (written_paths (snd (fst (process_item tgt c item)))))
         items ->
  forall c,
    Forall (fun p => List.length target < List.length p)
           (written_paths (snd (fst (process_items target c items)))).
Proof.
  induction 1 as [|i r Hi _ IH]; intros c; [constructor|].
  rewrite process_items_cons. specialize (Hi target c).
  destruct (process_item target c i) as [[c1 evs1] [|]]; [|exact Hi].
  specialize (IH c1).
  destruct (process_items target c1 r) as [[c2 evs2] fl]. simpl in *.
  rewrite written_paths_app. apply Forall_app. auto.
Qed.

(** Every file is written below the directory being processed. *)
Lemma process_item_written item :
  forall target c,
    Forall (fun p => List.length target < List.length p)
           (written_paths (snd (fst (process_item target c item)))).
Proof.
  induction item as [name content | name | name items IH | name | name]
    using node_nested_ind; intros target c.
  - rewrite process_item_file. unfold process_file.
    destruct (is_wav name); [|constructor].
    destruct (convert_audio_file _ _); [|constructor].
    repeat constructor. rewrite length_app. simpl. lia.
  - rewrite process_item_dir. unfold process_directory, directory_body.
    destruct (mkdir_ok _); constructor.
  - rewrite process_item_dir.
    destruct (process_directory _ _) as [evs fl] eqn:E.
    change evs with (fst (evs, fl)). rewrite <- E.
    apply Forall_longer
      with (m := List.length (target ++ [normalize_name name 0]));
      [rewrite length_app; simpl; lia|].
    apply directory_body_written. intros items' [= <-].
    now apply process_items_written.
  - constructor.
  - constructor.
Qed.

Lemma process_directory_written target listing :
  Forall (fun p => List.length target < List.length p)
         (written_paths (fst (process_directory target listing))).
Proof.
  apply directory_body_written. intros items _.
  apply process_items_written.
  apply Forall_forall. intros item _. apply process_item_written.
Qed.

(** ** What the counter counts *)

Lemma direct_writes_app target evs1 evs2 :
  direct_writes target (evs1 ++ evs2)
  = direct_writes target evs1 + direct_writes target evs2.
Proof.
  unfold direct_writes.
  now rewrite written_paths_app, filter_app, length_app.
Qed.

Lemma removelast_length {A} (l : list A) :
  List.length (removelast l) = List.length l - 1.
Proof.
  induction l as [|x [|y r] IH]; try reflexivity.
  change (removelast (x :: y :: r)) with (x :: removelast (y :: r)).
  simpl List.length in *. lia.
Qed.

(** Files written further down are not counted. *)
Lemma direct_writes_deep target evs :
  Forall (fun p => S (List.length target) < List.length p)
         (written_paths evs) ->
  direct_writes target evs = 0.
Proof.
  unfold direct_writes. induction 1 as [|p ps Hp _ IH]; [reflexivity|].
  simpl. unfold in_directory at 1.
  destruct (list_eq_dec (list_eq_dec N.eq_dec) (removelast p) target)
    as [E|_]; [|exact IH].
  apply (f_equal (@List.length _)) in E. rewrite removelast_length in E.
  unfold path, ustring, uchar in *. lia.
Qed.

Lemma in_directory_child target (n : ustring) :
  in_directory target (target ++ [n]) = true.
Proof.
  unfold in_directory. rewrite removelast_last.
  now destruct (list_eq_dec (list_eq_dec N.eq_dec) target target).
Qed.

(** The counter goes up by one for each file written directly into the
    directory, and by nothing else. *)
Lemma process_item_counter target c item :
  fst (fst (process_item target c item))
  = (c + Z.of_nat (direct_writes target
                     (snd (fst (process_item target c item)))))%Z.
Proof.
  destruct item as [name content | name listing | name | name].
  - rewrite process_item_file. unfold process_file.
    destruct (is_wav name); [|simpl; lia].
    destruct (convert_audio_file _ _); [|simpl; lia].
    unfold direct_writes. simpl. rewrite in_directory_child. simpl. lia.
  - rewrite process_item_dir.
    pose proof (process_directory_written
                  (target ++ [normalize_name name 0]) listing) as Hw.
    destruct (process_directory _ listing) as [evs fl]. simpl in *.
    rewrite direct_writes_deep; [lia|].
    eapply Forall_impl; [|exact Hw]. cbv beta. intros p.
    rewrite length_app. simpl. lia.
  - simpl. lia.
  - simpl. lia.
Qed.

Lemma process_items_counter target items :
  forall c,
    fst (fst (process_items target c items))
    = (c + Z.of_nat (direct_writes target
                       (snd (fst (process_items target c items)))))%Z.
Proof.
  induction items as [|i r IH]; intros c; [simpl; lia|].
  rewrite process_items_cons.
  pose proof (process_item_counter target c i) as Hi.
  destruct (process_item target c i) as [[c1 evs1] [|]]; [|exact Hi].
  specialize (IH c1).
  destruct (process_items target c1 r) as [[c2 evs2] fl]. simpl in *.
  rewrite direct_writes_app. lia.
Qed.

(** ** C8 *)

(** C8: every call of [process_directory] runs its loop from counter 0;
    a sub-directory met in the loop is processed by such a call, under
    the name normalised with counter 0, whatever the counter of the
    enclosing directory is, and hands that counter back unchanged, so the
    entries after it continue from the value reached before it; and the
    counter of a loop only counts the files written directly into its
    own directory. *)
Theorem counter_is_local (target : path) (c : Z) (name : ustring)
        (listing : option (list node)) (items rest : list node) :
  process_directory target (Some items)
    = (if mkdir_ok target then
         match process_items target 0 items with
         | (_, evs, Normal) => (Mkdir target :: evs, Normal)
         | (_, evs, Raised) =>
             (Mkdir target :: evs ++ [LogDirectoryError target], Normal)
         end
       else ([], Raised)) /\
  process_item target c (Dir name listing)
    = (let (evs, fl) :=
         process_directory (target ++ [normalize_name name 0]) listing in
       (c, evs, fl)) /\
  process_items target c (Dir name listing :: rest)
    = match process_directory (target ++ [normalize_name name 0]) listing with
      | (evs, Normal) =>
          let '(c', evs', fl) := process_items target c rest in
          (c', evs ++ evs', fl)
      | (evs, Raised) => (c, evs, Raised)
      end /\
  fst (fst (process_items target c items))
    = (c + Z.of_nat (direct_writes target
                       (snd (fst (process_items target c items)))))%Z.
Proof.
  split; [reflexivity|]. split; [apply process_item_dir|].
  split; [|apply process_items_counter].
  rewrite process_items_cons, process_item_dir.
  destruct (process_directory _ listing) as [evs [|]]; [|reflexivity].
  now destruct (process_items target c rest) as [[c' evs'] fl].
Qed.

(** ** C10 *)

Lemma process_items_counter_le target items c c' evs fl :
  process_items target c items = (c', evs, fl) -> (c <= c')%Z.
Proof.
  intros E. pose proof (process_items_counter target items c) as Hc.
  rewrite E in Hc. simpl in Hc. lia.
Qed.

(** With a positive counter the stem gets its number. *)
Lemma normalize_name_numbered (name : ustring) (c : Z) :
  (0 < c)%Z -> clean_stem name <> [] ->
  normalize_name name c
  = clean_stem name ++ u "_" ++ fmt03d c ++ lower (PathLib.suffix name).
Proof.
  intros Hc Hne. rewrite NameFacts.normalize_name_split.
  unfold numbered_stem. destruct (clean_stem name); [congruence|].
  destruct (Z.gtb_spec c 0); [|lia].
  now rewrite <- !app_assoc.
Qed.

(** C10: the counter advances on every successful conversion, whether or
    not names collide.  Take any two qualifying [.wav] files of one
    directory that both convert, with any entries before them, between
    them and after them (other files, converted or not, sub-directories,
    other entries), the loop reaching the second file.  The first is
    written under its name normalised with the counter reached before
    it; nothing that lies between them lowers the counter, so the second
    is written under its name normalised with a counter that is greater
    and therefore positive, which appends [_] and the counter in three
    digits to the stem.  When nothing else was converted before, that
    suffix is [_001]. *)
Theorem counter_advances_on_success (target : path) (c0 c1 c2 : Z)
        (before middle rest : list node) (evs0 evs1 : list event)
        (n1 n2 : ustring) (a1 a2 : option decoded) (w1 w2 : wav_output) :
  (0 <= c0)%Z ->
  process_items target c0 before = (c1, evs0, Normal) ->
  is_wav n1 = true ->
  convert_audio_file a1 (target ++ [normalize_name n1 c1]) = Some w1 ->
  process_items target (c1 + 1) middle = (c2, evs1, Normal) ->
  is_wav n2 = true ->
  convert_audio_file a2 (target ++ [normalize_name n2 c2]) = Some w2 ->
  process_items target c0
    (before ++ File n1 a1 :: middle ++ File n2 a2 :: rest)
    = (let '(c', evs, fl) := process_items target (c2 + 1) rest in
       (c',
        evs0
        ++ [Written (target ++ [normalize_name n1 c1]) w1;
            LogProcessed n1 (normalize_name n1 c1)]
        ++ evs1
        ++ [Written (target ++ [normalize_name n2 c2]) w2;
            LogProcessed n2 (normalize_name n2 c2)]
        ++ evs,
        fl)) /\
  (c0 <= c1 < c2)%Z /\
  c2 = (c1 + 1 + Z.of_nat (direct_writes target evs1))%Z /\
  (clean_stem n2 <> [] ->
   normalize_name n2 c2
     = clean_stem n2 ++ u "_" ++ fmt03d c2 ++ lower (PathLib.suffix n2)) /\
  (c1 = 0%Z -> direct_writes target evs1 = 0 -> fmt03d c2 = u "001").
Proof.
  intros Hc0 Hbefore Hw1 Hc1 Hmiddle Hw2 Hc2.
  pose proof (process_items_counter_le _ _ _ Hbefore) as Hle1.
  pose proof (process_items_counter target middle (c1 + 1)) as Hcnt.
  rewrite Hmiddle in Hcnt. simpl in Hcnt.
  split; [|split; [lia|split; [exact Hcnt|split]]].
  - rewrite process_items_app, Hbefore, process_items_cons,
      (process_item_converted _ _ _ _ Hw1 Hc1).
    rewrite process_items_app, Hmiddle, process_items_cons,
      (process_item_converted _ _ _ _ Hw2 Hc2).
    destruct (process_items target (c2 + 1) rest) as [[c' evs] fl].
    reflexivity.
  - intros Hne. apply normalize_name_numbered; [lia | exact Hne].
  - intros E1 E2. rewrite Hcnt, E1, E2. reflexivity.
Qed.

End Mirror.

Lemma failed_conversion_isolated_witness :
  process_items (U := Fixtures.tables) (H := Fixtures.lib) (F := Fixtures.fs)
    Fixtures.import 0
    ([File Fixtures.kick (Some Fixtures.tone)]
       ++ File Fixtures.broken None
       :: [File Fixtures.snare (Some Fixtures.tone)])
  = (2%Z,
     [Written (Fixtures.import ++ [u "kick.wav"]) Fixtures.tone_out;
      LogProcessed Fixtures.kick (u "kick.wav");
      LogConvertError Fixtures.broken;
      Written (Fixtures.import ++ [u "snare_001.wav"]) Fixtures.tone_out;
      LogProcessed Fixtures.snare (u "snare_001.wav")],
     Normal).
Proof.
  destruct (@failed_conversion_isolated Fixtures.tables Fixtures.lib
              Fixtures.fs Fixtures.import 0 1
              [File Fixtures.kick (Some Fixtures.tone)]
              [File Fixtures.snare (Some Fixtures.tone)]
              [Written (Fixtures.import ++ [u "kick.wav"]) Fixtures.tone_out;
               LogProcessed Fixtures.kick (u "kick.wav")]
              Fixtures.broken None eq_refl eq_refl eq_refl)
    as [_ Hloop].
  rewrite Hloop. reflexivity.
Defined.

Lemma counter_advances_on_success_witness :
  process_items (U := Fixtures.tables) (H := Fixtures.lib) (F := Fixtures.fs)
    Fixtures.import 0
    ([File (u "readme.txt") None]
       ++ File Fixtures.kick (Some Fixtures.tone)
       :: [Dir (u "Drum Kit")
               (Some [File (u "Hi Hat.WAV") (Some Fixtures.tone)]);
           File Fixtures.broken None]
       ++ File Fixtures.snare (Some Fixtures.tone) :: [])
  = (2%Z,
     [LogSkipped (u "readme.txt")]
     ++ [Written (Fixtures.import ++ [u "kick.wav"]) Fixtures.tone_out;
         LogProcessed Fixtures.kick (u "kick.wav")]
     ++ [Mkdir [u "IMPORT"; u "Drum_Kit"];
         Written [u "IMPORT"; u "Drum_Kit"; u "Hi_Hat.wav"] Fixtures.tone_out;
         LogProcessed (u "Hi Hat.WAV") (u "Hi_Hat.wav");
         LogConvertError Fixtures.broken]
     ++ [Written (Fixtures.import ++ [u "snare_001.wav"]) Fixtures.tone_out;
         LogProcessed Fixtures.snare (u "snare_001.wav")]
     ++ [],
     Normal).
Proof.
  exact (proj1 (@counter_advances_on_success Fixtures.tables Fixtures.lib
                  Fixtures.fs Fixtures.import 0 0 1
                  [File (u "readme.txt") None]
                  [Dir (u "Drum Kit")
                       (Some [File (u "Hi Hat.WAV") (Some Fixtures.tone)]);
                   File Fixtures.broken None]
                  []
                  [LogSkipped (u "readme.txt")]
                  [Mkdir [u "IMPORT"; u "Drum_Kit"];
                   Written [u "IMPORT"; u "Drum_Kit"; u "Hi_Hat.wav"]
                           Fixtures.tone_out;
                   LogProcessed (u "Hi Hat.WAV") (u "Hi_Hat.wav");
                   LogConvertError Fixtures.broken]
                  Fixtures.kick Fixtures.snare
                  (Some Fixtures.tone) (Some Fixtures.tone)
                  Fixtures.tone_out Fixtures.tone_out
                  (Z.le_refl 0) eq_refl eq_refl eq_refl eq_refl eq_refl
                  eq_refl)).
Defined.

(** An entry that may not be examined ends the loop: [is_file()] raises,
    the handler of the enclosing call logs the error, and the entries
    after it are not processed. *)
Example inaccessible_entry_ends_loop :
  process_directory (U := Fixtures.tables) (H := Fixtures.lib)
    (F := Fixtures.fs) Fixtures.import
    (Some [File Fixtures.kick (Some Fixtures.tone);
           Inaccessible (u "private.wav");
           File Fixtures.snare (Some Fixtures.tone)])
  = ([Mkdir [u "IMPORT"];
      Written [u "IMPORT"; u "kick.wav"] Fixtures.tone_out;
      LogProcessed Fixtures.kick (u "kick.wav");
      LogDirectoryError [u "IMPORT"]],
     Normal).
Proof. reflexivity. Qed.

(** A listing with a sub-directory: the numbering of [Drum Kit] starts
    again at 0 and the numbering of the root goes on after it. *)
Example nested_numbering :
  written_paths
    (fst (process_directory (U := Fixtures.tables) (H := Fixtures.lib)
            (F := Fixtures.fs) Fixtures.import
            (Some [File Fixtures.kick (Some Fixtures.tone);
                   Dir (u "Drum Kit")
                       (Some [File (u "Hi Hat.WAV") (Some Fixtures.tone);
                              File (u "notes.txt") None;
                              File (u "Tom.wav") (Some Fixtures.tone)]);
                   File Fixtures.snare (Some Fixtures.tone)])))
  = [[u "IMPORT"; u "kick.wav"];
     [u "IMPORT"; u "Drum_Kit"; u "Hi_Hat.wav"];
     [u "IMPORT"; u "Drum_Kit"; u "Tom_001.wav"];
     [u "IMPORT"; u "snare_001.wav"]].
Proof. reflexivity. Qed.

End MirrorFacts.

(* ================================================================== *)
(** * Further properties of name normalisation *)

Module NameExtra.
Import Text NameNormalizer NameShape.

(** ** Reading the counter back *)

Lemma uint_value_pos (d : Decimal.uint) (acc : positive) :
  fold_left digit_step
    (map N_of_ascii (list_ascii_of_string (NilEmpty.string_of_uint d)))
    (Npos acc)
  = Npos (Pos.of_uint_acc d acc).
Proof.
  revert acc. induction d; intros acc; try reflexivity;
    cbn [NilEmpty.string_of_uint list_ascii_of_string map fold_left
         Pos.of_uint_acc];
    rewrite <- IHd; apply (f_equal (fold_left digit_step _));
    unfold digit_step, c_zero;
    match goal with
    | |- context [N_of_ascii ?c] =>
        let v := eval vm_compute in (N_of_ascii c) in
        change (N_of_ascii c) with v
    end; lia.
Qed.

Lemma uint_value (d : Decimal.uint) :
  fold_left digit_step
    (map N_of_ascii (list_ascii_of_string (NilEmpty.string_of_uint d))) 0%N
  = Pos.of_uint d.
Proof.
  induction d; simpl; try reflexivity; try exact IHd;
    match goal with
    | |- fold_left _ _ ?a = _ =>
        change a with (Npos 1) || change a with (Npos 2)
        || change a with (Npos 3) || change a with (Npos 4)
        || change a with (Npos 5) || change a with (Npos 6)
        || change a with (Npos 7) || change a with (Npos 8)
        || change a with (Npos 9)
    end; apply uint_value_pos.
Qed.

Lemma digits_value_decimal (n : N) : digits_value (decimal n) = n.
Proof.
  unfold digits_value, decimal, NilZero.string_of_uint.
  destruct (N.to_uint n) eqn:E;
    try (rewrite <- E, uint_value; apply DecimalN.Unsigned.of_to).
  pose proof (DecimalN.Unsigned.of_to n) as Hn. rewrite E in Hn.
  simpl in Hn. subst n. reflexivity.
Qed.

Lemma digits_value_zeros (k : nat) (s : ustring) :
  digits_value (repeat c_zero k ++ s) = digits_value s.
Proof.
  unfold digits_value. induction k; simpl; auto.
Qed.

(** The three-digit rendering of a counter can be read back. *)
Lemma digits_value_fmt03d (z : Z) :
  (0 <= z)%Z -> digits_value (fmt03d z) = Z.to_N z.
Proof.
  intros Hz. unfold fmt03d. destruct (Z.ltb_spec z 0); [lia|].
  unfold pad0. rewrite digits_value_zeros, digits_value_decimal.
  now destruct z.
Qed.

Lemma fmt03d_inj (a b : Z) :
  (0 <= a)%Z -> (0 <= b)%Z -> fmt03d a = fmt03d b -> a = b.
Proof.
  intros Ha Hb E. apply (f_equal digits_value) in E.
  rewrite !digits_value_fmt03d in E by assumption. lia.
Qed.

(** ** Underscores in the stem *)

Lemma us_neq0 : c_underscore <> 0%N.
Proof. discriminate. Qed.

Lemma nd_cons c r :
  no_double_underscore (c :: r)
  = negb ((c =? c_underscore)%N && (hd 0%N r =? c_underscore)%N)
    && no_double_underscore r.
Proof. reflexivity. Qed.

Lemma nd_no_underscore s :
  ~ In c_underscore s -> no_double_underscore s = true.
Proof.
  induction s as [|c r IH]; [reflexivity|]. intros Hn.
  rewrite nd_cons, IH by (intros Hr; apply Hn; now right).
  assert (Hc : (c =? c_underscore)%N = false).
  { apply N.eqb_neq. intros ->. apply Hn. now left. }
  now rewrite Hc.
Qed.

Lemma nd_app a b :
  no_double_underscore a = true -> no_double_underscore b = true ->
  (last a 0%N <> c_underscore \/ hd 0%N b <> c_underscore) ->
  no_double_underscore (a ++ b) = true.
Proof.
  intros Ha Hb Hj. induction a as [|c r IH]; [exact Hb|].
  rewrite <- app_comm_cons, nd_cons. rewrite nd_cons in Ha.
  apply andb_true_iff in Ha as [Hc Hr].
  destruct r as [|d r'].
  - simpl in *. rewrite Hb, andb_true_r.
    apply negb_true_iff, andb_false_iff.
    destruct Hj as [Hj|Hj]; [left|right]; now apply N.eqb_neq.
  - rewrite IH; [|exact Hr|exact Hj]. now rewrite andb_true_r.
Qed.

Lemma nd_app_inv a b :
  no_double_underscore (a ++ b) = true ->
  no_double_underscore a = true /\ no_double_underscore b = true.
Proof.
  induction a as [|c r IH]; [auto|].
  rewrite <- app_comm_cons, !nd_cons. intros H.
  apply andb_true_iff in H as [Hc Hr]. destruct (IH Hr) as [Ha Hb].
  split; [|exact Hb]. rewrite Ha, andb_true_r.
  destruct r as [|d r']; [|exact Hc].
  simpl. now rewrite andb_false_r.
Qed.

Lemma nd_collapse s : no_double_underscore (collapse_underscores s) = true.
Proof.
  induction s as [|c r IH]; [reflexivity|].
  rewrite NameFacts.collapse_cons.
  destruct (N.eqb_spec c c_underscore) as [->|Hc].
  - destruct r as [|d r']; [reflexivity|].
    destruct (N.eqb_spec d c_underscore) as [->|Hd]; [exact IH|].
    rewrite nd_cons, IH, andb_true_r.
    rewrite NameFacts.collapse_cons.
    apply N.eqb_neq in Hd. rewrite Hd. simpl. now rewrite Hd.
  - rewrite nd_cons, IH, andb_true_r.
    apply N.eqb_neq in Hc. now rewrite Hc.
Qed.

(** ** Trimming *)

Lemma lstrip_spec c s :
  c <> 0%N ->
  exists k, s = repeat c k ++ lstrip c s /\ hd 0%N (lstrip c s) <> c.
Proof.
  intros Hc0. induction s as [|x r IH].
  - exists 0. simpl. auto.
  - simpl. destruct (N.eqb_spec x c) as [->|Hx].
    + destruct IH as (k & E & Hh). exists (S k). simpl. now rewrite <- E.
    + exists 0. simpl. auto.
Qed.

Lemma rev_repeat {A} (x : A) k : rev (repeat x k) = repeat x k.
Proof.
  induction k as [|k IH]; [reflexivity|].
  simpl. rewrite IH. symmetry. apply repeat_cons.
Qed.

Lemma last_rev_hd (l : ustring) : last (rev l) 0%N = hd 0%N l.
Proof.
  destruct l as [|x r]; [reflexivity|]. simpl. apply last_last.
Qed.

Lemma rstrip_spec c s :
  c <> 0%N ->
  exists k, s = rstrip c s ++ repeat c k /\ last (rstrip c s) 0%N <> c.
Proof.
  intros Hc0. unfold rstrip.
  destruct (lstrip_spec (rev s) Hc0) as (k & E & Hh). exists k. split.
  - apply (f_equal (@rev _)) in E.
    rewrite rev_involutive, rev_app_distr, rev_repeat in E. exact E.
  - now rewrite last_rev_hd.
Qed.

Lemma strip_trimmed s : trimmed (strip c_underscore s) = true.
Proof.
  unfold strip, trimmed.
  destruct (lstrip_spec s us_neq0) as (k & _ & Hh).
  destruct (rstrip_spec (lstrip c_underscore s) us_neq0) as (m & E & Hl).
  apply andb_true_iff. split; apply negb_true_iff, N.eqb_neq; [|exact Hl].
  destruct (rstrip c_underscore (lstrip c_underscore s)) as [|x r] eqn:Er;
    [discriminate|].
  rewrite E in Hh. exact Hh.
Qed.

Lemma strip_nd s :
  no_double_underscore s = true ->
  no_double_underscore (strip c_underscore s) = true.
Proof.
  intros Hs. unfold strip.
  destruct (lstrip_spec s us_neq0) as (k & E & _).
  destruct (rstrip_spec (lstrip c_underscore s) us_neq0) as (m & E' & _).
  rewrite E in Hs. apply nd_app_inv in Hs as [_ Hs].
  rewrite E' in Hs. now apply nd_app_inv in Hs.
Qed.

Lemma sanitize_shape s :
  trimmed (sanitize s) = true /\ no_double_underscore (sanitize s) = true.
Proof.
  unfold sanitize. split; [apply strip_trimmed|].
  apply strip_nd, nd_collapse.
Qed.

(** The rendering of a counter holds no underscore and is not empty. *)
Lemma fmt03d_shape z :
  ~ In c_underscore (fmt03d z) /\ fmt03d z <> [] /\
  hd 0%N (fmt03d z) <> c_underscore /\ last (fmt03d z) 0%N <> c_underscore.
Proof.
  assert (Hd : forall n, ~ In c_underscore (decimal n)).
  { intros n Hin. pose proof (NameFacts.decimal_digits n) as Hdig.
    rewrite forallb_forall in Hdig. specialize (Hdig _ Hin). discriminate. }
  assert (Hne : forall n, decimal n <> []).
  { intros n E. pose proof (digits_value_decimal n) as Hv. rewrite E in Hv.
    pose proof (digits_value_decimal 0) as H0. subst n.
    vm_compute in E. discriminate. }
  assert (Hpad : forall w n, ~ In c_underscore (pad0 w (decimal n))).
  { intros w n Hin. unfold pad0 in Hin. apply in_app_or in Hin as [Hin|Hin].
    - apply repeat_spec in Hin. discriminate.
    - now apply Hd in Hin. }
  assert (Hnotin : ~ In c_underscore (fmt03d z)).
  { unfold fmt03d. destruct (z <? 0)%Z; [|apply Hpad].
    intros [Hin|Hin]; [discriminate | now apply Hpad in Hin]. }
  assert (Hnonempty : fmt03d z <> []).
  { unfold fmt03d. destruct (z <? 0)%Z; [discriminate|].
    unfold pad0. intros E. apply app_eq_nil in E as [_ E]. now apply Hne in E. }
  split; [exact Hnotin|]. split; [exact Hnonempty|].
  destruct (fmt03d z) as [|x r] eqn:E; [congruence|]. split.
  - simpl. intros ->. apply Hnotin. now left.
  - intros Hl. apply Hnotin. rewrite <- Hl.
    destruct (exists_last (l := x :: r)) as (l' & y & El); [discriminate|].
    rewrite El, last_last. apply in_or_app. right. now left.
Qed.

Lemma hd_app_nonempty (a b : ustring) :
  a <> [] -> hd 0%N (a ++ b) = hd 0%N a.
Proof. destruct a; [congruence | reflexivity]. Qed.

Lemma last_app_nonempty (a b : ustring) :
  b <> [] -> last (a ++ b) 0%N = last b 0%N.
Proof.
  intros Hb. destruct (exists_last Hb) as (l & y & ->).
  now rewrite app_assoc, !last_last.
Qed.

Section WithTables.
Context {U : UnicodeData}.

(** X1.  The part of a normalised name that precedes the extension never
    begins or ends with an underscore and never holds two underscores in
    a row, whatever the input and the counter. *)
Theorem normalized_stem_underscores (raw : ustring) (counter : Z) :
  exists s,
    normalize_name raw counter = s ++ lower (PathLib.suffix raw) /\
    trimmed s = true /\ no_double_underscore s = true.
Proof.
  exists (numbered_stem raw counter).
  split; [apply NameFacts.normalize_name_split|].
  destruct (fmt03d_shape counter) as (Hnotin & Hne & Hhd & Hlast).
  destruct (sanitize_shape (nfkd (PathLib.stem raw))) as [Htrim Hnd].
  fold (clean_stem raw) in Htrim, Hnd.
  unfold numbered_stem. destruct (clean_stem raw) as [|x r] eqn:E.
  - split.
    + unfold trimmed. rewrite last_app_nonempty by assumption.
      apply N.eqb_neq in Hlast. now rewrite Hlast.
    + apply nd_app; [reflexivity | now apply nd_no_underscore | now right].
  - destruct (counter >? 0)%Z; [|auto].
    unfold trimmed in *. apply andb_true_iff in Htrim as [Hh Hl].
    split.
    + rewrite hd_app_nonempty by discriminate. rewrite Hh.
      rewrite app_assoc, last_app_nonempty by assumption.
      apply N.eqb_neq in Hlast. now rewrite Hlast.
    + apply nd_app; [exact Hnd| |left].
      * apply nd_app; [reflexivity | now apply nd_no_underscore | now right].
      * now apply negb_true_iff, N.eqb_neq in Hl.
Qed.

(** X2.  Two names with the same cleaned stem and the same lower-cased
    extension are told apart by their counters: different counters, none
    negative, give different results. *)
Theorem distinct_counters_distinct_names (r1 r2 : ustring) (c1 c2 : Z) :
  clean_stem r1 = clean_stem r2 ->
  lower (PathLib.suffix r1) = lower (PathLib.suffix r2) ->
  (0 <= c1)%Z -> (0 <= c2)%Z -> c1 <> c2 ->
  normalize_name r1 c1 <> normalize_name r2 c2.
Proof.
  intros Hs He H1 H2 Hne E.
  rewrite !NameFacts.normalize_name_split, He in E.
  apply app_inv_tail in E. unfold numbered_stem in E. rewrite <- Hs in E.
  destruct (clean_stem r1) as [|x r].
  - apply app_inv_head in E. now apply fmt03d_inj in E.
  - destruct (Z.gtb_spec c1 0), (Z.gtb_spec c2 0); try lia.
    + apply app_inv_head in E. apply app_inv_head in E.
      now apply fmt03d_inj in E.
    + rewrite <- (app_nil_r (x :: r)) in E at 2.
      apply app_inv_head in E. discriminate.
    + rewrite <- (app_nil_r (x :: r)) in E at 1.
      apply app_inv_head in E. discriminate.
Qed.

End WithTables.

Lemma distinct_counters_distinct_names_witness :
  normalize_name (U := Fixtures.tables) (u "test.wav") 0 = u "test.wav" /\
  normalize_name (U := Fixtures.tables) (u "te-st.WAV") 1 = u "test_001.wav" /\
  normalize_name (U := Fixtures.tables) (u "test.wav") 0
    <> normalize_name (U := Fixtures.tables) (u "te-st.WAV") 1.
Proof.
  split; [reflexivity|]. split; [reflexivity|].
  apply (@distinct_counters_distinct_names Fixtures.tables
           (u "test.wav") (u "te-st.WAV") 0 1); try reflexivity; lia.
Defined.

(** ** Names that are already normalised *)

Lemma ueqb_neq a b : a <> b -> ueqb a b = false.
Proof. unfold ueqb. now destruct (list_eq_dec N.eq_dec a b). Qed.

Lemma split_on_no_sep sep s : ~ In sep s -> split_on sep s = [s].
Proof.
  induction s as [|c r IH]; [reflexivity|]. intros Hn. simpl.
  destruct (N.eqb_spec c sep) as [->|_]; [exfalso; apply Hn; now left|].
  rewrite IH; [reflexivity|]. intros Hr. apply Hn. now right.
Qed.

Lemma rfind_none c s : ~ In c s -> rfind c s = None.
Proof.
  induction s as [|x r IH]; [reflexivity|]. intros Hn. simpl.
  rewrite IH by (intros Hr; apply Hn; now right).
  destruct (N.eqb_spec x c) as [->|_]; [exfalso; apply Hn; now left|].
  reflexivity.
Qed.

Lemma rfind_app_found c a b i :
  rfind c b = Some i -> rfind c (a ++ b) = Some (List.length a + i).
Proof.
  intros Hb. induction a as [|x r IH]; [exact Hb|].
  simpl. now rewrite IH.
Qed.

Lemma word_char_plain c :
  is_word c = true -> c <> c_dot /\ c <> c_slash /\ c <> c_space.
Proof.
  unfold is_word, is_lower, is_upper, is_digit, in_range, c_underscore,
    c_dot, c_slash, c_space.
  rewrite !orb_true_iff, !andb_true_iff, !N.leb_le, N.eqb_eq. lia.
Qed.

Lemma lower_alnum_word c : is_lower_alnum c = true -> is_word c = true.
Proof.
  unfold is_lower_alnum, is_word. rewrite !orb_true_iff. tauto.
Qed.

Lemma word_not_in w c :
  forallb is_word w = true ->
  (c = c_dot \/ c = c_slash \/ c = c_space) -> ~ In c w.
Proof.
  intros Hw Hc Hin. rewrite forallb_forall in Hw.
  destruct (word_char_plain _ (Hw _ Hin)) as (H1 & H2 & H3).
  destruct Hc as [-> | [-> | ->]]; congruence.
Qed.

(** Where [pathlib] cuts a name made of a word and an extension of the
    destination pattern. *)
Lemma stem_suffix_of_pattern w e :
  w <> [] -> forallb is_word w = true -> ext_ok e = true ->
  PathLib.stem (w ++ e) = w /\ PathLib.suffix (w ++ e) = e.
Proof.
  intros Hne Hw He.
  apply NameFacts.ext_ok_spec in He.
  assert (Hx : forall x, forallb is_lower_alnum x = true ->
                         forallb is_word x = true).
  { intros x Hx. apply forallb_forall. intros c Hc.
    rewrite forallb_forall in Hx. now apply lower_alnum_word, Hx. }
  assert (Hslash : ~ In c_slash (w ++ e)).
  { intros Hin. apply in_app_or in Hin as [Hin|Hin].
    - revert Hin. apply word_not_in; auto.
    - destruct He as [->|(x & -> & _ & Hlx)]; [destruct Hin|].
      destruct Hin as [Hin|Hin]; [discriminate|].
      revert Hin. apply word_not_in; auto. }
  assert (Hname : PathLib.name (w ++ e) = w ++ e).
  { unfold PathLib.name. rewrite split_on_no_sep by assumption.
    destruct w as [|c w']; [congruence|].
    assert (Hcomp : PathLib.is_component ((c :: w') ++ e) = true).
    { unfold PathLib.is_component.
      rewrite ueqb_neq by discriminate.
      rewrite ueqb_neq; [reflexivity|].
      simpl. intros [= -> _]. simpl in Hw. discriminate. }
    simpl filter. simpl in Hcomp. rewrite Hcomp. reflexivity. }
  unfold PathLib.stem, PathLib.suffix. rewrite Hname.
  unfold PathLib.suffix_index.
  destruct He as [->|(x & -> & Hxne & Hlx)].
  - rewrite app_nil_r, rfind_none by (apply word_not_in; auto). auto.
  - rewrite (rfind_app_found c_dot w (c_dot :: x) (i := 0)).
    + rewrite Nat.add_0_r, length_app.
      assert (Hlen : (0 <? List.length w)
                     && (List.length w
                         <? List.length w + List.length (c_dot :: x) - 1)
                     = true).
      { destruct w; [congruence|]. destruct x; [congruence|].
        simpl List.length. apply andb_true_iff.
        split; [reflexivity | apply Nat.ltb_lt; lia]. }
      rewrite Hlen.
      rewrite firstn_app, Nat.sub_diag, firstn_all, skipn_app, Nat.sub_diag,
        skipn_all. simpl. now rewrite app_nil_r.
    + cbn [rfind]. rewrite rfind_none by (apply word_not_in; auto).
      reflexivity.
Qed.

Lemma replace_spaces_word w :
  forallb is_word w = true -> replace_spaces w = w.
Proof.
  induction w as [|c r IH]; [reflexivity|]. simpl. intros H.
  apply andb_true_iff in H as [Hc Hr].
  destruct (word_char_plain _ Hc) as (_ & _ & Hsp).
  apply N.eqb_neq in Hsp. now rewrite Hsp, IH.
Qed.

Lemma remove_non_word_word w :
  forallb is_word w = true -> remove_non_word w = w.
Proof.
  induction w as [|c r IH]; [reflexivity|]. simpl. intros H.
  apply andb_true_iff in H as [Hc Hr]. now rewrite Hc, IH.
Qed.

Lemma collapse_nd s :
  no_double_underscore s = true -> collapse_underscores s = s.
Proof.
  induction s as [|c r IH]; [reflexivity|].
  rewrite nd_cons, NameFacts.collapse_cons. intros H.
  apply andb_true_iff in H as [Hc Hr]. rewrite (IH Hr).
  destruct (c =? c_underscore)%N; [|reflexivity].
  destruct r as [|d r']; [reflexivity|].
  simpl in Hc. apply negb_true_iff in Hc. now rewrite Hc.
Qed.

Lemma strip_trimmed_id s :
  trimmed s = true -> strip c_underscore s = s.
Proof.
  unfold trimmed, strip, rstrip. intros H.
  apply andb_true_iff in H as [Hh Hl].
  apply negb_true_iff, N.eqb_neq in Hh, Hl.
  rewrite (NameFacts.lstrip_id c_underscore s)
    by (destruct s; [exact I | exact Hh]).
  rewrite NameFacts.lstrip_id; [apply rev_involutive|].
  destruct (rev s) as [|y t] eqn:E; [exact I|].
  assert (Es : s = rev t ++ [y]).
  { rewrite <- (rev_involutive s), E. reflexivity. }
  rewrite Es, last_last in Hl. exact Hl.
Qed.

Lemma sanitize_clean_form w : clean_form w = true -> sanitize w = w.
Proof.
  unfold clean_form. intros H.
  apply andb_true_iff in H as [H Hnd]. apply andb_true_iff in H as [H Htr].
  apply andb_true_iff in H as [_ Hw]. unfold sanitize.
  rewrite replace_spaces_word, remove_non_word_word, collapse_nd by assumption.
  now apply strip_trimmed_id.
Qed.

(** X3.  A name that already has the destination form - a clean stem
    followed by nothing or by a dot and lower-case letters and digits -
    is left unchanged by [normalize_name] with counter 0, provided the
    Unicode tables leave its ASCII characters alone. *)
Theorem normalize_name_fixed_point {U : UnicodeData} (w e : ustring) :
  clean_form w = true -> ext_ok e = true ->
  nfkd w = w -> lower e = e ->
  normalize_name (w ++ e) 0 = w ++ e /\ NameRe (w ++ e).
Proof.
  intros Hcf He Hn Hl.
  assert (Hparts : w <> [] /\ forallb is_word w = true).
  { unfold clean_form in Hcf.
    apply andb_true_iff in Hcf as [H _]. apply andb_true_iff in H as [H _].
    apply andb_true_iff in H as [Hne Hw].
    split; [destruct w; [discriminate Hne | discriminate] | exact Hw]. }
  destruct Hparts as [Hne Hw].
  destruct (stem_suffix_of_pattern e Hne Hw He) as [Hstem Hsuf].
  split.
  - rewrite NameFacts.normalize_name_split.
    unfold numbered_stem, clean_stem.
    rewrite Hstem, Hsuf, Hn, Hl, (sanitize_clean_form w Hcf).
    destruct w; [congruence | reflexivity].
  - exists w, e. repeat split; auto. now apply NameFacts.ext_ok_spec.
Qed.

Lemma normalize_name_fixed_point_witness :
  normalize_name (U := Fixtures.tables) (u "kick_01.wav") 0
    = u "kick_01.wav".
Proof.
  exact (proj1 (@normalize_name_fixed_point Fixtures.tables
                  (u "kick_01") (u ".wav")
                  eq_refl eq_refl eq_refl eq_refl)).
Defined.

(** X4.  The SMB script and the local script (with counter 0) give a
    name the same normalised form exactly when its cleaned stem is not
    empty; they part only on the fallback, [unnamed] against
    [unnamed_000]. *)
Theorem smb_name_agrees_with_local {U : UnicodeData} (raw : ustring) :
  normalize_name_smb raw = normalize_name raw 0 <-> clean_stem raw <> [].
Proof.
  rewrite NameFacts.normalize_name_split.
  unfold normalize_name_smb, numbered_stem. fold (clean_stem raw).
  destruct (clean_stem raw) as [|x r]; split.
  - intros E. apply app_inv_tail in E. discriminate.
  - congruence.
  - discriminate.
  - reflexivity.
Qed.

End NameExtra.

(* ================================================================== *)
(** * Further properties of the audio conversion *)

Module AudioExtra.
Import Text Binary64 Audio.

Lemma select_rate_value (r : Z) :
  select_rate r = Some (if (r <=? 46050)%Z then 44100%Z else 48000%Z).
Proof.
  unfold select_rate, supported_sample_rates, py_min, min_from.
  destruct (Z.ltb_spec (Z.abs (48000 - r)) (Z.abs (44100 - r)));
    destruct (Z.leb_spec r 46050); try reflexivity; lia.
Qed.

(** X5.  Rate selection has one threshold: an input rate of at most
    46050 Hz, half-way between the two supported rates, is mapped to
    44100 Hz, the tie included; every higher rate is mapped to
    48000 Hz; and the rate chosen is never farther from the input rate
    than the other one. *)
Theorem select_rate_threshold (r : Z) :
  select_rate r = Some (if (r <=? 46050)%Z then 44100%Z else 48000%Z) /\
  forall t, select_rate r = Some t ->
            (Z.abs (t - r) <= Z.abs (44100 - r)
             /\ Z.abs (t - r) <= Z.abs (48000 - r))%Z.
Proof.
  split; [apply select_rate_value|].
  intros t. rewrite select_rate_value. intros [= <-].
  destruct (Z.leb_spec r 46050); lia.
Qed.

Lemma select_rate_supported r :
  In r supported_sample_rates -> select_rate r = Some r.
Proof.
  intros [<-|[<-|[]]]; reflexivity.
Qed.

Lemma resample_step_same {L : AudioLib} data r :
  resample_step data r r = Some data.
Proof. unfold resample_step. now rewrite Z.eqb_refl. Qed.

(** X6.  A successful conversion always writes at 44100 or 48000 Hz, and
    a file that is already at one of these rates keeps its rate, its
    number of frames and its number of channels: it is not resampled. *)
Theorem compliant_rate_untouched {L : AudioLib} (data : ndarray Q)
        (rate : Z) (out : path) (w : wav_output) :
  convert_audio_file (Some (data, rate)) out = Some w ->
  In (out_rate w) supported_sample_rates /\
  (In rate supported_sample_rates ->
   out_rate w = rate /\ len (pcm w) = len data /\
   channels (pcm w) = channels data).
Proof.
  intros Hc.
  apply AudioFacts.convert_inv in Hc
    as (target & data' & peak & Hs & Hr & _ & _ & ->).
  simpl. split.
  - rewrite select_rate_value in Hs. injection Hs as <-.
    destruct (_ <=? _)%Z; simpl; auto.
  - intros Hin. rewrite (select_rate_supported Hin) in Hs.
    injection Hs as <-. rewrite resample_step_same in Hr.
    injection Hr as <-.
    now rewrite AudioFacts.len_amap, AudioFacts.len_peak_normalize,
      AudioFacts.channels_amap, AudioFacts.channels_peak_normalize.
Qed.

Lemma compliant_rate_untouched_witness :
  In (out_rate Fixtures.tone_out) supported_sample_rates /\
  out_rate Fixtures.tone_out = 44100%Z /\
  len (pcm Fixtures.tone_out) = 2.
Proof.
  assert (Hc : convert_audio_file (H := Fixtures.lib)
                 (Some Fixtures.tone) [] = Some Fixtures.tone_out)
    by reflexivity.
  destruct (@compliant_rate_untouched Fixtures.lib _ _ _ _ Hc)
    as [Hin Hsame].
  split; [exact Hin|].
  destruct Hsame as (Hrate & Hlen & _); [simpl; auto|].
  split; [exact Hrate | exact Hlen].
Defined.

(** ** Headroom *)

Lemma quantize_headroom (s : Q) :
  (- headroom <= s <= headroom)%Q -> (Z.abs (quantize s) <= 31128)%Z.
Proof.
  intros [Hlo Hhi]. pose proof AudioFacts.headroom_range as [_ Hh1].
  assert (Hunit : (-1 <= s <= 1)%Q) by (split; lra).
  destruct (AudioFacts.quantize_unit Hunit) as [-> _].
  pose proof (AudioFacts.scaled_le Hlo) as H1.
  pose proof (AudioFacts.scaled_le Hhi) as H2.
  assert (E1 : Qtrunc (round64 (- headroom * (32767 # 1))) = (-31128)%Z)
    by (vm_compute; reflexivity).
  assert (E2 : Qtrunc (round64 (headroom * (32767 # 1))) = 31128%Z)
    by (vm_compute; reflexivity).
  lia.
Qed.

(** X7.  For a file whose samples, as read and as resampled, are finite
    numbers, every sample written by a successful conversion is at most
    31128 in absolute value, the integer part of the binary64 product
    [0.95 * 32767]: the output neither clips nor wraps. *)
Theorem output_headroom {L : AudioLib} (data : ndarray Q) (rate : Z)
        (out : path) (w : wav_output) :
  convert_audio_file (Some (data, rate)) out = Some w ->
  Forall (fun z => (Z.abs z <= 31128)%Z) (elements (pcm w)).
Proof.
  intros Hc.
  apply AudioFacts.convert_inv in Hc
    as (target & data' & peak & _ & _ & Hp & _ & ->).
  simpl. rewrite AudioFacts.elements_amap, Forall_map.
  eapply Forall_impl; [|exact (AudioFacts.peak_normalize_headroom _ Hp)].
  cbv beta. intros x Hx. now apply quantize_headroom.
Qed.

Lemma output_headroom_witness :
  Forall (fun z => (Z.abs z <= 31128)%Z) (elements (pcm Fixtures.tone_out)).
Proof.
  assert (Hc : convert_audio_file (H := Fixtures.lib)
                 (Some Fixtures.tone) [] = Some Fixtures.tone_out)
    by reflexivity.
  exact (@output_headroom Fixtures.lib _ _ _ _ Hc).
Defined.

(** X8.  For a decoded file that is already at a supported rate, the
    conversion succeeds exactly when the file holds at least one sample
    and the output can be written. *)
Theorem convert_succeeds_iff {L : AudioLib} (data : ndarray Q) (rate : Z)
        (out : path) :
  In rate supported_sample_rates ->
  ((exists w, convert_audio_file (Some (data, rate)) out = Some w) <->
   elements data <> [] /\ sf_write_ok out = true).
Proof.
  intros Hin. unfold convert_audio_file.
  rewrite (select_rate_supported Hin), resample_step_same.
  unfold np_max_abs. destruct (elements data) as [|x r].
  - split; [intros [w Hw]; discriminate | intros [Hne _]; congruence].
  - destruct (sf_write_ok out).
    + split; [split; [discriminate | reflexivity] | eauto].
    + split; [intros [w Hw]; discriminate | intros [_ Hf]; discriminate].
Qed.

Lemma convert_succeeds_iff_witness :
  (exists w,
     convert_audio_file (H := Fixtures.lib) (Some Fixtures.tone) []
       = Some w) /\
  ~ (exists w,
       convert_audio_file (H := Fixtures.lib) (Some Fixtures.no_frames) []
         = Some w).
Proof.
  assert (H441 : In 44100%Z supported_sample_rates) by (simpl; auto).
  split.
  - apply (proj2 (@convert_succeeds_iff Fixtures.lib
                    (fst Fixtures.tone) 44100%Z [] H441)).
    split; [discriminate | reflexivity].
  - intros He.
    apply (proj1 (@convert_succeeds_iff Fixtures.lib
                    (fst Fixtures.no_frames) 44100%Z [] H441)) in He.
    destruct He as [Hne _]. now apply Hne.
Defined.

(** ** The loudest sample *)

Lemma fold_max_attained (l : list Q) (acc : Q) :
  (fold_left Qmax l acc == acc)%Q \/
  Exists (fun y => (fold_left Qmax l acc == y)%Q) l.
Proof.
  revert acc. induction l as [|y l IH]; intros acc; simpl.
  - left. reflexivity.
  - destruct (IH (Qmax acc y)) as [E|E].
    + destruct (Q.max_spec acc y) as [[_ Hm]|[_ Hm]];
        pose proof (Qeq_trans _ _ _ E Hm) as E'.
      * right. now constructor.
      * now left.
    + right. now constructor 2.
Qed.

Lemma np_max_abs_attained a peak :
  np_max_abs a = Some peak ->
  exists x, In x (elements a) /\ (Qabs x == peak)%Q.
Proof.
  unfold np_max_abs. destruct (elements a) as [|x r]; [discriminate|].
  intros [= <-].
  destruct (fold_max_attained (map Qabs r) (Qabs x)) as [E|E].
  - exists x. split; [now left | now symmetry].
  - apply Exists_exists in E as (y & Hy & E).
    apply in_map_iff in Hy as (x' & <- & Hx').
    exists x'. split; [now right | now symmetry].
Qed.

Lemma full_scale_sample (x peak : Q) :
  (0 < peak)%Q -> (Qabs x == peak)%Q ->
  Z.abs (quantize (round64 (round64 (x / peak) * headroom))) = 31128%Z.
Proof.
  intros Hpk Hx.
  destruct (Qlt_le_dec x 0) as [Hneg|Hpos].
  - rewrite Qabs_neg in Hx by lra.
    assert (E : (x == - peak)%Q) by lra.
    rewrite (AudioFacts.scale_neg_peak Hpk E). vm_compute. reflexivity.
  - rewrite Qabs_pos in Hx by lra.
    rewrite (AudioFacts.scale_peak Hpk Hx). vm_compute. reflexivity.
Qed.

(** X9.  When the samples that reach peak normalisation are finite
    numbers and not all 0, a successful conversion writes at least one
    sample of absolute value 31128: the loudest sample is brought to
    95 % of full scale. *)
Theorem peak_reaches_headroom {L : AudioLib} (data data' : ndarray Q)
        (rate target : Z) (out : path) (w : wav_output) :
  select_rate rate = Some target ->
  resample_step data rate target = Some data' ->
  Exists (fun x => ~ (x == 0)%Q) (elements data') ->
  convert_audio_file (Some (data, rate)) out = Some w ->
  Exists (fun z => Z.abs z = 31128%Z) (elements (pcm w)).
Proof.
  intros Hs Hr Hnz Hc.
  apply AudioFacts.convert_inv in Hc
    as (target0 & data0 & peak & Hs0 & Hr0 & Hp & _ & ->).
  rewrite Hs in Hs0. injection Hs0 as <-.
  rewrite Hr in Hr0. injection Hr0 as <-.
  assert (Hpk : (0 < peak)%Q).
  { apply Exists_exists in Hnz as (x & Hx & Hx0).
    pose proof (AudioFacts.np_max_abs_upper _ Hp) as Hup.
    rewrite Forall_forall in Hup. specialize (Hup _ Hx).
    eapply Qlt_le_trans; [|exact Hup].
    destruct (Qlt_le_dec 0 (Qabs x)) as [Hlt|Hle]; [exact Hlt|].
    exfalso. apply Hx0. destruct x as [n d].
    unfold Qle, Qabs, Qeq in *. simpl in *. lia. }
  destruct (np_max_abs_attained _ Hp) as (x0 & Hin & Hx0).
  simpl. apply Exists_exists.
  exists (quantize (round64 (round64 (x0 / peak) * headroom))). split.
  - rewrite AudioFacts.elements_amap. apply in_map.
    unfold peak_normalize, Qpositive.
    assert (Hnum : (0 <? Qnum peak)%Z = true).
    { apply Z.ltb_lt. unfold Qlt in Hpk. simpl in Hpk. lia. }
    rewrite Hnum, AudioFacts.elements_amap.
    now apply (in_map (fun x => round64 (round64 (x / peak) * headroom))).
  - now apply full_scale_sample.
Qed.

Lemma peak_reaches_headroom_witness :
  Exists (fun z => Z.abs z = 31128%Z) (elements (pcm Fixtures.tone_out)).
Proof.
  assert (Hc : convert_audio_file (H := Fixtures.lib)
                 (Some Fixtures.tone) [] = Some Fixtures.tone_out)
    by reflexivity.
  apply (@peak_reaches_headroom Fixtures.lib (fst Fixtures.tone)
           (fst Fixtures.tone) 44100%Z 44100%Z [] _ eq_refl eq_refl);
    [|exact Hc].
  constructor. simpl. intros E. discriminate E.
Defined.

(** ** Order and polarity *)

(** The scaling of peak normalisation, as one function of a sample. *)
Lemma peak_normalize_elements peak a :
  elements (peak_normalize peak a)
  = map (fun x => if Qpositive peak
                  then round64 (round64 (x / peak) * headroom) else x)
        (elements a).
Proof.
  unfold peak_normalize. destruct (Qpositive peak).
  - apply AudioFacts.elements_amap.
  - symmetry. apply map_id.
Qed.

Lemma scale_mono peak (x y : Q) :
  (x <= y)%Q ->
  ((if Qpositive peak then round64 (round64 (x / peak) * headroom) else x)
   <= (if Qpositive peak then round64 (round64 (y / peak) * headroom)
       else y))%Q.
Proof.
  intros Hxy. unfold Qpositive.
  destruct (Z.ltb_spec 0 (Qnum peak)) as [Hpos|_]; [|exact Hxy].
  apply AudioFacts.scale_le; [|exact Hxy]. unfold Qlt. simpl. lia.
Qed.

Lemma scale_nonneg peak (x : Q) :
  (0 <= x)%Q ->
  (0 <= (if Qpositive peak then round64 (round64 (x / peak) * headroom)
         else x))%Q.
Proof.
  intros Hx. unfold Qpositive.
  destruct (Z.ltb_spec 0 (Qnum peak)) as [Hpos|_]; [|exact Hx].
  apply Binary64Facts.round64_nonneg.
  apply Qmult_le_0_compat; [|apply AudioFacts.headroom_range].
  apply Binary64Facts.round64_nonneg. unfold Qdiv.
  apply Qmult_le_0_compat; [exact Hx|].
  apply Qinv_le_0_compat. unfold Qle. simpl. lia.
Qed.

Lemma scale_nonpos peak (x : Q) :
  (x <= 0)%Q ->
  ((if Qpositive peak then round64 (round64 (x / peak) * headroom)
    else x) <= 0)%Q.
Proof.
  intros Hx. unfold Qpositive.
  destruct (Z.ltb_spec 0 (Qnum peak)) as [Hpos|_]; [|exact Hx].
  assert (Hinv : (0 <= / peak)%Q).
  { apply Qinv_le_0_compat. unfold Qle. simpl. lia. }
  assert (Hdiv : (x / peak <= 0)%Q).
  { unfold Qdiv. assert (E : (0 == 0 * / peak)%Q) by ring.
    rewrite E. now apply Qmult_le_compat_r. }
  apply Binary64Facts.round64_nonpos.
  assert (E : (0 == 0 * headroom)%Q) by ring.
  rewrite E. apply Qmult_le_compat_r; [|apply AudioFacts.headroom_range].
  now apply Binary64Facts.round64_nonpos.
Qed.

(** X10.  For a file of finite samples at a supported rate the
    conversion applies one and the same function to every sample; on the
    samples of the file this function, binary64 rounding included, never
    reverses the order of two samples and never flips a sign. *)
Theorem conversion_keeps_order {L : AudioLib} (data : ndarray Q) (rate : Z)
        (out : path) (w : wav_output) :
  In rate supported_sample_rates ->
  convert_audio_file (Some (data, rate)) out = Some w ->
  exists f : Q -> Z,
    elements (pcm w) = map f (elements data) /\
    (forall x y, In x (elements data) -> In y (elements data) ->
                 (x <= y)%Q -> (f x <= f y)%Z) /\
    (forall x, In x (elements data) -> (0 <= f x * Qnum x)%Z).
Proof.
  intros Hin Hc.
  apply AudioFacts.convert_inv in Hc
    as (target & data' & peak & Hs & Hr & Hp & _ & ->).
  rewrite (select_rate_supported Hin) in Hs. injection Hs as <-.
  rewrite resample_step_same in Hr. injection Hr as <-.
  set (h := fun x : Q =>
              if Qpositive peak
              then round64 (round64 (x / peak) * headroom) else x).
  exists (fun x => quantize (h x)).
  assert (Hunit : forall x, In x (elements data) -> (-1 <= h x <= 1)%Q).
  { intros x Hx.
    pose proof (AudioFacts.peak_normalize_unit _ Hp) as Hall.
    rewrite peak_normalize_elements, Forall_map, Forall_forall in Hall.
    now apply Hall. }
  split; [|split].
  - simpl. now rewrite AudioFacts.elements_amap, peak_normalize_elements,
      map_map.
  - intros x y Hx Hy Hxy. apply AudioFacts.quantize_le; auto.
    now apply scale_mono.
  - intros x Hx. destruct (Z.le_gt_cases 0 (Qnum x)) as [Hn|Hn].
    + apply Z.mul_nonneg_nonneg; [|exact Hn].
      apply AudioFacts.quantize_nonneg; [now apply Hunit|].
      apply scale_nonneg. unfold Qle. simpl. lia.
    + apply Z.mul_nonpos_nonpos; [|lia].
      apply AudioFacts.quantize_nonpos; [now apply Hunit|].
      apply scale_nonpos. unfold Qle. simpl. lia.
Qed.

Lemma conversion_keeps_order_witness :
  exists f : Q -> Z,
    elements (pcm Fixtures.tone_out) = map f (elements (fst Fixtures.tone)) /\
    (f (-1 # 2)%Q <= f 1%Q)%Z.
Proof.
  assert (Hc : convert_audio_file (H := Fixtures.lib)
                 (Some Fixtures.tone) [] = Some Fixtures.tone_out)
    by reflexivity.
  assert (H441 : In 44100%Z supported_sample_rates) by (simpl; auto).
  destruct (@conversion_keeps_order Fixtures.lib _ _ _ _ H441 Hc)
    as (f & Hmap & Hord & _).
  exists f. split; [exact Hmap|].
  apply Hord; simpl; auto. unfold Qle. simpl. lia.
Defined.

End AudioExtra.

(* ================================================================== *)
(** * Further properties of the directory mirror *)

Module MirrorExtra.
Import Text NameNormalizer Audio TreeMirror Runner MirrorShape.

Section Mirror.
Context {U : UnicodeData} {L : AudioLib} {F : TargetFs}.

(** ** Faults of a sub-directory *)

(** X11.  A sub-directory that cannot be listed is skipped: its
    directory is created, one error is logged, and the loop of the
    enclosing directory goes on with the remaining entries from the same
    counter. *)
Theorem unreadable_subdirectory_skipped (target : path) (c0 c : Z)
        (before rest : list node) (evs0 : list event) (name : ustring) :
  process_items target c0 before = (c, evs0, Normal) ->
  mkdir_ok (target ++ [normalize_name name 0]) = true ->
  process_items target c0 (before ++ Dir name None :: rest)
    = (let '(c', evs, fl) := process_items target c rest in
       (c',
        evs0 ++ Mkdir (target ++ [normalize_name name 0])
             :: LogDirectoryError (target ++ [normalize_name name 0])
             :: evs,
        fl)).
Proof.
  intros Hbefore Hmk.
  rewrite MirrorFacts.process_items_app, Hbefore,
    MirrorFacts.process_items_cons, MirrorFacts.process_item_dir.
  unfold process_directory, directory_body. rewrite Hmk.
  now destruct (process_items target c rest) as [[c' evs] fl].
Qed.

(** X12.  When the destination of a sub-directory cannot be created, the
    exception ends the loop of the enclosing directory: the entries
    listed after the sub-directory are not processed at all.  The
    enclosing call logs one error and returns normally. *)
Theorem subdirectory_mkdir_failure_ends_loop (target : path) (c : Z)
        (before rest : list node) (evs0 : list event) (name : ustring)
        (listing : option (list node)) :
  process_items target 0 before = (c, evs0, Normal) ->
  mkdir_ok target = true ->
  mkdir_ok (target ++ [normalize_name name 0]) = false ->
  process_directory target (Some (before ++ Dir name listing :: rest))
    = (Mkdir target :: evs0 ++ [LogDirectoryError target], Normal).
Proof.
  intros Hbefore Hroot Hsub.
  unfold process_directory at 1. unfold directory_body at 1.
  rewrite Hroot, MirrorFacts.process_items_app, Hbefore,
    MirrorFacts.process_items_cons, MirrorFacts.process_item_dir.
  unfold process_directory, directory_body. rewrite Hsub.
  cbn iota beta. now rewrite app_nil_r.
Qed.

(** ** An invariant of every event *)

Section Invariant.
Variable D : path -> Prop.
Variable Q : event -> Prop.
Hypothesis D_child : forall t x, D t -> D (t ++ [x]).
Hypothesis Q_mkdir : forall t, D t -> Q (Mkdir t).
Hypothesis Q_written :
  forall t c name w,
    D t -> (0 <= c)%Z -> is_wav name = true ->
    Q (Written (t ++ [normalize_name name c]) w).
Hypothesis Q_log :
  forall e, match e with Mkdir _ | Written _ _ => True | _ => Q e end.

Lemma directory_body_invariant target listing loop :
  D target ->
  (forall items, listing = Some items ->
                 Forall Q (snd (fst (loop 0%Z items)))) ->
  Forall Q (fst (directory_body target listing loop)).
Proof.
  intros Hd Hloop. unfold directory_body.
  destruct (mkdir_ok target); [|constructor].
  destruct listing as [items|].
  - specialize (Hloop items eq_refl).
    destruct (loop 0%Z items) as [[c evs] [|]]; simpl in *.
    + constructor; auto.
    + constructor; auto. apply Forall_app. split; [exact Hloop|].
      constructor; [|constructor]. exact (Q_log (LogDirectoryError target)).
  - constructor; auto. constructor; [|constructor].
    exact (Q_log (LogDirectoryError target)).
Qed.

Lemma process_items_invariant target items :
  D target ->
  Forall (fun item => forall t c, D t -> (0 <= c)%Z ->
                        Forall Q (snd (fst (process_item t c item)))) items ->
  forall c, (0 <= c)%Z ->
            Forall Q (snd (fst (process_items target c items))).
Proof.
  intros Hd. induction 1 as [|i r Hi _ IH]; intros c Hc; [constructor|].
  rewrite MirrorFacts.process_items_cons. specialize (Hi target c Hd Hc).
  pose proof (MirrorFacts.process_item_counter target c i) as Hcnt.
  destruct (process_item target c i) as [[c1 evs1] [|]]; [|exact Hi].
  simpl in Hcnt. specialize (IH c1 ltac:(lia)).
  destruct (process_items target c1 r) as [[c2 evs2] fl]. simpl in *.
  apply Forall_app. auto.
Qed.

Lemma process_item_invariant item :
  forall target c, D target -> (0 <= c)%Z ->
                   Forall Q (snd (fst (process_item target c item))).
Proof.
  induction item as [name content | name | name items IH | name | name]
    using MirrorFacts.node_nested_ind; intros target c Hd Hc.
  - rewrite MirrorFacts.process_item_file. unfold process_file.
    destruct (is_wav name) eqn:Hw.
    + destruct (convert_audio_file _ _); simpl.
      * constructor; [now apply Q_written|].
        constructor; [|constructor].
        exact (Q_log (LogProcessed name (normalize_name name c))).
      * constructor; [|constructor]. exact (Q_log (LogConvertError name)).
    + constructor; [|constructor]. exact (Q_log (LogSkipped name)).
  - rewrite MirrorFacts.process_item_dir.
    destruct (process_directory _ _) as [evs fl] eqn:E.
    change evs with (fst (evs, fl)). rewrite <- E.
    apply directory_body_invariant; [now apply D_child | discriminate].
  - rewrite MirrorFacts.process_item_dir.
    destruct (process_directory _ _) as [evs fl] eqn:E.
    change evs with (fst (evs, fl)). rewrite <- E.
    apply directory_body_invariant; [now apply D_child|].
    intros items' [= <-].
    apply process_items_invariant; [now apply D_child | exact IH | lia].
  - constructor.
  - constructor.
Qed.

Lemma process_directory_invariant target listing :
  D target -> Forall Q (fst (process_directory target listing)).
Proof.
  intros Hd. apply directory_body_invariant; [exact Hd|].
  intros items _. apply process_items_invariant; [exact Hd| |lia].
  apply Forall_forall. intros item _. apply process_item_invariant.
Qed.

End Invariant.

(** ** Where files go and what they are called *)

Lemma ueqb_eq a b : ueqb a b = true -> a = b.
Proof.
  unfold ueqb. now destruct (list_eq_dec N.eq_dec a b).
Qed.

Lemma touched_paths_forall (P : path -> Prop) evs :
  Forall (fun e => match e with
                   | Mkdir p => P p
                   | Written p _ => P p
                   | _ => True
                   end) evs ->
  Forall P (touched_paths evs).
Proof.
  unfold touched_paths. induction 1 as [|e r He _ IH]; [constructor|].
  simpl. destruct e; simpl; auto.
Qed.

Lemma written_paths_forall (P : path -> Prop) evs :
  Forall (fun e => match e with Written p _ => P p | _ => True end) evs ->
  Forall P (written_paths evs).
Proof.
  unfold written_paths. induction 1 as [|e r He _ IH]; [constructor|].
  simpl. destruct e; simpl; auto.
Qed.

(** X13.  Every path that [process_directory] hands to [mkdir] and every
    file that it writes lies at or below its target path.  (Above the
    target, [mkdir(parents=True)] creates the missing ancestors of the
    target itself, and nothing else.) *)
Theorem writes_stay_below_target (target : path)
        (listing : option (list node)) :
  Forall (below target)
         (touched_paths (fst (process_directory target listing))).
Proof.
  apply touched_paths_forall.
  apply process_directory_invariant with (D := below target).
  - intros t x [rest ->]. exists (rest ++ [x]). now rewrite app_assoc.
  - auto.
  - intros t c name w [rest ->] _ _.
    exists (rest ++ [normalize_name name c]). now rewrite app_assoc.
  - now intros [].
  - exists []. now rewrite app_nil_r.
Qed.

(** X14.  Every file written by [process_directory], at any depth, has a
    name that matches the destination pattern and ends in [.wav]. *)
Theorem written_names_match_pattern (target : path)
        (listing : option (list node)) :
  Forall (fun p => wav_name (last p []))
         (written_paths (fst (process_directory target listing))).
Proof.
  apply written_paths_forall.
  apply process_directory_invariant with (D := fun _ : path => True); auto.
  - intros t c name w _ Hc Hw. rewrite last_last.
    apply ueqb_eq in Hw. rewrite NameFacts.normalize_name_split, Hw.
    split; [|eauto].
    exists (numbered_stem name c), (u ".wav"). repeat split.
    + apply NameFacts.numbered_stem_nonempty.
    + now apply NameFacts.numbered_stem_word.
    + right. exists (u "wav"). repeat split. discriminate.
  - now intros [].
Qed.

(** ** The whole run *)

Lemma process_directory_normal target listing :
  mkdir_ok target = true -> snd (process_directory target listing) = Normal.
Proof.
  intros Hmk. unfold process_directory, directory_body. rewrite Hmk.
  destruct listing as [items|]; [|reflexivity].
  now destruct (process_items target 0 items) as [[c evs] [|]].
Qed.

(** X15.  [run_automation] returns [True] exactly when [exists()] and
    [is_dir()] both answer [True] for the source, without raising, and
    the destination root can be created; whatever happens to files and
    sub-directories below does not change the result. *)
Theorem run_automation_result (src : source) (sd_card_path : path) :
  fst (run_automation src sd_card_path) = true <->
  (exists listing, src = Directory listing) /\
  mkdir_ok sd_card_path = true.
Proof.
  unfold run_automation. destruct src as [| |listing|]; simpl.
  - split; [discriminate | intros [[l Hl] _]; discriminate].
  - split; [discriminate | intros [[l Hl] _]; discriminate].
  - destruct (mkdir_ok sd_card_path) eqn:Hmk.
    + pose proof (process_directory_normal sd_card_path listing Hmk) as Hn.
      destruct (process_directory sd_card_path listing) as [evs fl].
      simpl in Hn. subst fl. simpl. split; eauto.
    + simpl. split; [discriminate | intros [_ Hf]; discriminate].
  - split; [discriminate | intros [[l Hl] _]; discriminate].
Qed.

End Mirror.

Lemma unreadable_subdirectory_skipped_witness :
  process_items (U := Fixtures.tables) (H := Fixtures.lib) (F := Fixtures.fs)
    Fixtures.import 0
    ([File Fixtures.kick (Some Fixtures.tone)]
       ++ Dir (u "Secret") None
       :: [File Fixtures.snare (Some Fixtures.tone)])
  = (2%Z,
     [Written [u "IMPORT"; u "kick.wav"] Fixtures.tone_out;
      LogProcessed Fixtures.kick (u "kick.wav");
      Mkdir [u "IMPORT"; u "Secret"];
      LogDirectoryError [u "IMPORT"; u "Secret"];
      Written [u "IMPORT"; u "snare_001.wav"] Fixtures.tone_out;
      LogProcessed Fixtures.snare (u "snare_001.wav")],
     Normal).
Proof.
  rewrite (@unreadable_subdirectory_skipped Fixtures.tables Fixtures.lib
             Fixtures.fs Fixtures.import 0 1
             [File Fixtures.kick (Some Fixtures.tone)]
             [File Fixtures.snare (Some Fixtures.tone)]
             [Written [u "IMPORT"; u "kick.wav"] Fixtures.tone_out;
              LogProcessed Fixtures.kick (u "kick.wav")]
             (u "Secret") eq_refl eq_refl).
  reflexivity.
Defined.

Lemma subdirectory_mkdir_failure_ends_loop_witness :
  process_directory (U := Fixtures.tables) (H := Fixtures.lib)
    (F := Fixtures.fs_locked) Fixtures.import
    (Some ([File Fixtures.kick (Some Fixtures.tone)]
             ++ Dir (u "Locked")
                    (Some [File Fixtures.kick (Some Fixtures.tone)])
             :: [File Fixtures.snare (Some Fixtures.tone)]))
  = ([Mkdir [u "IMPORT"];
      Written [u "IMPORT"; u "kick.wav"] Fixtures.tone_out;
      LogProcessed Fixtures.kick (u "kick.wav");
      LogDirectoryError [u "IMPORT"]],
     Normal).
Proof.
  exact (@subdirectory_mkdir_failure_ends_loop Fixtures.tables Fixtures.lib
           Fixtures.fs_locked Fixtures.import 1
           [File Fixtures.kick (Some Fixtures.tone)]
           [File Fixtures.snare (Some Fixtures.tone)]
           [Written [u "IMPORT"; u "kick.wav"] Fixtures.tone_out;
            LogProcessed Fixtures.kick (u "kick.wav")]
           (u "Locked")
           (Some [File Fixtures.kick (Some Fixtures.tone)])
           eq_refl eq_refl eq_refl).
Defined.

End MirrorExtra.

(* ================================================================== *)
(** * Properties of the SMB script *)

Module SmbFacts.
Import Text NameNormalizer Audio TreeMirror SmbMirror MirrorShape.

Section Smb.
Context {U : UnicodeData} {L : AudioLib} {F : TargetFs}.

Lemma smb_process_items_cons sd i r :
  smb_process_items sd (i :: r) =
  match smb_process_entry sd i with
  | (evs, Normal) =>
      let (evs', fl) := smb_process_items sd r in (evs ++ evs', fl)
  | (evs, Raised) => (evs, Raised)
  end.
Proof. reflexivity. Qed.

Lemma smb_process_items_app sd l1 l2 :
  smb_process_items sd (l1 ++ l2) =
  match smb_process_items sd l1 with
  | (evs, Normal) =>
      let (evs', fl) := smb_process_items sd l2 in (evs ++ evs', fl)
  | (evs, Raised) => (evs, Raised)
  end.
Proof.
  induction l1 as [|i r IH].
  - simpl. now destruct (smb_process_items sd l2).
  - rewrite <- app_comm_cons, !smb_process_items_cons.
    destruct (smb_process_entry sd i) as [evs1 [|]]; [|reflexivity].
    rewrite IH.
    destruct (smb_process_items sd r) as [evs2 [|]]; [|reflexivity].
    destruct (smb_process_items sd l2) as [evs3 fl].
    now rewrite app_assoc.
Qed.

(** The loop of a recursive call is the loop over what
    [get_smb_file_list] returns. *)
Lemma smb_process_entry_dir sd name listing :
  smb_process_entry sd (SmbDir name listing) =
  if mkdir_ok (sd ++ [normalize_name_smb name]) then
    let (evs, fl) :=
      process_directory_smb (sd ++ [normalize_name_smb name]) listing in
    (SmbMkdir (sd ++ [normalize_name_smb name]) :: evs, fl)
  else ([], Raised).
Proof.
  cbn [smb_process_entry].
  destruct (mkdir_ok (sd ++ [normalize_name_smb name])); [|reflexivity].
  unfold process_directory_smb, get_smb_file_list.
  destruct listing as [l|]; [|reflexivity].
  match goal with
  | |- (let (_, _) := ?a in _) = (let (_, _) := (let (_, _) := ?b in _) in _) =>
      assert (E : a = b)
  end.
  { induction l as [|i r IH]; [reflexivity|].
    simpl. destruct (is_pseudo (filename_of i)); simpl; [exact IH|].
    unfold smb_loop_step in *.
    destruct (smb_process_entry _ i) as [evs1 [|]]; [|reflexivity].
    now rewrite IH. }
  rewrite E. now destruct (smb_process_items _ _).
Qed.

Lemma smb_process_entry_file sd name download :
  smb_process_entry sd (SmbFile name download)
  = (smb_process_file sd name download, Normal).
Proof. reflexivity. Qed.

Lemma smb_entry_nested_ind (P : smb_entry -> Prop) :
  (forall name download, P (SmbFile name download)) ->
  (forall name, P (SmbDir name None)) ->
  (forall name items, Forall P items -> P (SmbDir name (Some items))) ->
  forall e, P e.
Proof.
  intros Hfile Hnone Hsome. fix IH 1.
  intros [name download | name [items|]];
    [apply Hfile | | apply Hnone].
  apply Hsome.
  exact ((fix all (l : list smb_entry) : Forall P l :=
            match l with
            | [] => Forall_nil P
            | x :: r => Forall_cons x (IH x) (all r)
            end) items).
Qed.

(** ** An invariant of the events of a traversal *)

Section Invariant.
Variable Q : smb_event -> Prop.
Hypothesis Q_written :
  forall sd name content w,
    is_wav_smb name = true ->
    convert_audio_file_smb content (sd ++ [normalize_name_smb name]) = Some w ->
    Q (SmbWritten (sd ++ [normalize_name_smb name]) w).
Hypothesis Q_other :
  forall e, match e with
            | SmbWritten _ _ | SmbConnected | SmbDisconnected
            | SmbTempCleared => True
            | _ => Q e
            end.

Lemma smb_process_file_invariant sd name download :
  Forall Q (smb_process_file sd name download).
Proof.
  unfold smb_process_file. destruct (is_wav_smb name) eqn:Hw.
  - destruct download as [content|].
    + destruct (convert_audio_file_smb content _) as [w|] eqn:Hc.
      * constructor; [now apply (Q_written _ _ content)|].
        constructor; [|constructor].
        exact (Q_other (SmbLogProcessed name (normalize_name_smb name))).
      * constructor; [|constructor]. exact (Q_other (SmbLogConvertError name)).
    + constructor; [|constructor]. exact (Q_other (SmbLogDownloadError name)).
  - constructor; [|constructor]. exact (Q_other (SmbLogSkipped name)).
Qed.

Lemma smb_process_items_invariant sd items :
  Forall (fun e => forall sd', Forall Q (fst (smb_process_entry sd' e))) items ->
  Forall Q (fst (smb_process_items sd items)).
Proof.
  induction 1 as [|i r Hi _ IH]; [constructor|].
  rewrite smb_process_items_cons. specialize (Hi sd).
  destruct (smb_process_entry sd i) as [evs1 [|]]; [|exact Hi].
  destruct (smb_process_items sd r) as [evs2 fl]. simpl in *.
  apply Forall_app. auto.
Qed.

Lemma process_directory_smb_invariant sd listing :
  (forall items, listing = Some items ->
     Forall (fun e => forall sd', Forall Q (fst (smb_process_entry sd' e)))
            items) ->
  Forall Q (fst (process_directory_smb sd listing)).
Proof.
  intros Hall. unfold process_directory_smb, get_smb_file_list.
  destruct listing as [l|].
  - specialize (Hall l eq_refl).
    assert (Hf : Forall (fun e => forall sd',
                           Forall Q (fst (smb_process_entry sd' e)))
                        (filter (fun e => negb (is_pseudo (filename_of e))) l)).
    { apply Forall_forall. intros e He. apply filter_In in He as [He _].
      rewrite Forall_forall in Hall. now apply Hall. }
    apply (smb_process_items_invariant sd) in Hf.
    now destruct (smb_process_items sd _).
  - simpl. constructor; [|constructor]. exact (Q_other SmbLogListError).
Qed.

Lemma smb_process_entry_invariant e :
  forall sd, Forall Q (fst (smb_process_entry sd e)).
Proof.
  induction e as [name download | name | name items IH]
    using smb_entry_nested_ind; intros sd.
  - apply smb_process_file_invariant.
  - rewrite smb_process_entry_dir.
    destruct (mkdir_ok _); [|constructor].
    pose proof (process_directory_smb_invariant
                  (sd ++ [normalize_name_smb name]) (listing := None)) as Hd.
    destruct (process_directory_smb _ None) as [evs fl]. simpl in *.
    constructor; [exact (Q_other (SmbMkdir _))|].
    apply Hd. discriminate.
  - rewrite smb_process_entry_dir.
    destruct (mkdir_ok _); [|constructor].
    pose proof (process_directory_smb_invariant
                  (sd ++ [normalize_name_smb name])
                  (listing := Some items)) as Hd.
    destruct (process_directory_smb _ (Some items)) as [evs fl]. simpl in *.
    constructor; [exact (Q_other (SmbMkdir _))|].
    apply Hd. now intros items' [= <-].
Qed.

Lemma smb_traversal_invariant sd listing :
  Forall Q (fst (process_directory_smb sd listing)).
Proof.
  apply process_directory_smb_invariant. intros items _.
  apply Forall_forall. intros e _. apply smb_process_entry_invariant.
Qed.

End Invariant.

(** ** The session *)

Lemma filter_none {A} (f : A -> bool) l :
  Forall (fun x => f x = false) l -> filter f l = [].
Proof.
  induction 1 as [|x r Hx _ IH]; [reflexivity|]. simpl. now rewrite Hx.
Qed.

Lemma smb_traversal_no_session sd listing :
  filter is_session_event (fst (process_directory_smb sd listing)) = [].
Proof.
  apply filter_none. apply smb_traversal_invariant.
  - reflexivity.
  - now intros [].
Qed.

(** X16.  Without a connection [run_automation] does nothing and returns
    [False].  With one, the session is closed exactly once, after every
    effect of the traversal, whether the traversal ended normally or by
    an exception; only the removal of the temporary directory may
    follow. *)
Theorem session_always_released (connect_ok temp_exists : bool)
        (listing : option (list smb_entry)) (sd_card_path : path) :
  (connect_ok = false ->
   run_automation_smb connect_ok temp_exists listing sd_card_path
     = (false, [])) /\
  (connect_ok = true ->
   exists body tail,
     snd (run_automation_smb connect_ok temp_exists listing sd_card_path)
       = SmbConnected :: body ++ SmbDisconnected :: tail /\
     filter is_session_event body = [] /\
     (tail = [] \/ tail = [SmbTempCleared])).
Proof.
  split; intros ->; [reflexivity|].
  unfold run_automation_smb. destruct (mkdir_ok sd_card_path).
  - pose proof (smb_traversal_no_session sd_card_path listing) as Hns.
    destruct (process_directory_smb sd_card_path listing) as [evs fl].
    simpl in *. exists (SmbMkdir sd_card_path :: evs), [SmbTempCleared].
    repeat split; auto.
  - exists [], (if temp_exists then [SmbTempCleared] else []).
    repeat split. destruct temp_exists; auto.
Qed.

(** ** Faults *)

(** X17.  In the SMB script nothing catches the failure to create the
    destination of a remote folder: the entries listed after that folder
    are not processed and the run returns [False]. *)
Theorem smb_mkdir_failure_aborts_run (temp_exists : bool)
        (before rest : list smb_entry) (evs0 : list smb_event)
        (name : ustring) (sub : option (list smb_entry))
        (sd_card_path : path) :
  is_pseudo name = false ->
  smb_process_items sd_card_path (fst (get_smb_file_list (Some before)))
    = (evs0, Normal) ->
  mkdir_ok sd_card_path = true ->
  mkdir_ok (sd_card_path ++ [normalize_name_smb name]) = false ->
  run_automation_smb true temp_exists
    (Some (before ++ SmbDir name sub :: rest)) sd_card_path
  = (false,
     SmbConnected :: SmbMkdir sd_card_path :: evs0
       ++ [SmbDisconnected; SmbTempCleared]).
Proof.
  intros Hname Hbefore Hroot Hsub.
  unfold run_automation_smb, process_directory_smb, get_smb_file_list.
  simpl in Hbefore.
  rewrite Hroot, filter_app. cbn [filter filename_of].
  rewrite Hname. cbn [negb].
  rewrite smb_process_items_app, Hbefore, smb_process_items_cons,
    smb_process_entry_dir, Hsub.
  simpl. now rewrite app_nil_r.
Qed.

(** X18.  A qualifying file that cannot be downloaded, or whose
    conversion fails, only leaves an error in the log: nothing is
    written for it and the loop goes on with the remaining entries. *)
Theorem smb_file_failure_isolated (sd_card_path : path)
        (before rest : list smb_entry) (evs0 : list smb_event)
        (name : ustring) (download : option (option decoded)) :
  smb_process_items sd_card_path before = (evs0, Normal) ->
  is_wav_smb name = true ->
  match download with
  | None => True
  | Some content =>
      convert_audio_file_smb content
        (sd_card_path ++ [normalize_name_smb name]) = None
  end ->
  smb_process_items sd_card_path (before ++ SmbFile name download :: rest)
  = (let (evs, fl) := smb_process_items sd_card_path rest in
     (evs0 ++ (match download with
               | None => SmbLogDownloadError name
               | Some _ => SmbLogConvertError name
               end) :: evs, fl)).
Proof.
  intros Hbefore Hwav Hfail.
  rewrite smb_process_items_app, Hbefore, smb_process_items_cons,
    smb_process_entry_file.
  unfold smb_process_file. rewrite Hwav.
  destruct download as [content|]; [rewrite Hfail|];
    now destruct (smb_process_items sd_card_path rest).
Qed.

(** X19.  The SMB script has no counter: two qualifying files of one
    folder whose names normalise to the same name are written to the same
    output path, the second over the first. *)
Theorem smb_same_name_same_path (sd_card_path : path) (n1 n2 : ustring)
        (c1 c2 : option decoded) (w1 w2 : wav_output) :
  is_wav_smb n1 = true -> is_wav_smb n2 = true ->
  normalize_name_smb n1 = normalize_name_smb n2 ->
  convert_audio_file_smb c1 (sd_card_path ++ [normalize_name_smb n1])
    = Some w1 ->
  convert_audio_file_smb c2 (sd_card_path ++ [normalize_name_smb n1])
    = Some w2 ->
  smb_process_items sd_card_path
    [SmbFile n1 (Some c1); SmbFile n2 (Some c2)]
  = ([SmbWritten (sd_card_path ++ [normalize_name_smb n1]) w1;
      SmbLogProcessed n1 (normalize_name_smb n1);
      SmbWritten (sd_card_path ++ [normalize_name_smb n1]) w2;
      SmbLogProcessed n2 (normalize_name_smb n1)],
     Normal).
Proof.
  intros Hw1 Hw2 Hsame Hc1 Hc2.
  rewrite !smb_process_items_cons, !smb_process_entry_file.
  unfold smb_process_file. rewrite Hw1, Hw2, <- Hsame, Hc1, Hc2.
  reflexivity.
Qed.

(** X20.  The entries [.] and [..] of a remote listing are never
    processed, at the root or in any folder below it. *)
Theorem smb_pseudo_entries_ignored (sd_card_path : path)
        (before rest : list smb_entry) (e : smb_entry) (name : ustring) :
  is_pseudo (filename_of e) = true ->
  process_directory_smb sd_card_path (Some (before ++ e :: rest))
    = process_directory_smb sd_card_path (Some (before ++ rest)) /\
  smb_process_entry sd_card_path (SmbDir name (Some (before ++ e :: rest)))
    = smb_process_entry sd_card_path (SmbDir name (Some (before ++ rest))).
Proof.
  intros Hp.
  assert (Hdir : forall sd,
             process_directory_smb sd (Some (before ++ e :: rest))
             = process_directory_smb sd (Some (before ++ rest))).
  { intros sd. unfold process_directory_smb, get_smb_file_list.
    rewrite !filter_app. cbn [filter]. now rewrite Hp. }
  split; [apply Hdir|]. now rewrite !smb_process_entry_dir, Hdir.
Qed.

(** ** Channels *)

Lemma convert_smb_mono (shape : ResampleShape L) content out w :
  convert_audio_file_smb content out = Some w -> channels (pcm w) <= 1.
Proof.
  destruct content as [[data rate]|]; [|discriminate]. intros Hc.
  apply AudioFacts.convert_smb_inv in Hc
    as (target & data' & mono & peak & _ & Hr & Hm & _ & ->).
  simpl. rewrite AudioFacts.channels_amap, AudioFacts.channels_peak_normalize.
  destruct (Nat.ltb_spec 1 (channels data)) as [Hgt|Hle].
  - destruct data' as [xs|nch rows]; [discriminate|].
    injection Hm as <-. simpl. lia.
  - injection Hm as <-.
    apply (AudioFacts.resample_step_layout shape) in Hr.
    apply AudioFacts.same_layout_channels in Hr. lia.
Qed.

(** X21.  Whatever the remote tree holds, every file written by the SMB
    script has at most one channel. *)
Theorem smb_writes_mono_only (shape : ResampleShape L)
        (sd_card_path : path) (listing : option (list smb_entry)) :
  Forall (fun e => match e with
                   | SmbWritten _ w => channels (pcm w) <= 1
                   | _ => True
                   end)
         (fst (process_directory_smb sd_card_path listing)).
Proof.
  apply smb_traversal_invariant.
  - intros sd name content w _ Hc. exact (convert_smb_mono shape _ _ Hc).
  - now intros [].
Qed.

End Smb.

Lemma session_always_released_witness :
  exists body tail,
    snd (run_automation_smb (U := Fixtures.tables) (H := Fixtures.lib)
           (F := Fixtures.fs) true false
           (Some [SmbFile Fixtures.kick (Some (Some Fixtures.tone))])
           Fixtures.import)
      = SmbConnected :: body ++ SmbDisconnected :: tail /\
    filter is_session_event body = [] /\
    (tail = [] \/ tail = [SmbTempCleared]).
Proof.
  exact (proj2 (@session_always_released Fixtures.tables Fixtures.lib
                  Fixtures.fs true false
                  (Some [SmbFile Fixtures.kick (Some (Some Fixtures.tone))])
                  Fixtures.import) eq_refl).
Defined.

Lemma smb_mkdir_failure_aborts_run_witness :
  run_automation_smb (U := Fixtures.tables) (H := Fixtures.lib)
    (F := Fixtures.fs_locked) true false
    (Some ([SmbFile Fixtures.kick (Some (Some Fixtures.tone))]
             ++ SmbDir (u "Locked") (Some [])
             :: [SmbFile Fixtures.snare (Some (Some Fixtures.tone))]))
    Fixtures.import
  = (false,
     SmbConnected :: SmbMkdir Fixtures.import
       :: [SmbWritten [u "IMPORT"; u "kick.wav"] Fixtures.tone_out;
           SmbLogProcessed Fixtures.kick (u "kick.wav")]
       ++ [SmbDisconnected; SmbTempCleared]).
Proof.
  exact (@smb_mkdir_failure_aborts_run Fixtures.tables Fixtures.lib
           Fixtures.fs_locked false
           [SmbFile Fixtures.kick (Some (Some Fixtures.tone))]
           [SmbFile Fixtures.snare (Some (Some Fixtures.tone))]
           [SmbWritten [u "IMPORT"; u "kick.wav"] Fixtures.tone_out;
            SmbLogProcessed Fixtures.kick (u "kick.wav")]
           (u "Locked") (Some []) Fixtures.import
           eq_refl eq_refl eq_refl eq_refl).
Defined.

Lemma smb_file_failure_isolated_witness :
  smb_process_items (U := Fixtures.tables) (H := Fixtures.lib)
    (F := Fixtures.fs) Fixtures.import
    ([SmbFile Fixtures.kick (Some (Some Fixtures.tone))]
       ++ SmbFile Fixtures.broken None
       :: [SmbFile Fixtures.snare (Some (Some Fixtures.tone))])
  = ([SmbWritten [u "IMPORT"; u "kick.wav"] Fixtures.tone_out;
      SmbLogProcessed Fixtures.kick (u "kick.wav");
      SmbLogDownloadError Fixtures.broken;
      SmbWritten [u "IMPORT"; u "snare.wav"] Fixtures.tone_out;
      SmbLogProcessed Fixtures.snare (u "snare.wav")],
     Normal).
Proof.
  rewrite (@smb_file_failure_isolated Fixtures.tables Fixtures.lib
             Fixtures.fs Fixtures.import
             [SmbFile Fixtures.kick (Some (Some Fixtures.tone))]
             [SmbFile Fixtures.snare (Some (Some Fixtures.tone))]
             [SmbWritten [u "IMPORT"; u "kick.wav"] Fixtures.tone_out;
              SmbLogProcessed Fixtures.kick (u "kick.wav")]
             Fixtures.broken None eq_refl eq_refl I).
  reflexivity.
Defined.

Lemma smb_same_name_same_path_witness :
  smb_written_paths
    (fst (smb_process_items (U := Fixtures.tables) (H := Fixtures.lib)
            (F := Fixtures.fs) Fixtures.import
            [SmbFile (u "a b.wav") (Some (Some Fixtures.tone));
             SmbFile (u "a_b.wav") (Some (Some Fixtures.full_scale))]))
  = [[u "IMPORT"; u "a_b.wav"]; [u "IMPORT"; u "a_b.wav"]].
Proof.
  rewrite (@smb_same_name_same_path Fixtures.tables Fixtures.lib
             Fixtures.fs Fixtures.import (u "a b.wav") (u "a_b.wav")
             (Some Fixtures.tone) (Some Fixtures.full_scale)
             Fixtures.tone_out
             {| pcm := Arr1 [31128%Z]; out_rate := 44100%Z |}
             eq_refl eq_refl eq_refl eq_refl eq_refl).
  reflexivity.
Defined.

Lemma smb_pseudo_entries_ignored_witness :
  process_directory_smb (U := Fixtures.tables) (H := Fixtures.lib)
    (F := Fixtures.fs) Fixtures.import
    (Some ([] ++ SmbDir (u "..") None
              :: [SmbFile Fixtures.kick (Some (Some Fixtures.tone))]))
  = process_directory_smb (U := Fixtures.tables) (H := Fixtures.lib)
      (F := Fixtures.fs) Fixtures.import
      (Some ([] ++ [SmbFile Fixtures.kick (Some (Some Fixtures.tone))])).
Proof.
  exact (proj1 (@smb_pseudo_entries_ignored Fixtures.tables Fixtures.lib
                  Fixtures.fs Fixtures.import []
                  [SmbFile Fixtures.kick (Some (Some Fixtures.tone))]
                  (SmbDir (u "..") None) (u "x") eq_refl)).
Defined.

Lemma smb_writes_mono_only_witness :
  Forall (fun e => match e with
                   | SmbWritten _ w => channels (pcm w) <= 1
                   | _ => True
                   end)
         (fst (process_directory_smb (U := Fixtures.tables)
                 (H := Fixtures.lib) (F := Fixtures.fs) Fixtures.import
                 (Some [SmbFile Fixtures.kick
                                (Some (Some Fixtures.stereo))]))).
Proof.
  exact (@smb_writes_mono_only Fixtures.tables Fixtures.lib Fixtures.fs
           (AudioFacts.sample_lib_shape _) Fixtures.import
           (Some [SmbFile Fixtures.kick (Some (Some Fixtures.stereo))])).
Defined.

(** A remote tree with a folder: nothing is numbered, the stereo file
    comes out mono under its normalised name. *)
Example smb_run_example :
  smb_written_paths
    (snd (run_automation_smb (U := Fixtures.tables) (H := Fixtures.lib)
            (F := Fixtures.fs) true false
            (Some [SmbDir (u ".") None;
                   SmbFile Fixtures.kick (Some (Some Fixtures.tone));
                   SmbDir (u "Drum Kit")
                          (Some [SmbDir (u "..") None;
                                 SmbFile (u "Hi Hat.WAV")
                                         (Some (Some Fixtures.stereo));
                                 SmbFile (u "notes.txt") None]);
                   SmbFile Fixtures.snare (Some (Some Fixtures.tone))])
            Fixtures.import))
  = [[u "IMPORT"; u "kick.wav"];
     [u "IMPORT"; u "Drum_Kit"; u "Hi_Hat.wav"];
     [u "IMPORT"; u "snare.wav"]].
Proof. reflexivity. Qed.

End SmbFacts.
